(** * cli-trace: Bezier math, SVG path parser, timeline and easing

    A shallow embedding of the geometry and timing core of cli-trace
    (packages/core/src/bezier.ts, timeline, easing.ts and the SVG path
    parser) together with the properties its specification states.

    Numbers.  A JavaScript [number] is modelled by [num]: an exact real,
    one of the two infinities, or NaN.  Arithmetic follows IEEE 754 on the
    special values and is exact on the finite ones: rounding, overflow and
    the sign of zero are left out of the model.  The properties are
    therefore stated so that rounding cannot turn them: exact values,
    comparisons between given values, and results that the double
    arithmetic reproduces up to the rounding of the value returned.
    Where a property holds of the exact sums only, it says so, and the
    module [Doubles] evaluates the same code in binary64 to show the
    difference.

    Strings.  A JavaScript string is a sequence of UTF-16 code units,
    modelled as [list N]. *)

From Stdlib Require Import Reals Lra Lia ZArith NArith List Bool String Ascii.
From Stdlib Require Import Rgeom R_Ifp.
From Stdlib Require Floats.
From Equations Require Import Equations.
Import ListNotations.

Set Implicit Arguments.

(* ================================================================= *)
(** ** JavaScript numbers *)

Inductive num : Type :=
| Num (r : R)
| PInf
| NInf
| NaN.

Declare Scope js_scope.
Delimit Scope js_scope with js.
Bind Scope js_scope with num.

Definition Rltb (a b : R) : bool := if Rlt_dec a b then true else false.
Definition Rleb (a b : R) : bool := if Rle_dec a b then true else false.
Definition Reqb (a b : R) : bool := if Req_dec_T a b then true else false.

(** Sign of an infinite product or quotient: [true] is negative. *)
Definition inf_of_sign (negative : bool) : num :=
  if negative then NInf else PInf.

Definition num_neg (a : num) : num :=
  match a with
  | Num r => Num (- r)
  | PInf => NInf
  | NInf => PInf
  | NaN => NaN
  end.

Definition num_add (a b : num) : num :=
  match a, b with
  | NaN, _ | _, NaN => NaN
  | Num r, Num s => Num (r + s)
  | PInf, NInf | NInf, PInf => NaN
  | PInf, _ | _, PInf => PInf
  | NInf, _ | _, NInf => NInf
  end.

Definition num_sub (a b : num) : num :=
  match a, b with
  | NaN, _ | _, NaN => NaN
  | Num r, Num s => Num (r - s)
  | PInf, PInf | NInf, NInf => NaN
  | PInf, _ | _, NInf => PInf
  | NInf, _ | _, PInf => NInf
  end.

(** A finite factor times an infinity: NaN for zero, otherwise signed. *)
Definition scale_inf (r : R) (negative : bool) : num :=
  if Reqb r 0 then NaN else inf_of_sign (xorb (Rltb r 0) negative).

Definition num_mul (a b : num) : num :=
  match a, b with
  | NaN, _ | _, NaN => NaN
  | Num r, Num s => Num (r * s)
  | Num r, PInf | PInf, Num r => scale_inf r false
  | Num r, NInf | NInf, Num r => scale_inf r true
  | PInf, PInf | NInf, NInf => PInf
  | PInf, NInf | NInf, PInf => NInf
  end.

Definition num_div (a b : num) : num :=
  match a, b with
  | NaN, _ | _, NaN => NaN
  | Num r, Num s =>
      if Reqb s 0 then scale_inf r false else Num (r / s)
  | Num _, (PInf | NInf) => Num 0
  | PInf, Num s => inf_of_sign (Rltb s 0)
  | NInf, Num s => inf_of_sign (negb (Rltb s 0))
  | (PInf | NInf), (PInf | NInf) => NaN
  end.

(** Rounding of a real towards minus infinity, plus infinity and zero. *)
Definition Rfloor (r : R) : Z := Int_part r.
Definition Rceil (r : R) : Z := (- Int_part (- r))%Z.
Definition Rtrunc (r : R) : Z := if Rltb r 0 then Rceil r else Rfloor r.

(** The [%] operator: the remainder has the sign of the dividend. *)
Definition num_rem (a b : num) : num :=
  match a, b with
  | NaN, _ | _, NaN => NaN
  | (PInf | NInf), _ => NaN
  | Num r, (PInf | NInf) => Num r
  | Num r, Num s =>
      if Reqb s 0 then NaN else Num (r - s * IZR (Rtrunc (r / s)))
  end.

Definition num_lt (a b : num) : bool :=
  match a, b with
  | NaN, _ | _, NaN => false
  | Num r, Num s => Rltb r s
  | _, NInf => false
  | NInf, _ => true
  | PInf, _ => false
  | Num _, PInf => true
  end.

Definition num_le (a b : num) : bool :=
  match a, b with
  | NaN, _ | _, NaN => false
  | Num r, Num s => Rleb r s
  | NInf, _ => true
  | _, PInf => true
  | PInf, _ => false
  | Num _, NInf => false
  end.

Definition num_gt (a b : num) : bool := num_lt b a.
Definition num_ge (a b : num) : bool := num_le b a.

(** Strict equality [===] on numbers: NaN differs from itself. *)
Definition num_eq (a b : num) : bool :=
  match a, b with
  | Num r, Num s => Reqb r s
  | PInf, PInf | NInf, NInf => true
  | _, _ => false
  end.

Definition isNaN (a : num) : bool :=
  match a with NaN => true | _ => false end.

Definition Math_min (a b : num) : num :=
  match a, b with
  | NaN, _ | _, NaN => NaN
  | _, _ => if num_le a b then a else b
  end.

Definition Math_max (a b : num) : num :=
  match a, b with
  | NaN, _ | _, NaN => NaN
  | _, _ => if num_le a b then b else a
  end.

Definition Math_floor (a : num) : num :=
  match a with Num r => Num (IZR (Rfloor r)) | _ => a end.

Definition Math_ceil (a : num) : num :=
  match a with Num r => Num (IZR (Rceil r)) | _ => a end.

Definition Math_sqrt (a : num) : num :=
  match a with
  | Num r => if Rltb r 0 then NaN else Num (sqrt r)
  | PInf => PInf
  | NInf | NaN => NaN
  end.

(** [Math.pow(a, n)] for a literal natural exponent [n]. *)
Fixpoint Math_pow (a : num) (n : nat) : num :=
  match n with
  | O => Num 1
  | S n' => num_mul a (Math_pow a n')
  end.

(** An integer loop counter read as a number. *)
Definition of_nat (i : nat) : num := Num (INR i).
Definition of_Z (z : Z) : num := Num (IZR z).

Notation "a + b" := (num_add a b) : js_scope.
Notation "a - b" := (num_sub a b) : js_scope.
Notation "a * b" := (num_mul a b) : js_scope.
Notation "a / b" := (num_div a b) : js_scope.
Notation "- a" := (num_neg a) : js_scope.
Notation "a <? b" := (num_lt a b) (at level 70) : js_scope.
Notation "a <=? b" := (num_le a b) (at level 70) : js_scope.
Notation "a >? b" := (num_gt a b) (at level 70) : js_scope.
Notation "a >=? b" := (num_ge a b) (at level 70) : js_scope.
Notation "a === b" := (num_eq a b) (at level 70) : js_scope.
Notation "a 'mod' b" := (num_rem a b) : js_scope.

(* ================================================================= *)
(** ** Loops *)

(** [for (let i = i0; cond(i); i++) body]: the counter is an integer and
    the test reads it as a number.  [None] when the loop has not left
    within [fuel] iterations. *)
Fixpoint for_loop {St : Type} (fuel : nat) (cond : num -> bool)
    (body : num -> St -> St) (i : nat) (s : St) : option St :=
  match fuel with
  | O => None
  | S fuel' =>
      if cond (of_nat i)
      then for_loop fuel' cond body (S i) (body (of_nat i) s)
      else Some s
  end.

(** [for (let i = i0; i < len; i += step) body] over the indices of an
    array of [len] elements, [step] a positive literal: at most [len]
    iterations, so [fuel = len] always suffices. *)
Fixpoint for_index {St : Type} (fuel : nat) (step len : nat)
    (body : nat -> St -> St) (i : nat) (s : St) : St :=
  match fuel with
  | O => s
  | S fuel' =>
      if (i <? len)%nat
      then for_index fuel' step len body (i + step) (body i s)
      else s
  end.

(** [a[i]] for an integer index that may be negative or out of range. *)
Definition lookupZ {A : Type} (a : list A) (i : Z) : option A :=
  if (i <? 0)%Z then None else nth_error a (Z.to_nat i).

(* ================================================================= *)
(** ** types.ts *)

Record Point : Type := mkPoint { x : num; y : num }.

Record CubicBezierCurve : Type := mkCubic {
  start : Point;
  control1 : Point;
  control2 : Point;
  end_ : Point
}.

Record QuadraticBezierCurve : Type := mkQuadratic {
  qstart : Point;
  control : Point;
  qend : Point
}.

(** [BezierCurve = CubicBezierCurve | QuadraticBezierCurve]; the source
    tells the two apart by the presence of the field [control1]. *)
Inductive BezierCurve : Type :=
| Cubic (c : CubicBezierCurve)
| Quadratic (q : QuadraticBezierCurve).

Record LUTEntry : Type := mkEntry {
  entry_t : num;
  entry_point : Point;
  entry_length : num
}.

Record PathLUT : Type := mkLUT {
  lut_entries : list LUTEntry;
  lut_totalLength : num;
  lut_resolution : num
}.

Inductive Direction : Type := forward | reverse | yoyo.

(** [EasingFunction] as the functions meet it at run time: a string, an
    array of numbers, or any other value. *)
Inductive EasingFunction : Type :=
| EasingName (name : list N)
| EasingArray (a : list num)
| EasingOther.

(* ================================================================= *)
(** ** bezier.ts *)

Local Open Scope js_scope.

Definition cubicBezierPoint (curve : CubicBezierCurve) (t : num) : Point :=
  let mt := Num 1 - t in
  {| x := mt * mt * mt * x (start curve) +
          Num 3 * mt * mt * t * x (control1 curve) +
          Num 3 * mt * t * t * x (control2 curve) +
          t * t * t * x (end_ curve);
     y := mt * mt * mt * y (start curve) +
          Num 3 * mt * mt * t * y (control1 curve) +
          Num 3 * mt * t * t * y (control2 curve) +
          t * t * t * y (end_ curve) |}.

Definition quadraticBezierPoint (curve : QuadraticBezierCurve) (t : num) : Point :=
  let mt := Num 1 - t in
  {| x := mt * mt * x (qstart curve) + Num 2 * mt * t * x (control curve)
          + t * t * x (qend curve);
     y := mt * mt * y (qstart curve) + Num 2 * mt * t * y (control curve)
          + t * t * y (qend curve) |}.

Definition bezierPoint (curve : BezierCurve) (t : num) : Point :=
  match curve with
  | Cubic c => cubicBezierPoint c t
  | Quadratic q => quadraticBezierPoint q t
  end.

(** The chord between two evaluated points, [Math.sqrt(dx * dx + dy * dy)]. *)
Definition chord (p1 p2 : Point) : num :=
  let dx := x p2 - x p1 in
  let dy := y p2 - y p1 in
  Math_sqrt (dx * dx + dy * dy).

Definition cubicBezierArcLength (fuel : nat) (curve : CubicBezierCurve)
    (samples : num) : option num :=
  let dt := Num 1 / samples in
  for_loop fuel (fun i => i <? samples)
    (fun i length =>
       let t1 := i * dt in
       let t2 := (i + Num 1) * dt in
       let p1 := cubicBezierPoint curve t1 in
       let p2 := cubicBezierPoint curve t2 in
       length + chord p1 p2)
    0 (Num 0).

Definition quadraticBezierArcLength (fuel : nat) (curve : QuadraticBezierCurve)
    (samples : num) : option num :=
  let dt := Num 1 / samples in
  for_loop fuel (fun i => i <? samples)
    (fun i length =>
       let t1 := i * dt in
       let t2 := (i + Num 1) * dt in
       let p1 := quadraticBezierPoint curve t1 in
       let p2 := quadraticBezierPoint curve t2 in
       length + chord p1 p2)
    0 (Num 0).

Definition bezierArcLength (fuel : nat) (curve : BezierCurve) (samples : num)
    : option num :=
  match curve with
  | Cubic c => cubicBezierArcLength fuel c samples
  | Quadratic q => quadraticBezierArcLength fuel q samples
  end.

(** The default value of the parameter [samples]. *)
Definition default_samples : num := Num 10.

(** The body of the sampling loop of [createBezierLUT], on the entries
    pushed so far and the running [totalLength]. *)
Definition lutStep (curve : BezierCurve) (numSamples dt : num)
    (i : num) (st : list LUTEntry * num) : list LUTEntry * num :=
  let (entries, totalLength) := st in
  let t := i * dt in
  let point := bezierPoint curve t in
  let entries' :=
    entries ++ [ {| entry_t := t; entry_point := point;
                    entry_length := totalLength |} ] in
  if i <? numSamples
  then
    let nextPoint := bezierPoint curve ((i + Num 1) * dt) in
    (entries', totalLength + chord point nextPoint)
  else (entries', totalLength).

Definition createBezierLUT (fuel : nat) (curve : BezierCurve) (resolution : num)
    : option PathLUT :=
  match bezierArcLength fuel curve default_samples with
  | None => None
  | Some arc =>
      let numSamples := Math_max (Num 10) (Math_ceil (arc * resolution)) in
      let dt := Num 1 / numSamples in
      match
        for_loop fuel (fun i => i <=? numSamples)
          (lutStep curve numSamples dt) 0 ([], Num 0)
      with
      | None => None
      | Some (entries, totalLength) =>
          Some {| lut_entries := entries; lut_totalLength := totalLength;
                  lut_resolution := resolution |}
      end
  end.

(** The binary search of [lengthToParameter]; [None] is the TypeError of
    reading [length] from a missing entry. *)
Equations bsearch (entries : list LUTEntry) (targetLength : num)
    (left_ right_ : Z) : option Z by wf (Z.to_nat (right_ - left_)) lt :=
  bsearch entries targetLength left_ right_ with Z_lt_dec left_ right_ := {
    | right _ := Some left_
    | left _ :=
        let mid := ((left_ + right_) / 2)%Z in
        match lookupZ entries mid with
        | None => None
        | Some entry =>
            if entry_length entry <? targetLength
            then bsearch entries targetLength (mid + 1) right_
            else bsearch entries targetLength left_ mid
        end }.
Next Obligation. apply Z2Nat.inj_lt; try lia; Z.div_mod_to_equations; lia. Qed.
Next Obligation. apply Z2Nat.inj_lt; try lia; Z.div_mod_to_equations; lia. Qed.

Definition lengthToParameter (lut : PathLUT) (targetLength : num) : option num :=
  if targetLength <=? Num 0 then Some (Num 0)
  else if targetLength >=? lut_totalLength lut then Some (Num 1)
  else
    match bsearch (lut_entries lut) targetLength 0
            (Z.of_nat (List.length (lut_entries lut)) - 1) with
    | None => None
    | Some left_ =>
        match lookupZ (lut_entries lut) (left_ - 1), lookupZ (lut_entries lut) left_ with
        | Some entry1, Some entry2 =>
            let lengthDiff := entry_length entry2 - entry_length entry1 in
            if lengthDiff === Num 0 then Some (entry_t entry1)
            else
              let t := (targetLength - entry_length entry1) / lengthDiff in
              Some (entry_t entry1 + t * (entry_t entry2 - entry_t entry1))
        | _, _ => Some (Num 0)
        end
    end.

Definition lerp (mt t : num) (a b : Point) : Point :=
  {| x := mt * x a + t * x b; y := mt * y a + t * y b |}.

Definition splitCubicBezier (curve : CubicBezierCurve) (t : num)
    : CubicBezierCurve * CubicBezierCurve :=
  let mt := Num 1 - t in
  let p1 := lerp mt t (start curve) (control1 curve) in
  let p2 := lerp mt t (control1 curve) (control2 curve) in
  let p3 := lerp mt t (control2 curve) (end_ curve) in
  let p4 := lerp mt t p2 p3 in
  let p5 := lerp mt t p3 (end_ curve) in
  let firstCurve :=
    {| start := start curve; control1 := p1; control2 := p4; end_ := p5 |} in
  let secondCurve :=
    {| start := p5; control1 := p3; control2 := p2; end_ := end_ curve |} in
  (firstCurve, secondCurve).

(* ================================================================= *)
(** ** Strings *)

(** The code units of a literal. *)
Definition str (s : string) : list N :=
  List.map N_of_ascii (list_ascii_of_string s).

Definition chr (c : ascii) : N := N_of_ascii c.

Fixpoint str_eqb (a b : list N) : bool :=
  match a, b with
  | [], [] => true
  | c :: a', d :: b' => N.eqb c d && str_eqb a' b'
  | _, _ => false
  end.

(** White space and line terminators: what [\s], [trim] and
    [parseFloat] skip. *)
Definition isWhiteSpace (c : N) : bool :=
  ((9 <=? c) && (c <=? 13) || (c =? 32) || (c =? 160) || (c =? 5760)
   || (8192 <=? c) && (c <=? 8202) || (c =? 8232) || (c =? 8233)
   || (c =? 8239) || (c =? 8287) || (c =? 12288) || (c =? 65279))%N.

Fixpoint trimStart (s : list N) : list N :=
  match s with
  | c :: s' => if isWhiteSpace c then trimStart s' else s
  | [] => []
  end.

Definition trim (s : list N) : list N :=
  rev (trimStart (rev (trimStart s))).

(** [c.toUpperCase()] for a one-character string holding an ASCII letter,
    the only strings the parser applies it to. *)
Definition toUpperCase (c : N) : N :=
  if ((97 <=? c) && (c <=? 122))%N then (c - 32)%N else c.

Definition isDigit (c : N) : bool := ((48 <=? c) && (c <=? 57))%N.

(** The longest run of decimal digits at the head of [s], read as a
    natural number, with their count and the rest of the string. *)
Fixpoint digits (s : list N) (acc : Z) (count : Z) : Z * Z * list N :=
  match s with
  | c :: s' =>
      if isDigit c
      then digits s' (10 * acc + Z.of_N (c - 48)) (count + 1)
      else (acc, count, s)
  | [] => (acc, count, s)
  end.

(** [m * 10 ^ e] as a real. *)
Definition decimal (m e : Z) : R :=
  if (0 <=? e)%Z then IZR (m * 10 ^ e) else (IZR m / IZR (10 ^ (- e)))%R.

Fixpoint isPrefix (p s : list N) : bool :=
  match p, s with
  | [], _ => true
  | c :: p', d :: s' => N.eqb c d && isPrefix p' s'
  | _ :: _, [] => false
  end.

(** The optional sign at the head of [s]: whether it is a minus, and the
    rest. *)
Definition sign (s : list N) : bool * list N :=
  match s with
  | c :: s' =>
      if (c =? chr "-")%N then (true, s')
      else if (c =? chr "+")%N then (false, s')
      else (false, s)
  | [] => (false, s)
  end.

(** The exponent part at the head of [s], 0 when there is none. *)
Definition exponent (s : list N) : Z :=
  match s with
  | c :: s' =>
      if ((c =? chr "e") || (c =? chr "E"))%N
      then
        let (negative, s'') := sign s' in
        let '(e, count, _) := digits s'' 0 0 in
        if (count =? 0)%Z then 0%Z else if negative then (- e)%Z else e
      else 0%Z
  | [] => 0%Z
  end.

(** The built-in [parseFloat]: the value of the longest prefix of the
    string (after leading white space) that is a decimal literal, NaN when
    there is none. *)
Definition parseFloat (s : list N) : num :=
  let (negative, s1) := sign (trimStart s) in
  if isPrefix (str "Infinity") s1 then inf_of_sign negative
  else
    let '(int, icount, s2) := digits s1 0 0 in
    let '(frac, fcount, s3) :=
      match s2 with
      | c :: s2' => if (c =? chr ".")%N then digits s2' int 0 else (int, 0%Z, s2)
      | [] => (int, 0%Z, s2)
      end in
    if ((icount =? 0) && (fcount =? 0))%Z then NaN
    else
      let v := decimal frac (exponent s3 - fcount) in
      Num (if negative then (- v)%R else v).

(** [s.split(/[\s,]+/)]: the pieces of [s] between the maximal runs of
    white space and commas. *)
Definition isSeparator (c : N) : bool := isWhiteSpace c || (c =? chr ",")%N.

Fixpoint splitSeparators (s : list N) : list (list N) :=
  match s with
  | [] => [[]]
  | c :: s' =>
      let r := splitSeparators s' in
      if isSeparator c
      then
        match s' with
        | d :: _ => if isSeparator d then r else [] :: r
        | [] => [] :: r
        end
      else
        match r with
        | piece :: r' => (c :: piece) :: r'
        | [] => [[c]]
        end
  end.

(* ================================================================= *)
(** ** easing.ts *)

Definition linear (t : num) : num := t.

Definition easeInOutCubic (t : num) : num :=
  if t <? Num (1 / 2)
  then Num 4 * t * t * t
  else Num 1 - Math_pow (- Num 2 * t + Num 2) 3 / Num 2.

(** The helper [cubicBezierPoint] of easing.ts, on scalars. *)
Definition easing_cubicBezierPoint (t p0 p1 p2 p3 : num) : num :=
  let mt := Num 1 - t in
  mt * mt * mt * p0 +
  Num 3 * mt * mt * t * p1 +
  Num 3 * mt * t * t * p2 +
  t * t * t * p3.

Definition epsilon : num := Num (1 / 1000000).

(** The bisection loop of [cubicBezier]; [None] when it has not left
    within [fuel] iterations. *)
Fixpoint bisect (fuel : nat) (t p1x p2x : num) (left_ right_ : num) : option num :=
  match fuel with
  | O => None
  | S fuel' =>
      if right_ - left_ >? epsilon
      then
        let mid := (left_ + right_) / Num 2 in
        let x := easing_cubicBezierPoint mid (Num 0) p1x p2x (Num 1) in
        if x <? t
        then bisect fuel' t p1x p2x mid right_
        else bisect fuel' t p1x p2x left_ mid
      else Some left_
  end.

Definition cubicBezier (fuel : nat) (t p1x p1y p2x p2y : num) : option num :=
  match bisect fuel t p1x p2x (Num 0) (Num 1) with
  | None => None
  | Some left_ => Some (easing_cubicBezierPoint left_ (Num 0) p1y p2y (Num 1))
  end.

Definition applyEasing (fuel : nat) (t : num) (easing : EasingFunction)
    : option num :=
  match easing with
  | EasingName name =>
      if str_eqb name (str "linear") then Some (linear t)
      else if str_eqb name (str "easeInOutCubic") then Some (easeInOutCubic t)
      else Some (linear t)
  | EasingArray [e0; e1; e2; e3] => cubicBezier fuel t e0 e1 e2 e3
  | _ => Some (linear t)
  end.

(** The table [easings] of predefined easing functions, by key. *)
Definition easings : list (list N * (num -> num)) :=
  [ (str "linear", linear);
    (str "easeInOutCubic", easeInOutCubic);
    (str "easeIn", fun t => t * t * t);
    (str "easeOut", fun t => Num 1 - Math_pow (Num 1 - t) 3);
    (str "easeInOut",
      fun t => if t <? Num (1 / 2)
               then Num 4 * t * t * t
               else Num 1 - Math_pow (- Num 2 * t + Num 2) 3 / Num 2);
    (str "easeInQuad", fun t => t * t);
    (str "easeOutQuad", fun t => Num 1 - (Num 1 - t) * (Num 1 - t));
    (str "easeInOutQuad",
      fun t => if t <? Num (1 / 2)
               then Num 2 * t * t
               else Num 1 - Math_pow (- Num 2 * t + Num 2) 2 / Num 2) ].

(* ================================================================= *)
(** ** timeline.ts *)

Record TraceOptions : Type := mkOptions {
  durationMs : num;
  opt_loop : option bool;
  opt_direction : option Direction
}.

Record TimelineState : Type := mkTimeline {
  startTime : num;
  currentTime : num;
  duration : num;
  loop : bool;
  direction : Direction;
  isPlaying : bool;
  isComplete : bool;
  loopCount : num
}.

Definition createTimeline (options : TraceOptions) : TimelineState :=
  {| startTime := Num 0;
     currentTime := Num 0;
     duration := durationMs options;
     loop := match opt_loop options with Some b => b | None => false end;
     direction := match opt_direction options with Some d => d | None => forward end;
     isPlaying := false;
     isComplete := false;
     loopCount := Num 0 |}.

Definition startTimeline (timeline : TimelineState) (startTime' : num)
    : TimelineState :=
  {| startTime := startTime';
     currentTime := startTime';
     duration := duration timeline;
     loop := loop timeline;
     direction := direction timeline;
     isPlaying := true;
     isComplete := false;
     loopCount := loopCount timeline |}.

Definition stopTimeline (timeline : TimelineState) : TimelineState :=
  {| startTime := startTime timeline;
     currentTime := currentTime timeline;
     duration := duration timeline;
     loop := loop timeline;
     direction := direction timeline;
     isPlaying := false;
     isComplete := isComplete timeline;
     loopCount := loopCount timeline |}.

Definition resetTimeline (timeline : TimelineState) : TimelineState :=
  {| startTime := startTime timeline;
     currentTime := startTime timeline;
     duration := duration timeline;
     loop := loop timeline;
     direction := direction timeline;
     isPlaying := isPlaying timeline;
     isComplete := false;
     loopCount := Num 0 |}.

(** The direction switch shared by [updateTimeline] and
    [getTimelineProgress]. *)
Definition applyDirection (d : Direction) (progress : num) : num :=
  match d with
  | reverse => Num 1 - progress
  | yoyo =>
      let cycle := Math_floor (progress * Num 2) in
      if (num_rem cycle (Num 2)) === Num 0
      then progress * Num 2
      else Num 2 - progress * Num 2
  | forward => progress
  end.

(** [updateTimeline] computes a progress value and drops it; what it
    returns depends on [isComplete] and [loopCount] only. *)
Definition updateTimeline (timeline : TimelineState) (currentTime' : num)
    : TimelineState :=
  if negb (isPlaying timeline) then timeline
  else
    let elapsed := currentTime' - startTime timeline in
    let totalDuration := duration timeline in
    let '(isComplete', loopCount') :=
      if loop timeline
      then
        let cycleDuration := totalDuration in
        (false, Math_floor (elapsed / cycleDuration))
      else
        if elapsed >=? totalDuration
        then (true, loopCount timeline)
        else (false, loopCount timeline) in
    {| startTime := startTime timeline;
       currentTime := currentTime';
       duration := duration timeline;
       loop := loop timeline;
       direction := direction timeline;
       isPlaying := isPlaying timeline;
       isComplete := isComplete';
       loopCount := loopCount' |}.

(** Truthiness of the optional [easing] argument: the empty string is
    falsy, as is a missing argument. *)
Definition truthy (easing : option EasingFunction) : option EasingFunction :=
  match easing with
  | Some (EasingName []) => None
  | _ => easing
  end.

Definition getTimelineProgress (fuel : nat) (timeline : TimelineState)
    (easing : option EasingFunction) : option num :=
  if negb (isPlaying timeline) then Some (Num 0)
  else
    let elapsed := currentTime timeline - startTime timeline in
    let totalDuration := duration timeline in
    let progress :=
      if loop timeline
      then
        let cycleTime := num_rem elapsed totalDuration in
        cycleTime / totalDuration
      else Math_min (elapsed / totalDuration) (Num 1) in
    let progress := applyDirection (direction timeline) progress in
    let eased :=
      match truthy easing with
      | Some e => applyEasing fuel progress e
      | None => Some progress
      end in
    match eased with
    | Some progress => Some (Math_max (Num 0) (Math_min (Num 1) progress))
    | None => None
    end.

Definition isAtStart (timeline : TimelineState) : bool :=
  let elapsed := currentTime timeline - startTime timeline in
  elapsed <=? Num 0.

Definition isAtEnd (timeline : TimelineState) : bool :=
  if loop timeline then false
  else
    let elapsed := currentTime timeline - startTime timeline in
    elapsed >=? duration timeline.

Definition getRemainingTime (timeline : TimelineState) : num :=
  if loop timeline then PInf
  else
    let elapsed := currentTime timeline - startTime timeline in
    Math_max (Num 0) (duration timeline - elapsed).

(* ================================================================= *)
(** ** The SVG path parser *)

Inductive SegmentType : Type := SegM | SegL | SegC | SegQ | SegZ.

Record PathSegment : Type := mkSegment {
  type : SegmentType;
  points : list Point;
  curve : option BezierCurve
}.

Record Bounds : Type := mkBounds {
  minX : num;
  minY : num;
  maxX : num;
  maxY : num
}.

Record PathData : Type := mkPathData {
  segments : list PathSegment;
  totalLength : num;
  bounds : Bounds
}.

Record Command : Type := mkCommand {
  cmd_type : N;
  args : list num
}.

Definition isCommandLetter (c : N) : bool :=
  existsb (N.eqb c) (str "MLHVCSQTAZmlhvcsqtaz").

(** The successive matches of the tokenizer's global regular expression,
    a command letter followed by the longest run of characters that are
    not command letters: every command letter with the text up to the
    next one.  The first component is the text before the first match. *)
Fixpoint regexMatches (s : list N) : list N * list (N * list N) :=
  match s with
  | [] => ([], [])
  | c :: s' =>
      let (pre, ms) := regexMatches s' in
      if isCommandLetter c then ([], (c, pre) :: ms) else (c :: pre, ms)
  end.

(** The callback mapped over the argument tokens:
    [arg => { const num = parseFloat(arg); return isNaN(num) ? 0 : num; }]. *)
Definition parseArg (arg : list N) : num :=
  let n := parseFloat arg in
  if isNaN n then Num 0 else n.

Definition tokenizePath (pathString : list N) : list Command :=
  flat_map
    (fun m : N * list N =>
       let (type, rest) := m in
       let argsString := trim rest in
       match argsString with
       | _ :: _ =>
           let args := List.map parseArg (splitSeparators argsString) in
           [ {| cmd_type := type; args := args |} ]
       | [] =>
           if (toUpperCase type =? chr "Z")%N
           then [ {| cmd_type := type; args := [] |} ]
           else []
       end)
    (snd (regexMatches pathString)).

(** [args[i]]; a missing argument is [undefined], which every use in the
    parser and its consumers converts to NaN. *)
Definition arg (args : list num) (i : nat) : num := nth i args NaN.

(** The parser state: the segments pushed so far, [currentPoint] and
    [lastControlPoint]. *)
Record ParseState : Type := mkState {
  st_segments : list PathSegment;
  st_currentPoint : Point;
  st_lastControlPoint : option Point
}.

Definition offset (relative : bool) (currentPoint : Point) (px py : num) : Point :=
  if relative
  then {| x := x currentPoint + px; y := y currentPoint + py |}
  else {| x := px; y := py |}.

Definition reflect (currentPoint : Point) (lastControlPoint : option Point) : Point :=
  match lastControlPoint with
  | Some l => {| x := Num 2 * x currentPoint - x l;
                 y := Num 2 * y currentPoint - y l |}
  | None => currentPoint
  end.

Definition push (st : ParseState) (seg : PathSegment) (p : Point)
    (l : option Point) : ParseState :=
  {| st_segments := st_segments st ++ [seg];
     st_currentPoint := p;
     st_lastControlPoint := l |}.

Definition parseCommand (st : ParseState) (command : Command) : ParseState :=
  let type := cmd_type command in
  let args := args command in
  let upperType := toUpperCase type in
  let relative := negb (type =? upperType)%N in
  let n := List.length args in
  if (upperType =? chr "M")%N then
    for_index n 2 n (fun i st =>
      let point := offset relative (st_currentPoint st) (arg args i) (arg args (i + 1)) in
      push st {| type := if (i =? 0)%nat then SegM else SegL;
                 points := [point]; curve := None |} point None) 0%nat st
  else if (upperType =? chr "L")%N then
    for_index n 2 n (fun i st =>
      let point := offset relative (st_currentPoint st) (arg args i) (arg args (i + 1)) in
      push st {| type := SegL; points := [point]; curve := None |} point None) 0%nat st
  else if (upperType =? chr "H")%N then
    for_index n 1 n (fun i st =>
      let cur := st_currentPoint st in
      let point := if relative then {| x := x cur + arg args i; y := y cur |}
                   else {| x := arg args i; y := y cur |} in
      push st {| type := SegL; points := [point]; curve := None |} point None) 0%nat st
  else if (upperType =? chr "V")%N then
    for_index n 1 n (fun i st =>
      let cur := st_currentPoint st in
      let point := if relative then {| x := x cur; y := y cur + arg args i |}
                   else {| x := x cur; y := arg args i |} in
      push st {| type := SegL; points := [point]; curve := None |} point None) 0%nat st
  else if (upperType =? chr "C")%N then
    for_index n 6 n (fun i st =>
      let cur := st_currentPoint st in
      let control1 := offset relative cur (arg args i) (arg args (i + 1)) in
      let control2 := offset relative cur (arg args (i + 2)) (arg args (i + 3)) in
      let end_ := offset relative cur (arg args (i + 4)) (arg args (i + 5)) in
      let curve := {| start := cur; control1 := control1;
                      control2 := control2; end_ := end_ |} in
      push st {| type := SegC; points := [end_]; curve := Some (Cubic curve) |}
           end_ (Some control2)) 0%nat st
  else if (upperType =? chr "S")%N then
    for_index n 4 n (fun i st =>
      let cur := st_currentPoint st in
      let control1 := reflect cur (st_lastControlPoint st) in
      let control2 := offset relative cur (arg args i) (arg args (i + 1)) in
      let end_ := offset relative cur (arg args (i + 2)) (arg args (i + 3)) in
      let curve := {| start := cur; control1 := control1;
                      control2 := control2; end_ := end_ |} in
      push st {| type := SegC; points := [end_]; curve := Some (Cubic curve) |}
           end_ (Some control2)) 0%nat st
  else if (upperType =? chr "Q")%N then
    for_index n 4 n (fun i st =>
      let cur := st_currentPoint st in
      let control := offset relative cur (arg args i) (arg args (i + 1)) in
      let end_ := offset relative cur (arg args (i + 2)) (arg args (i + 3)) in
      let curve := {| qstart := cur; control := control; qend := end_ |} in
      push st {| type := SegQ; points := [end_]; curve := Some (Quadratic curve) |}
           end_ (Some control)) 0%nat st
  else if (upperType =? chr "T")%N then
    for_index n 2 n (fun i st =>
      let cur := st_currentPoint st in
      let control := reflect cur (st_lastControlPoint st) in
      let end_ := offset relative cur (arg args i) (arg args (i + 1)) in
      let curve := {| qstart := cur; control := control; qend := end_ |} in
      push st {| type := SegQ; points := [end_]; curve := Some (Quadratic curve) |}
           end_ (Some control)) 0%nat st
  else if (upperType =? chr "A")%N then
    for_index n 7 n (fun i st =>
      let end_ := offset relative (st_currentPoint st)
                    (arg args (i + 5)) (arg args (i + 6)) in
      push st {| type := SegL; points := [end_]; curve := None |} end_ None) 0%nat st
  else if (upperType =? chr "Z")%N then
    push st {| type := SegZ; points := []; curve := None |} (st_currentPoint st) None
  else st.

Definition parsePathData (pathString : list N) : list PathSegment :=
  let commands := tokenizePath pathString in
  st_segments
    (fold_left parseCommand commands
       {| st_segments := [];
          st_currentPoint := {| x := Num 0; y := Num 0 |};
          st_lastControlPoint := None |}).

(** [None] is the TypeError of reading [x] from the missing field
    [control] of a curve that is not quadratic. *)
Fixpoint normalizeToCubicBeziers (segments : list PathSegment)
    : option (list PathSegment) :=
  match segments with
  | [] => Some []
  | segment :: rest =>
      let normalized :=
        match type segment, curve segment with
        | SegQ, Some (Quadratic quad) =>
            let cubic :=
              {| start := qstart quad;
                 control1 :=
                   {| x := x (qstart quad) +
                           (Num 2 / Num 3) * (x (control quad) - x (qstart quad));
                      y := y (qstart quad) +
                           (Num 2 / Num 3) * (y (control quad) - y (qstart quad)) |};
                 control2 :=
                   {| x := x (qend quad) +
                           (Num 2 / Num 3) * (x (control quad) - x (qend quad));
                      y := y (qend quad) +
                           (Num 2 / Num 3) * (y (control quad) - y (qend quad)) |};
                 end_ := qend quad |} in
            Some {| type := SegC; points := [qend quad];
                    curve := Some (Cubic cubic) |}
        | SegQ, Some (Cubic _) => None
        | _, _ => Some segment
        end in
      match normalized, normalizeToCubicBeziers rest with
      | Some s, Some r => Some (s :: r)
      | _, _ => None
      end
  end.

Definition boundsStep (b : Bounds) (segment : PathSegment) : Bounds :=
  let b :=
    fold_left
      (fun (b : Bounds) (point : Point) =>
         {| minX := Math_min (minX b) (x point);
            minY := Math_min (minY b) (y point);
            maxX := Math_max (maxX b) (x point);
            maxY := Math_max (maxY b) (y point) |})
      (points segment) b in
  match curve segment with
  | Some (Cubic c) =>
      {| minX := Math_min (Math_min (minX b) (x (control1 c))) (x (control2 c));
         minY := Math_min (Math_min (minY b) (y (control1 c))) (y (control2 c));
         maxX := Math_max (Math_max (maxX b) (x (control1 c))) (x (control2 c));
         maxY := Math_max (Math_max (maxY b) (y (control1 c))) (y (control2 c)) |}
  | Some (Quadratic q) =>
      {| minX := Math_min (minX b) (x (control q));
         minY := Math_min (minY b) (y (control q));
         maxX := Math_max (maxX b) (x (control q));
         maxY := Math_max (maxY b) (y (control q)) |}
  | None => b
  end.

Definition calculatePathBounds (segments : list PathSegment) : Bounds :=
  let b :=
    fold_left boundsStep segments
      {| minX := PInf; minY := PInf; maxX := NInf; maxY := NInf |} in
  {| minX := if minX b === PInf then Num 0 else minX b;
     minY := if minY b === PInf then Num 0 else minY b;
     maxX := if maxX b === NInf then Num 0 else maxX b;
     maxY := if maxY b === NInf then Num 0 else maxY b |}.

(** One step of the length loop of [createPathData]: the running total
    and the last anchor point seen. *)
Definition lengthStep (st : num * option Point) (segment : PathSegment)
    : num * option Point :=
  let (totalLength, currentPoint) := st in
  match points segment with
  | point :: _ =>
      match currentPoint with
      | Some cur => (totalLength + chord cur point, Some point)
      | None => (totalLength, Some point)
      end
  | [] => st
  end.

Definition createPathData (pathString : list N) : option PathData :=
  let segments := parsePathData pathString in
  match normalizeToCubicBeziers segments with
  | None => None
  | Some normalizedSegments =>
      let bounds := calculatePathBounds normalizedSegments in
      let totalLength :=
        fst (fold_left lengthStep normalizedSegments (Num 0, None)) in
      Some {| segments := normalizedSegments;
              totalLength := totalLength;
              bounds := bounds |}
  end.

(* ================================================================= *)
(** ** Terminal colours and Braille cells *)

(** [Math.round]: the nearest integer, halves upwards. *)
Definition Math_round (a : num) : num :=
  match a with Num r => Num (IZR (Rfloor (r + 1 / 2))) | _ => a end.

Definition rgbToAnsi256 (r g b : num) : num :=
  if (r === g) && (g === b)
  then
    if r <? Num 8 then Num 16
    else if r >? Num 248 then Num 231
    else Math_round (((r - Num 8) / Num 247) * Num 24) + Num 232
  else
    let r6 := Math_round (r / Num 255 * Num 5) in
    let g6 := Math_round (g / Num 255 * Num 5) in
    let b6 := Math_round (b / Num 255 * Num 5) in
    Num 16 + (Num 36 * r6) + (Num 6 * g6) + b6.

(** [String.fromCharCode(0x2800 + pattern)] for an integer pattern: one
    code unit, taken modulo 2^16. *)
Definition brailleChar (pattern : Z) : list N :=
  [Z.to_N ((10240 + pattern) mod 65536)].

Definition dotMapping : list (nat * nat) :=
  [(0, 0); (1, 0); (0, 1); (0, 2); (1, 2); (0, 3); (1, 1); (1, 3)]%nat.

(** [pixels[x][y]] read as a condition: a missing element is falsy. *)
Definition pixelAt (pixels : list (list bool)) (px py : nat) : bool :=
  nth py (nth px pixels []) false.

(** [None] is the error thrown for a grid that is not 2 by 4. *)
Definition pixelsToBraille (pixels : list (list bool)) : option Z :=
  if negb (List.length pixels =? 2)%nat
     || negb (List.length (nth 0 pixels []) =? 4)%nat
  then None
  else
    Some
      (for_index 8 1 8
         (fun dot pattern =>
            let (px, py) := nth dot dotMapping (0, 0)%nat in
            if pixelAt pixels px py
            then Z.lor pattern (Z.shiftl 1 (Z.of_nat dot))
            else pattern)
         0%nat 0%Z).

(* ================================================================= *)
(** ** The chord sum in binary64 *)

(** [quadraticBezierPoint] and [quadraticBezierArcLength] once more, on
    IEEE 754 doubles with every operation rounded to nearest, as the
    code runs them. *)
Module Doubles.
Import Floats.
Local Open Scope float_scope.

Record Point : Type := mkPoint { x : float; y : float }.

Record QuadraticBezierCurve : Type := mkQuadratic {
  qstart : Point;
  control : Point;
  qend : Point
}.

Definition quadraticBezierPoint (curve : QuadraticBezierCurve) (t : float) : Point :=
  let mt := 1 - t in
  {| x := mt * mt * x (qstart curve) + 2 * mt * t * x (control curve)
          + t * t * x (qend curve);
     y := mt * mt * y (qstart curve) + 2 * mt * t * y (control curve)
          + t * t * y (qend curve) |}.

(** The loop [for (let i = 0; i < samples; i++)] with its accumulator
    [length]; [None] when [fuel] iterations do not end it. *)
Fixpoint arcLength_loop (fuel : nat) (curve : QuadraticBezierCurve)
    (samples dt i length : float) : option float :=
  if i <? samples
  then
    match fuel with
    | O => None
    | S fuel' =>
        let t1 := i * dt in
        let t2 := (i + 1) * dt in
        let p1 := quadraticBezierPoint curve t1 in
        let p2 := quadraticBezierPoint curve t2 in
        let dx := x p2 - x p1 in
        let dy := y p2 - y p1 in
        arcLength_loop fuel' curve samples dt (i + 1)
          (length + sqrt (dx * dx + dy * dy))
    end
  else Some length.

Definition quadraticBezierArcLength (fuel : nat) (curve : QuadraticBezierCurve)
    (samples : float) : option float :=
  arcLength_loop fuel curve samples (1 / samples) 0 0.

(** The straight quadratic from (0,0) to (1,1) with its control point on
    the start. *)
Definition diagonal : QuadraticBezierCurve :=
  mkQuadratic (mkPoint 0 0) (mkPoint 0 0) (mkPoint 1 1).

Definition one : float := 1.
Definition two : float := 2.

(** The two doubles next to the square root of 2:
    1.4142135623730951 and 1.4142135623730949. *)
Definition sqrt2_above : float := 0x1.6a09e667f3bcdp+0.
Definition sqrt2_below : float := 0x1.6a09e667f3bccp+0.

Definition lt (a b : float) : bool := a <? b.

End Doubles.

(* ================================================================= *)
(** ** Vocabulary of the properties *)

(** Well-formed input: finite coordinates. *)
Definition finite (a : num) : Prop :=
  match a with Num _ => True | _ => False end.

Definition finitePoint (p : Point) : Prop := finite (x p) /\ finite (y p).

Definition finiteCubic (c : CubicBezierCurve) : Prop :=
  finitePoint (start c) /\ finitePoint (control1 c)
  /\ finitePoint (control2 c) /\ finitePoint (end_ c).

Definition finiteQuadratic (q : QuadraticBezierCurve) : Prop :=
  finitePoint (qstart q) /\ finitePoint (control q) /\ finitePoint (qend q).

Definition finiteCurve (c : BezierCurve) : Prop :=
  match c with
  | Cubic c => finiteCubic c
  | Quadratic q => finiteQuadratic q
  end.

Definition pt (a b : R) : Point := {| x := Num a; y := Num b |}.

Definition curveStart (c : BezierCurve) : Point :=
  match c with Cubic c => start c | Quadratic q => qstart q end.

Definition curveEnd (c : BezierCurve) : Point :=
  match c with Cubic c => end_ c | Quadratic q => qend q end.

(** The real polynomials behind the two evaluation functions. *)
Definition cubicPoly (p0 p1 p2 p3 t : R) : R :=
  ((1 - t) * (1 - t) * (1 - t) * p0 + 3 * (1 - t) * (1 - t) * t * p1
   + 3 * (1 - t) * t * t * p2 + t * t * t * p3)%R.

Definition quadraticPoly (p0 p1 p2 t : R) : R :=
  ((1 - t) * (1 - t) * p0 + 2 * (1 - t) * t * p1 + t * t * p2)%R.

(** The curve that runs along the x axis from 0 to 1 with both control
    points at the origin: [x(t) = t^3]. *)
Definition cube_curve : CubicBezierCurve :=
  mkCubic (pt 0 0) (pt 0 0) (pt 0 0) (pt 1 0).

(** The quadratic that leaves the origin towards (0,1) and comes back:
    [y(t) = 2 t (1 - t)]. *)
Definition spike : QuadraticBezierCurve :=
  mkQuadratic (pt 0 0) (pt 0 1) (pt 0 0).

(** The curve whose four control points are the origin: a single point,
    of length zero. *)
Definition point_curve : CubicBezierCurve :=
  mkCubic (pt 0 0) (pt 0 0) (pt 0 0) (pt 0 0).

(** [sumR f n] is the sum of [f 0], ..., [f (n - 1)]. *)
Fixpoint sumR (f : nat -> R) (n : nat) : R :=
  match n with
  | O => 0%R
  | S n' => (sumR f n' + f n')%R
  end.

(** The length of the chord of the plane curve [(X, Y)] from the point
    at [t1] to the point at [t2]. *)
Definition seglen (X Y : R -> R) (t1 t2 : R) : R :=
  sqrt ((X t2 - X t1) * (X t2 - X t1) + (Y t2 - Y t1) * (Y t2 - Y t1)).

(** The chord sum of [(X, Y)] over [n] uniform steps, with the sample
    parameters computed as the source does: [i * dt] and [(i + 1) * dt]
    for [dt = 1 / n]. *)
Definition polyline (X Y : R -> R) (n : nat) : R :=
  sumR (fun i => seglen X Y (INR i * (1 / INR n)) ((INR i + 1) * (1 / INR n))) n.

(** The control points of a curve, end points included. *)
Definition controlPoints (c : BezierCurve) : list Point :=
  match c with
  | Cubic c => [start c; control1 c; control2 c; end_ c]
  | Quadratic q => [qstart q; control q; qend q]
  end.

(** A finite point inside the box [xlo, xhi] x [ylo, yhi]. *)
Definition inBox (xlo xhi ylo yhi : R) (p : Point) : Prop :=
  exists a b : R, p = pt a b /\ (xlo <= a <= xhi)%R /\ (ylo <= b <= yhi)%R.

(** The real behind a finite number. *)
Definition real (a : num) : R :=
  match a with Num r => r | _ => 0%R end.

(** The coordinate functions of a well-formed curve. *)
Definition curveX (c : BezierCurve) (t : R) : R :=
  match c with
  | Cubic c =>
      cubicPoly (real (x (start c))) (real (x (control1 c)))
        (real (x (control2 c))) (real (x (end_ c))) t
  | Quadratic q =>
      quadraticPoly (real (x (qstart q))) (real (x (control q)))
        (real (x (qend q))) t
  end.

Definition curveY (c : BezierCurve) (t : R) : R :=
  match c with
  | Cubic c =>
      cubicPoly (real (y (start c))) (real (y (control1 c)))
        (real (y (control2 c))) (real (y (end_ c))) t
  | Quadratic q =>
      quadraticPoly (real (y (qstart q))) (real (y (control q)))
        (real (y (qend q))) t
  end.

(** The number of sampling steps [createBezierLUT] takes on a
    well-formed curve at a finite resolution:
    [max(10, ceil(arcLength * resolution))]. *)
Definition lutSamples (curve : BezierCurve) (resolution : R) : nat :=
  Z.to_nat
    (Z.max 10 (Rceil (polyline (curveX curve) (curveY curve) 10 * resolution))).

(** The chord sum of the first [i] of [n] uniform steps. *)
Definition lutLength (curve : BezierCurve) (n i : nat) : R :=
  sumR (fun j => seglen (curveX curve) (curveY curve)
                   (INR j * (1 / INR n)) ((INR j + 1) * (1 / INR n))) i.

(** The [i]-th entry of the table over [n] steps. *)
Definition lutEntry (curve : BezierCurve) (n i : nat) : LUTEntry :=
  {| entry_t := Num (INR i * (1 / INR n));
     entry_point := pt (curveX curve (INR i * (1 / INR n)))
                       (curveY curve (INR i * (1 / INR n)));
     entry_length := Num (lutLength curve n i) |}.

(** The shape of a segment as the parser pushes it. *)
Definition parsedShape (seg : PathSegment) : Prop :=
  match type seg with
  | SegM | SegL => (exists p, points seg = [p]) /\ curve seg = None
  | SegC => exists c, curve seg = Some (Cubic c) /\ points seg = [end_ c]
  | SegQ => exists q, curve seg = Some (Quadratic q) /\ points seg = [qend q]
  | SegZ => points seg = [] /\ curve seg = None
  end.

(** The shape of a segment after normalization: no quadratic is left. *)
Definition normalizedShape (seg : PathSegment) : Prop :=
  match type seg with
  | SegM | SegL => (exists p, points seg = [p]) /\ curve seg = None
  | SegC => exists c, curve seg = Some (Cubic c) /\ points seg = [end_ c]
  | SegQ => False
  | SegZ => points seg = [] /\ curve seg = None
  end.

(** The anchor a segment leaves behind: its first point, or the anchor
    before it when it has none. *)
Definition anchorOf (cur : Point) (seg : PathSegment) : Point :=
  match points seg with
  | p :: _ => p
  | [] => cur
  end.

Definition anchorAfter (cur : Point) (segs : list PathSegment) : Point :=
  fold_left anchorOf segs cur.

(** Every curve of the sequence starts at the anchor left by the
    segments before it, [cur] being the anchor before the first. *)
Fixpoint continuous (cur : Point) (segs : list PathSegment) : Prop :=
  match segs with
  | [] => True
  | seg :: rest =>
      match curve seg with
      | Some c => curveStart c = cur
      | None => True
      end
      /\ continuous (anchorOf cur seg) rest
  end.

(** What the parser keeps true of its state: the segments pushed have
    the parser's shapes, every curve starts at the anchor before it, and
    [currentPoint] is the last anchor (the origin when there is none). *)
Definition parsedState (st : ParseState) : Prop :=
  Forall parsedShape (st_segments st)
  /\ continuous (pt 0 0) (st_segments st)
  /\ st_currentPoint st = anchorAfter (pt 0 0) (st_segments st).

(** The points [calculatePathBounds] looks at in a segment: its points
    and the inner control points of its curve. *)
Definition boundedPoints (seg : PathSegment) : list Point :=
  points seg ++
  match curve seg with
  | Some (Cubic c) => [control1 c; control2 c]
  | Some (Quadratic q) => [control q]
  | None => []
  end.

(** One point taken into a bounding box. *)
Definition extendBounds (b : Bounds) (p : Point) : Bounds :=
  {| minX := Math_min (minX b) (x p);
     minY := Math_min (minY b) (y p);
     maxX := Math_max (maxX b) (x p);
     maxY := Math_max (maxY b) (y p) |}.

(** The anchors of a segment sequence, in order. *)
Definition anchors (segs : list PathSegment) : list Point :=
  flat_map (fun seg => match points seg with p :: _ => [p] | [] => [] end) segs.

(** An easing specification whose numbers, if it is an array, are
    finite. *)
Definition finiteEasing (easing : option EasingFunction) : Prop :=
  match easing with
  | Some (EasingArray a) => Forall finite a
  | _ => True
  end.

(** What [normalizeToCubicBeziers] needs of a segment: one tagged Q does
    not carry a cubic curve. *)
Definition goodSegment (seg : PathSegment) : Prop :=
  match type seg, curve seg with
  | SegQ, Some (Cubic _) => False
  | _, _ => True
  end.

Definition goodState (st : ParseState) : Prop :=
  Forall goodSegment (st_segments st).

Definition emptyPath : PathData :=
  {| segments := [];
     totalLength := Num 0;
     bounds := mkBounds (Num 0) (Num 0) (Num 0) (Num 0) |}.

(* ================================================================= *)
(** * Properties *)

(** ** Numbers *)

Lemma Rltb_true (a b : R) : (a < b)%R -> Rltb a b = true.
Proof. intros H; unfold Rltb; destruct (Rlt_dec a b); [reflexivity | contradiction]. Qed.

Lemma Rltb_false (a b : R) : (b <= a)%R -> Rltb a b = false.
Proof. intros H; unfold Rltb; destruct (Rlt_dec a b); [lra | reflexivity]. Qed.

Lemma Rleb_true (a b : R) : (a <= b)%R -> Rleb a b = true.
Proof. intros H; unfold Rleb; destruct (Rle_dec a b); [reflexivity | contradiction]. Qed.

Lemma Rleb_false (a b : R) : (b < a)%R -> Rleb a b = false.
Proof. intros H; unfold Rleb; destruct (Rle_dec a b); [lra | reflexivity]. Qed.

Lemma Reqb_true (a b : R) : a = b -> Reqb a b = true.
Proof. intros H; unfold Reqb; destruct (Req_dec_T a b); [reflexivity | contradiction]. Qed.

Lemma Reqb_false (a b : R) : a <> b -> Reqb a b = false.
Proof. intros H; unfold Reqb; destruct (Req_dec_T a b); [contradiction | reflexivity]. Qed.

Lemma num_div_Num (r s : R) : s <> 0%R -> Num r / Num s = Num (r / s).
Proof. intros H; simpl; now rewrite Reqb_false. Qed.

Lemma Num_eq (r s : R) : r = s -> Num r = Num s.
Proof. now intros ->. Qed.

Lemma Math_min_Num (a b : R) : Math_min (Num a) (Num b) = Num (Rmin a b).
Proof.
  simpl; unfold Rleb, Rmin; destruct (Rle_dec a b); reflexivity.
Qed.

Lemma Math_max_Num (a b : R) : Math_max (Num a) (Num b) = Num (Rmax a b).
Proof.
  simpl; unfold Rleb, Rmax; destruct (Rle_dec a b); reflexivity.
Qed.

Lemma Rfloor_IZR (k : Z) : Rfloor (IZR k) = k.
Proof. unfold Rfloor; symmetry; apply Int_part_spec; lra. Qed.

Lemma Rceil_IZR (k : Z) : Rceil (IZR k) = k.
Proof.
  unfold Rceil; rewrite <- opp_IZR.
  change (Int_part (IZR (- k))) with (Rfloor (IZR (- k))).
  rewrite Rfloor_IZR; lia.
Qed.

Lemma Rtrunc_IZR (k : Z) : Rtrunc (IZR k) = k.
Proof. unfold Rtrunc; destruct (Rltb _ _); [apply Rceil_IZR | apply Rfloor_IZR]. Qed.

(** On a finite dividend and a non-zero finite divisor that divides it
    exactly, the remainder is zero. *)
Lemma num_rem_multiple (k : Z) (d : R) :
  d <> 0%R -> num_rem (Num (IZR k * d)) (Num d) = Num 0.
Proof.
  intros Hd; simpl; rewrite Reqb_false by assumption.
  replace (IZR k * d / d)%R with (IZR k) by (field; assumption).
  rewrite Rtrunc_IZR; apply Num_eq; ring.
Qed.

Lemma str_eqb_eq (a b : list N) : str_eqb a b = true <-> a = b.
Proof.
  revert b; induction a as [|c a IH]; intros [|d b]; simpl; split;
    try congruence; try discriminate.
  - intros H; apply andb_true_iff in H as [H1 H2].
    apply N.eqb_eq in H1; apply IH in H2; congruence.
  - intros [= -> ->]; rewrite N.eqb_refl; simpl; now apply IH.
Qed.

Lemma str_eqb_neq (a b : list N) : a <> b -> str_eqb a b = false.
Proof.
  intros H; destruct (str_eqb a b) eqn:E; [|reflexivity].
  apply str_eqb_eq in E; contradiction.
Qed.

(** ** Easing *)

(** The bisection of [cubicBezier] halves an interval of width 1 until it
    is no wider than [epsilon]: exactly 20 halvings, whatever the control
    parameters and the input. *)
Lemma bisect_total (n : nat) :
  forall fuel t p1x p2x l r,
    (n <= 20)%nat -> (r - l = / 2 ^ (20 - n))%R -> (n < fuel)%nat ->
    exists v, bisect fuel t p1x p2x (Num l) (Num r) = Some v.
Proof.
  induction n as [|n IH]; intros fuel t p1x p2x l r Hn Hw Hfuel;
    (destruct fuel as [|fuel]; [lia|]); cbn [bisect].
  - assert (Hle : (r - l <= 1 / 1000000)%R).
    { rewrite Hw. replace (2 ^ (20 - 0))%R with 1048576%R by (simpl; lra). lra. }
    unfold num_gt, epsilon; cbn [num_sub num_lt].
    rewrite Rltb_false by exact Hle. eauto.
  - assert (Hpow : (2 ^ (20 - S n) <= 2 ^ 19)%R) by (apply Rle_pow; [lra | lia]).
    assert (Hpos : (0 < 2 ^ (20 - S n))%R) by (apply pow_lt; lra).
    assert (Hgt : (1 / 1000000 < r - l)%R).
    { rewrite Hw.
      apply Rlt_le_trans with (/ 2 ^ 19)%R;
        [replace (2 ^ 19)%R with 524288%R by (simpl; lra); lra|].
      apply Rinv_le_contravar; assumption. }
    unfold num_gt, epsilon; cbn [num_sub num_lt].
    rewrite Rltb_true by exact Hgt.
    cbn [num_add]. rewrite num_div_Num by lra.
    assert (Hhalf : (/ 2 ^ (20 - n) = / 2 ^ (20 - S n) / 2)%R).
    { replace (20 - n)%nat with (S (20 - S n)) by lia.
      rewrite <- tech_pow_Rmult; field; lra. }
    destruct (num_lt _ t); apply IH; try lia; rewrite Hhalf, <- Hw; field.
Qed.

Lemma cubicBezier_total (fuel : nat) (t p1x p1y p2x p2y : num) :
  (21 <= fuel)%nat -> exists v, cubicBezier fuel t p1x p1y p2x p2y = Some v.
Proof.
  intros Hfuel; unfold cubicBezier.
  destruct (@bisect_total 20 fuel t p1x p2x 0 1) as [v Hv];
    [lia | simpl; lra | lia |].
  rewrite Hv; eauto.
Qed.

Lemma applyEasing_total (fuel : nat) (t : num) (easing : EasingFunction) :
  (21 <= fuel)%nat -> exists v, applyEasing fuel t easing = Some v.
Proof.
  intros Hfuel; destruct easing as [name|a|]; simpl; eauto.
  - destruct (str_eqb _ _); eauto. destruct (str_eqb name _); eauto.
  - destruct a as [|e0 [|e1 [|e2 [|e3 [|e4 a]]]]]; eauto.
    now apply cubicBezier_total.
Qed.

(** C9.  [applyEasing] always returns (it never throws), and falls back
    to the identity for every specification it does not recognise:
    [applyEasing(t, name) = t] for every string [name] other than
    "linear" and "easeInOutCubic", and [applyEasing(t, a) = t] for every
    array [a] whose length is not 4. *)
Theorem applyEasing_fallback_linear (t : num) :
  (forall fuel easing, (21 <= fuel)%nat ->
     exists v, applyEasing fuel t easing = Some v)
  /\ (forall fuel name,
        name <> str "linear" -> name <> str "easeInOutCubic" ->
        applyEasing fuel t (EasingName name) = Some t)
  /\ (forall fuel a,
        List.length a <> 4%nat -> applyEasing fuel t (EasingArray a) = Some t).
Proof.
  split; [|split].
  - intros fuel easing Hfuel; now apply applyEasing_total.
  - intros fuel name H1 H2; simpl.
    now rewrite (str_eqb_neq H1), (str_eqb_neq H2).
  - intros fuel a Hlen.
    destruct a as [|e0 [|e1 [|e2 [|e3 [|e4 a]]]]]; simpl in *;
      try reflexivity; congruence.
Qed.

Lemma applyEasing_fallback_linear_witness :
  applyEasing 0 (Num (1 / 4)) (EasingName (str "bounce")) = Some (Num (1 / 4))
  /\ applyEasing 0 (Num (1 / 4)) (EasingArray [Num 1; Num 2]) = Some (Num (1 / 4))
  /\ exists v,
       applyEasing 21 (Num (1 / 4))
         (EasingArray [Num (1 / 4); Num 0; Num (3 / 4); Num 1]) = Some v.
Proof.
  destruct (applyEasing_fallback_linear (Num (1 / 4))) as (Htotal & Hname & Harray).
  split; [|split].
  - apply Hname; intros H; vm_compute in H; discriminate H.
  - apply Harray; simpl; lia.
  - apply Htotal; lia.
Defined.

(** ** Timeline *)

(** C10.  A timeline that is not playing reports progress 0 whatever its
    elapsed time, direction, loop flag and easing; in particular
    [stopTimeline] keeps [startTime] and [currentTime] and the progress
    it reports afterwards is 0. *)
Theorem progress_zero_when_not_playing
    (fuel : nat) (tl tl' : TimelineState) (easing : option EasingFunction) :
  isPlaying tl = false ->
  getTimelineProgress fuel tl easing = Some (Num 0)
  /\ startTime (stopTimeline tl') = startTime tl'
  /\ currentTime (stopTimeline tl') = currentTime tl'
  /\ getTimelineProgress fuel (stopTimeline tl') easing = Some (Num 0).
Proof.
  intros Hstop; unfold getTimelineProgress; rewrite Hstop; simpl; auto.
Qed.

Lemma progress_zero_when_not_playing_witness :
  let idle := createTimeline (mkOptions (Num 1000) (Some true) (Some yoyo)) in
  let running := startTimeline idle (Num 5) in
  let midflight := updateTimeline running (Num 505) in
  isPlaying idle = false
  /\ getTimelineProgress 0 idle (Some (EasingName (str "easeInOutCubic"))) = Some (Num 0)
  /\ currentTime (stopTimeline midflight) = Num 505
  /\ getTimelineProgress 0 (stopTimeline midflight) (Some (EasingName (str "easeInOutCubic")))
     = Some (Num 0).
Proof.
  intros idle running midflight.
  assert (Hidle : isPlaying idle = false) by reflexivity.
  pose proof (@progress_zero_when_not_playing 0 idle midflight
                (Some (EasingName (str "easeInOutCubic"))) Hidle)
    as (H1 & H2 & H3 & H4).
  split; [exact Hidle | split; [exact H1 | split; [rewrite H3; reflexivity | exact H4]]].
Defined.

(** C5.  A playing, forward timeline with duration [d > 0] whose elapsed
    time equals [d] reports, without easing, progress exactly 1 when it
    does not loop and exactly 0 when it loops; [updateTimeline] of a
    looping timeline at that instant sets [loopCount] to
    [floor(elapsed / duration)], which is 1: one more than at the
    start. *)
Theorem timeline_progress_at_duration
    (fuel : nat) (tl : TimelineState) (s c d : R) :
  isPlaying tl = true -> direction tl = forward ->
  startTime tl = Num s -> currentTime tl = Num c -> duration tl = Num d ->
  (0 < d)%R -> (c - s = d)%R ->
  (loop tl = false -> getTimelineProgress fuel tl None = Some (Num 1))
  /\ (loop tl = true -> getTimelineProgress fuel tl None = Some (Num 0))
  /\ (loop tl = true ->
      loopCount (updateTimeline tl (Num c))
      = Num (IZR (Rfloor ((c - s) / d)))
      /\ loopCount (updateTimeline tl (Num c)) = Num 1
      /\ loopCount (updateTimeline tl (Num s)) = Num 0).
Proof.
  intros Hplay Hdir Hs Hc Hd Hpos Hel.
  assert (Hd0 : d <> 0%R) by lra.
  assert (Hupd : loop tl = true -> forall now : R,
             loopCount (updateTimeline tl (Num now))
             = Num (IZR (Rfloor ((now - s) / d)))).
  { intros Hloop now; unfold updateTimeline.
    rewrite Hplay, Hloop, Hs, Hd; cbn [negb num_sub loopCount].
    now rewrite num_div_Num. }
  split; [|split].
  - intros Hloop; unfold getTimelineProgress.
    rewrite Hplay, Hloop, Hdir, Hs, Hc, Hd; cbn [negb num_sub applyDirection truthy].
    rewrite num_div_Num by assumption.
    rewrite !Math_min_Num, Math_max_Num.
    do 2 f_equal. rewrite Hel.
    replace (d / d)%R with 1%R by (field; assumption).
    unfold Rmin, Rmax; repeat destruct (Rle_dec _ _); lra.
  - intros Hloop; unfold getTimelineProgress.
    rewrite Hplay, Hloop, Hdir, Hs, Hc, Hd; cbn [negb num_sub applyDirection truthy].
    rewrite Hel. replace d with (IZR 1 * d)%R at 1 by lra.
    rewrite num_rem_multiple by assumption.
    rewrite num_div_Num by assumption.
    rewrite Math_min_Num, Math_max_Num.
    do 2 f_equal.
    replace (0 / d)%R with 0%R by (field; assumption).
    unfold Rmin, Rmax; repeat destruct (Rle_dec _ _); lra.
  - intros Hloop; split; [|split].
    + now apply Hupd.
    + rewrite Hupd by assumption. rewrite Hel.
      replace (d / d)%R with (IZR 1) by (field; assumption).
      now rewrite Rfloor_IZR.
    + rewrite Hupd by assumption.
      replace ((s - s) / d)%R with (IZR 0) by (field; assumption).
      now rewrite Rfloor_IZR.
Qed.

Lemma timeline_progress_at_duration_witness :
  let once := startTimeline (createTimeline (mkOptions (Num 1000) None None)) (Num 250) in
  let again := startTimeline (createTimeline (mkOptions (Num 1000) (Some true) None)) (Num 250) in
  getTimelineProgress 0 (updateTimeline once (Num 1250)) None = Some (Num 1)
  /\ getTimelineProgress 0 (updateTimeline again (Num 1250)) None = Some (Num 0)
  /\ loopCount (updateTimeline (updateTimeline again (Num 1250)) (Num 1250)) = Num 1.
Proof.
  intros once again.
  assert (Hpos : (0 < 1000)%R) by lra.
  assert (Hel : (1250 - 250 = 1000)%R) by lra.
  assert (Honce : isPlaying (updateTimeline once (Num 1250)) = true).
  { unfold updateTimeline; simpl. destruct (Rleb 1000 (1250 - 250)); reflexivity. }
  assert (Honce_loop : loop (updateTimeline once (Num 1250)) = false).
  { unfold updateTimeline; simpl. destruct (Rleb 1000 (1250 - 250)); reflexivity. }
  split; [|split].
  - refine (proj1 (@timeline_progress_at_duration 0 (updateTimeline once (Num 1250))
                     250 1250 1000 Honce _ _ _ _ Hpos Hel) Honce_loop);
      unfold updateTimeline; simpl; destruct (Rleb 1000 (1250 - 250)); reflexivity.
  - exact (proj1 (proj2 (@timeline_progress_at_duration 0 (updateTimeline again (Num 1250))
                     250 1250 1000 eq_refl eq_refl eq_refl eq_refl eq_refl Hpos Hel))
             eq_refl).
  - exact (proj1 (proj2 (proj2 (proj2
             (@timeline_progress_at_duration 0 (updateTimeline again (Num 1250))
                250 1250 1000 eq_refl eq_refl eq_refl eq_refl eq_refl Hpos Hel))
             eq_refl))).
Defined.

(** ** Bezier evaluation *)

Lemma finitePoint_pt (p : Point) : finitePoint p -> exists a b, p = pt a b.
Proof.
  destruct p as [[a| | |] [b| | |]]; intros [Hx Hy]; simpl in *;
    try contradiction; now exists a, b.
Qed.

Lemma finiteCubic_pts (c : CubicBezierCurve) :
  finiteCubic c ->
  exists a0 b0 a1 b1 a2 b2 a3 b3,
    c = mkCubic (pt a0 b0) (pt a1 b1) (pt a2 b2) (pt a3 b3).
Proof.
  destruct c as [p0 p1 p2 p3]; intros (H0 & H1 & H2 & H3); simpl in *.
  apply finitePoint_pt in H0 as (a0 & b0 & ->).
  apply finitePoint_pt in H1 as (a1 & b1 & ->).
  apply finitePoint_pt in H2 as (a2 & b2 & ->).
  apply finitePoint_pt in H3 as (a3 & b3 & ->).
  now exists a0, b0, a1, b1, a2, b2, a3, b3.
Qed.

Lemma finiteQuadratic_pts (q : QuadraticBezierCurve) :
  finiteQuadratic q ->
  exists a0 b0 a1 b1 a2 b2, q = mkQuadratic (pt a0 b0) (pt a1 b1) (pt a2 b2).
Proof.
  destruct q as [p0 p1 p2]; intros (H0 & H1 & H2); simpl in *.
  apply finitePoint_pt in H0 as (a0 & b0 & ->).
  apply finitePoint_pt in H1 as (a1 & b1 & ->).
  apply finitePoint_pt in H2 as (a2 & b2 & ->).
  now exists a0, b0, a1, b1, a2, b2.
Qed.

Lemma cubicBezierPoint_finite (a0 b0 a1 b1 a2 b2 a3 b3 t : R) :
  cubicBezierPoint (mkCubic (pt a0 b0) (pt a1 b1) (pt a2 b2) (pt a3 b3)) (Num t)
  = pt (cubicPoly a0 a1 a2 a3 t) (cubicPoly b0 b1 b2 b3 t).
Proof. reflexivity. Qed.

Lemma quadraticBezierPoint_finite (a0 b0 a1 b1 a2 b2 t : R) :
  quadraticBezierPoint (mkQuadratic (pt a0 b0) (pt a1 b1) (pt a2 b2)) (Num t)
  = pt (quadraticPoly a0 a1 a2 t) (quadraticPoly b0 b1 b2 t).
Proof. reflexivity. Qed.

Lemma pt_eq (a b a' b' : R) : a = a' -> b = b' -> pt a b = pt a' b'.
Proof. now intros -> ->. Qed.

Lemma pt_inj (a b a' b' : R) : pt a b = pt a' b' -> a = a' /\ b = b'.
Proof. now intros [= -> ->]. Qed.

(** C2, as stated, fails: the evaluation functions do not clamp [t].  At
    [t = 2] the curve [cube_curve] is evaluated at 2, giving x = 8, which
    is neither the value at the clamped parameter nor the end point; at
    [t = -1] the result is not the start point. *)
Lemma bezierPoint_extrapolates :
  finiteCurve (Cubic cube_curve)
  /\ bezierPoint (Cubic cube_curve) (Num 2) = pt 8 0
  /\ bezierPoint (Cubic cube_curve) (Num 2)
     <> bezierPoint (Cubic cube_curve) (Math_min (Num 1) (Math_max (Num 0) (Num 2)))
  /\ bezierPoint (Cubic cube_curve) (Num 2) <> curveEnd (Cubic cube_curve)
  /\ bezierPoint (Cubic cube_curve) (Num (-1)) <> curveStart (Cubic cube_curve).
Proof.
  split; [|split; [|split; [|split]]].
  - simpl; unfold finiteCubic, finitePoint; simpl; tauto.
  - unfold bezierPoint, cube_curve; rewrite cubicBezierPoint_finite.
    apply pt_eq; unfold cubicPoly; lra.
  - rewrite Math_max_Num, Math_min_Num.
    unfold bezierPoint, cube_curve; rewrite !cubicBezierPoint_finite.
    intros H; apply pt_inj in H as [H _]; revert H.
    unfold cubicPoly, Rmin, Rmax; repeat destruct (Rle_dec _ _); lra.
  - unfold bezierPoint, cube_curve; rewrite cubicBezierPoint_finite; simpl.
    intros H; apply pt_inj in H as [H _]; revert H; unfold cubicPoly; lra.
  - unfold bezierPoint, cube_curve; rewrite cubicBezierPoint_finite; simpl.
    intros H; apply pt_inj in H as [H _]; revert H; unfold cubicPoly; lra.
Qed.

(** C2, amended.  For a well-formed curve and a real [t] in [0,1],
    [bezierPoint] at [t] equals [bezierPoint] at [min(1, max(0, t))]; at
    [t = 0] it returns the start point and at [t = 1] the end point.  The
    functions evaluate the polynomial at the [t] they are given and do
    not clamp it. *)
Theorem bezierPoint_unit_interval (curve : BezierCurve) (t : R) :
  finiteCurve curve -> (0 <= t <= 1)%R ->
  bezierPoint curve (Num t)
  = bezierPoint curve (Math_min (Num 1) (Math_max (Num 0) (Num t)))
  /\ bezierPoint curve (Num 0) = curveStart curve
  /\ bezierPoint curve (Num 1) = curveEnd curve.
Proof.
  intros Hfin Ht.
  assert (Hclamp : Math_min (Num 1) (Math_max (Num 0) (Num t)) = Num t).
  { rewrite Math_max_Num, Math_min_Num; apply Num_eq.
    unfold Rmin, Rmax; repeat destruct (Rle_dec _ _); lra. }
  rewrite Hclamp; split; [reflexivity|].
  destruct curve as [c|q]; simpl in Hfin |- *.
  - apply finiteCubic_pts in Hfin
      as (a0 & b0 & a1 & b1 & a2 & b2 & a3 & b3 & ->).
    rewrite !cubicBezierPoint_finite; simpl.
    split; apply pt_eq; unfold cubicPoly; ring.
  - apply finiteQuadratic_pts in Hfin as (a0 & b0 & a1 & b1 & a2 & b2 & ->).
    rewrite !quadraticBezierPoint_finite; simpl.
    split; apply pt_eq; unfold quadraticPoly; ring.
Qed.

Lemma bezierPoint_unit_interval_witness :
  bezierPoint (Cubic cube_curve) (Num (1 / 2))
  = bezierPoint (Cubic cube_curve)
      (Math_min (Num 1) (Math_max (Num 0) (Num (1 / 2))))
  /\ bezierPoint (Cubic cube_curve) (Num 0) = pt 0 0
  /\ bezierPoint (Cubic cube_curve) (Num 1) = pt 1 0.
Proof.
  apply (@bezierPoint_unit_interval (Cubic cube_curve) (1 / 2)).
  - simpl; unfold finiteCubic, finitePoint; simpl; tauto.
  - lra.
Defined.

(** C1 fails on the code: [splitCubicBezier] is not de Casteljau's
    subdivision.  For [cube_curve] split at [t = 1/2] the first sub-curve
    ends (and the second starts) at x = 3/4, while the curve at [t = 1/2]
    is at x = 1/8; so the first sub-curve at [s = 1] is not the original
    at [s * t], and the second at [s = 0] is not the original at
    [t + s * (1 - t)]. *)
Theorem splitCubicBezier_misses_curve :
  let t := Num (1 / 2) in
  let first := fst (splitCubicBezier cube_curve t) in
  let second := snd (splitCubicBezier cube_curve t) in
  end_ first = pt (3 / 4) 0
  /\ start second = pt (3 / 4) 0
  /\ cubicBezierPoint cube_curve t = pt (1 / 8) 0
  /\ end_ first <> cubicBezierPoint cube_curve t
  /\ cubicBezierPoint first (Num 1) <> cubicBezierPoint cube_curve (Num 1 * t)
  /\ cubicBezierPoint second (Num 0)
     <> cubicBezierPoint cube_curve (t + Num 0 * (Num 1 - t)).
Proof.
  intros t first second.
  assert (Hend : end_ first = pt (3 / 4) 0).
  { unfold first, t; simpl; apply pt_eq; lra. }
  assert (Hmid : cubicBezierPoint cube_curve t = pt (1 / 8) 0).
  { unfold t, cube_curve; rewrite cubicBezierPoint_finite.
    apply pt_eq; unfold cubicPoly; lra. }
  split; [exact Hend|]. split; [exact Hend|]. split; [exact Hmid|].
  split; [|split].
  - rewrite Hend, Hmid; intros H; apply pt_inj in H as [H _]; lra.
  - unfold first, t; simpl.
    intros H; injection H as H _; lra.
  - unfold second, t; simpl.
    intros H; injection H as H _; lra.
Qed.

(** C6.  The cubic that [normalizeToCubicBeziers] puts in the place of a
    well-formed quadratic segment traces the same curve: at every real
    parameter [t] (in particular on [0,1]) [cubicBezierPoint] of the
    cubic equals [quadraticBezierPoint] of the quadratic. *)
Theorem normalized_cubic_equals_quadratic (quad : QuadraticBezierCurve) :
  finiteQuadratic quad ->
  exists cubic : CubicBezierCurve,
    normalizeToCubicBeziers [mkSegment SegQ [qend quad] (Some (Quadratic quad))]
    = Some [mkSegment SegC [qend quad] (Some (Cubic cubic))]
    /\ start cubic = qstart quad
    /\ end_ cubic = qend quad
    /\ forall t : R,
         cubicBezierPoint cubic (Num t) = quadraticBezierPoint quad (Num t).
Proof.
  intros Hfin.
  apply finiteQuadratic_pts in Hfin as (a0 & b0 & a1 & b1 & a2 & b2 & ->).
  eexists; split; [reflexivity|]. split; [reflexivity|]. split; [reflexivity|].
  intros t; cbn [x y qstart control qend pt start control1 control2 end_].
  rewrite num_div_Num by lra.
  unfold cubicBezierPoint, quadraticBezierPoint;
    cbn [x y qstart control qend pt start control1 control2 end_
         num_sub num_mul num_add].
  f_equal; apply Num_eq; field.
Qed.

Lemma normalized_cubic_equals_quadratic_witness :
  exists cubic : CubicBezierCurve,
    normalizeToCubicBeziers
      [mkSegment SegQ [pt 10 0]
         (Some (Quadratic (mkQuadratic (pt 0 0) (pt 5 10) (pt 10 0))))]
    = Some [mkSegment SegC [pt 10 0] (Some (Cubic cubic))]
    /\ start cubic = pt 0 0
    /\ end_ cubic = pt 10 0
    /\ forall t : R,
         cubicBezierPoint cubic (Num t)
         = quadraticBezierPoint (mkQuadratic (pt 0 0) (pt 5 10) (pt 10 0)) (Num t).
Proof.
  apply (@normalized_cubic_equals_quadratic
           (mkQuadratic (pt 0 0) (pt 5 10) (pt 10 0))).
  unfold finiteQuadratic, finitePoint; simpl; tauto.
Defined.

(** ** Loops *)

(** A counted loop: when the test holds for the [k] counters from [i] on
    and fails for the next one, the loop runs the body on exactly those
    counters, given fuel for the [k] iterations and the final test. *)
Lemma for_loop_seq {St : Type} (cond : num -> bool) (body : num -> St -> St) :
  forall (k i fuel : nat) (s : St),
    (forall j, (i <= j < i + k)%nat -> cond (of_nat j) = true) ->
    cond (of_nat (i + k)) = false ->
    (k < fuel)%nat ->
    for_loop fuel cond body i s
    = Some (fold_left (fun s j => body (of_nat j) s) (seq i k) s).
Proof.
  induction k as [|k IH]; intros i fuel s Htrue Hfalse Hfuel;
    (destruct fuel as [|fuel]; [lia|]); simpl.
  - rewrite Nat.add_0_r in Hfalse; now rewrite Hfalse.
  - rewrite Htrue by lia.
    apply IH; [intros j Hj; apply Htrue; lia | | lia].
    now replace (S i + k)%nat with (i + S k)%nat by lia.
Qed.

(** With a positive step, [len] iterations always reach the end of the
    array: more fuel changes nothing. *)
Lemma for_index_fuel {St : Type} (step len : nat) (body : nat -> St -> St) :
  (0 < step)%nat ->
  forall (fuel extra i : nat) (s : St),
    (len <= i + fuel)%nat ->
    for_index (fuel + extra) step len body i s
    = for_index fuel step len body i s.
Proof.
  intros Hstep; induction fuel as [|fuel IH]; intros extra i s Hlen; simpl.
  - destruct extra as [|extra]; simpl; [reflexivity|].
    now replace (i <? len)%nat with false by (symmetry; apply Nat.ltb_ge; lia).
  - destruct (i <? len)%nat; [|reflexivity].
    apply IH; lia.
Qed.

Lemma for_index_invariant {St : Type} (P : St -> Prop)
    (step len : nat) (body : nat -> St -> St) :
  (forall i s, P s -> P (body i s)) ->
  forall (fuel i : nat) (s : St), P s -> P (for_index fuel step len body i s).
Proof.
  intros Hbody; induction fuel as [|fuel IH]; intros i s Hs; simpl; [assumption|].
  destruct (i <? len)%nat; [apply IH, Hbody|]; assumption.
Qed.

Lemma of_nat_lt (j n : nat) : (of_nat j <? of_nat n) = (j <? n)%nat.
Proof.
  unfold of_nat; simpl.
  destruct (Nat.ltb_spec j n) as [H|H].
  - apply Rltb_true, lt_INR, H.
  - apply Rltb_false, le_INR, H.
Qed.

Lemma of_nat_le (j n : nat) : (of_nat j <=? of_nat n) = (j <=? n)%nat.
Proof.
  unfold of_nat; simpl.
  destruct (Nat.leb_spec j n) as [H|H].
  - apply Rleb_true, le_INR, H.
  - apply Rleb_false, lt_INR, H.
Qed.

(** ** Chord sums *)

Lemma sumR_ext (f g : nat -> R) (n : nat) :
  (forall i, (i < n)%nat -> f i = g i) -> sumR f n = sumR g n.
Proof.
  induction n as [|n IH]; intros H; simpl; [reflexivity|].
  rewrite IH, H by (intros; try apply H; lia); reflexivity.
Qed.




(** Accumulating finite terms from [Num 0] gives their real sum. *)
Lemma fold_sum (g : num -> num) (f : nat -> R) (n : nat) :
  (forall j, (j < n)%nat -> g (of_nat j) = Num (f j)) ->
  fold_left (fun s j => s + g (of_nat j)) (seq 0 n) (Num 0) = Num (sumR f n).
Proof.
  induction n as [|n IH]; intros H; [reflexivity|].
  rewrite seq_S, fold_left_app; simpl.
  rewrite IH by (intros; apply H; lia).
  rewrite H by lia; reflexivity.
Qed.

Lemma chord_pt (a b a' b' : R) :
  chord (pt a b) (pt a' b')
  = Num (sqrt ((a' - a) * (a' - a) + (b' - b) * (b' - b))).
Proof.
  unfold chord; simpl; rewrite Rltb_false; [reflexivity|].
  pose proof (Rle_0_sqr (a' - a)); pose proof (Rle_0_sqr (b' - b)).
  unfold Rsqr in *; lra.
Qed.

Section Polyline.

  Variables X Y : R -> R.

Lemma seglen_dist (t1 t2 : R) :
  seglen X Y t1 t2 = dist_euc (X t2) (Y t2) (X t1) (Y t1).
Proof. reflexivity. Qed.

Lemma seglen_triangle (a b c : R) :
  (seglen X Y a c <= seglen X Y a b + seglen X Y b c)%R.
Proof.
  rewrite !seglen_dist.
  pose proof (triangle (X c) (Y c) (X a) (Y a) (X b) (Y b)); lra.
Qed.

Lemma seglen_refl (a : R) : seglen X Y a a = 0%R.
Proof.
  unfold seglen.
  replace ((X a - X a) * (X a - X a) + (Y a - Y a) * (Y a - Y a))%R
    with 0%R by ring.
  apply sqrt_0.
Qed.

(** The chord across [k] consecutive steps is no longer than the [k]
    chords of the steps. *)
Lemma seglen_steps (dt : R) (a k : nat) :
  (seglen X Y (INR a * dt) (INR (a + k) * dt)
   <= sumR (fun l => seglen X Y (INR (a + l) * dt) ((INR (a + l) + 1) * dt)) k)%R.
Proof.
  induction k as [|k IH]; simpl.
  - rewrite Nat.add_0_r, seglen_refl; lra.
  - pose proof (seglen_triangle (INR a * dt) (INR (a + k) * dt)
                  (INR (a + S k) * dt)) as Htri.
    replace (INR (a + S k)) with (INR (a + k) + 1)%R in *
      by (replace (a + S k)%nat with (S (a + k)) by lia; now rewrite S_INR).
    lra.
Qed.


End Polyline.

(** ** Arc length *)

(** On a well-formed cubic and a positive integer sample count, the loop
    of [cubicBezierArcLength] returns the chord sum of the curve. *)
Lemma cubicBezierArcLength_finite (a0 b0 a1 b1 a2 b2 a3 b3 : R) (n fuel : nat) :
  (0 < n)%nat -> (n < fuel)%nat ->
  cubicBezierArcLength fuel
    (mkCubic (pt a0 b0) (pt a1 b1) (pt a2 b2) (pt a3 b3)) (of_nat n)
  = Some (Num (polyline (cubicPoly a0 a1 a2 a3) (cubicPoly b0 b1 b2 b3) n)).
Proof.
  intros Hn Hfuel; unfold cubicBezierArcLength.
  rewrite (@for_loop_seq _ _ _ n 0 fuel);
    [ | intros j Hj; rewrite of_nat_lt; apply Nat.ltb_lt; lia
      | rewrite of_nat_lt; apply Nat.ltb_ge; lia
      | assumption ].
  f_equal; unfold polyline.
  apply (fold_sum
           (fun i =>
              chord (cubicBezierPoint _ (i * (Num 1 / of_nat n)))
                    (cubicBezierPoint _ ((i + Num 1) * (Num 1 / of_nat n))))).
  intros j Hj; unfold of_nat.
  rewrite num_div_Num by (apply not_0_INR; lia); cbn [num_mul num_add].
  now rewrite !cubicBezierPoint_finite, chord_pt.
Qed.

Lemma quadraticBezierArcLength_finite (a0 b0 a1 b1 a2 b2 : R) (n fuel : nat) :
  (0 < n)%nat -> (n < fuel)%nat ->
  quadraticBezierArcLength fuel
    (mkQuadratic (pt a0 b0) (pt a1 b1) (pt a2 b2)) (of_nat n)
  = Some (Num (polyline (quadraticPoly a0 a1 a2) (quadraticPoly b0 b1 b2) n)).
Proof.
  intros Hn Hfuel; unfold quadraticBezierArcLength.
  rewrite (@for_loop_seq _ _ _ n 0 fuel);
    [ | intros j Hj; rewrite of_nat_lt; apply Nat.ltb_lt; lia
      | rewrite of_nat_lt; apply Nat.ltb_ge; lia
      | assumption ].
  f_equal; unfold polyline.
  apply (fold_sum
           (fun i =>
              chord (quadraticBezierPoint _ (i * (Num 1 / of_nat n)))
                    (quadraticBezierPoint _ ((i + Num 1) * (Num 1 / of_nat n))))).
  intros j Hj; unfold of_nat.
  rewrite num_div_Num by (apply not_0_INR; lia); cbn [num_mul num_add].
  now rewrite !quadraticBezierPoint_finite, chord_pt.
Qed.



Lemma of_nat_10 : of_nat 10 = Num 10.
Proof. unfold of_nat; apply Num_eq; simpl; lra. Qed.




(** The refinement inequality is one of exact chord sums.  In binary64
    the rounded sums can fall short of it in the last digit: the straight
    quadratic from (0,0) to (1,1) measures 1.4142135623730951 with one
    sample and 1.4142135623730949 with two. *)
Lemma arcLength_refinement_rounds :
  Doubles.quadraticBezierArcLength 1 Doubles.diagonal Doubles.one
  = Some Doubles.sqrt2_above
  /\ Doubles.quadraticBezierArcLength 2 Doubles.diagonal Doubles.two
     = Some Doubles.sqrt2_below
  /\ Doubles.lt Doubles.sqrt2_below Doubles.sqrt2_above = true.
Proof. repeat split; vm_compute; reflexivity. Qed.

(** ** Look-up tables *)

(** The binary search stays inside the table, so it never reads a
    missing entry. *)
Lemma bsearch_total (entries : list LUTEntry) (targetLength : num)
    (left_ right_ : Z) :
  (0 <= left_)%Z -> (right_ < Z.of_nat (List.length entries))%Z ->
  exists m : Z, bsearch entries targetLength left_ right_ = Some m.
Proof.
  funelim (bsearch entries targetLength left_ right_); intros Hl Hr.
  - assert (Hmid : (left_ <= (left_ + right_) / 2 < right_)%Z)
      by (Z.div_mod_to_equations; lia).
    cbv zeta.
    unfold lookupZ at 1.
    replace ((left_ + right_) / 2 <? 0)%Z with false
      by (symmetry; apply Z.ltb_ge; lia).
    destruct (nth_error entries (Z.to_nat ((left_ + right_) / 2))) as [entry|] eqn:E.
    + destruct (entry_length entry <? targetLength);
        [apply (H entry) | apply (H0 entry)]; lia.
    + apply nth_error_None in E; lia.
  - eauto.
Qed.

Lemma lengthToParameter_total (lut : PathLUT) (targetLength : num) :
  exists v : num, lengthToParameter lut targetLength = Some v.
Proof.
  unfold lengthToParameter.
  destruct (targetLength <=? Num 0); [eauto|].
  destruct (targetLength >=? lut_totalLength lut); [eauto|].
  destruct (@bsearch_total (lut_entries lut) targetLength 0
              (Z.of_nat (List.length (lut_entries lut)) - 1)) as [m Hm];
    [lia | lia |].
  rewrite Hm.
  destruct (lookupZ _ (m - 1)); [|eauto].
  destruct (lookupZ _ m); [|eauto].
  destruct (_ === _); eauto.
Qed.

Lemma cubicPoly_zero (t : R) : cubicPoly 0 0 0 0 t = 0%R.
Proof. unfold cubicPoly; ring. Qed.

Lemma sumR_zero (f : nat -> R) (n : nat) :
  (forall i, (i < n)%nat -> f i = 0%R) -> sumR f n = 0%R.
Proof.
  induction n as [|n IH]; intros H; simpl; [reflexivity|].
  rewrite IH, H by (intros; try apply H; lia); lra.
Qed.

Lemma polyline_point (n : nat) :
  polyline (cubicPoly 0 0 0 0) (cubicPoly 0 0 0 0) n = 0%R.
Proof.
  apply sumR_zero; intros i Hi; unfold seglen.
  rewrite !cubicPoly_zero.
  replace ((0 - 0) * (0 - 0) + (0 - 0) * (0 - 0))%R with 0%R by ring.
  apply sqrt_0.
Qed.

Lemma lutStep_point (ns : num) (d : R) (j : nat) (entries : list LUTEntry) :
  snd (lutStep (Cubic point_curve) ns (Num d) (of_nat j) (entries, Num 0))
  = Num 0.
Proof.
  unfold lutStep, of_nat, bezierPoint, point_curve; cbn [num_mul num_add].
  destruct (Num (INR j) <? ns); [|reflexivity].
  rewrite !cubicBezierPoint_finite, chord_pt, !cubicPoly_zero.
  cbn [snd num_add]; apply Num_eq.
  replace ((0 - 0) * (0 - 0) + (0 - 0) * (0 - 0))%R with 0%R by ring.
  rewrite sqrt_0; lra.
Qed.

Lemma lut_fold_point (ns : num) (d : R) (l : list nat) :
  forall st : list LUTEntry * num,
    snd st = Num 0 ->
    snd (fold_left
           (fun st j => lutStep (Cubic point_curve) ns (Num d) (of_nat j) st)
           l st) = Num 0.
Proof.
  induction l as [|j l IH]; intros [entries total] Hst; simpl in *; [assumption|].
  subst total; apply IH, lutStep_point.
Qed.

(** The table of the point curve at the default resolution: 11 entries,
    total length 0. *)
Lemma createBezierLUT_point (fuel : nat) :
  (11 < fuel)%nat ->
  exists entries : list LUTEntry,
    createBezierLUT fuel (Cubic point_curve) (Num 1)
    = Some (mkLUT entries (Num 0) (Num 1)).
Proof.
  intros Hfuel; unfold createBezierLUT, default_samples, bezierArcLength, point_curve.
  rewrite <- of_nat_10, cubicBezierArcLength_finite, polyline_point by lia.
  rewrite of_nat_10; cbn [num_mul Math_ceil].
  replace (0 * 1)%R with (IZR 0) by (simpl; ring).
  rewrite Rceil_IZR, Math_max_Num, Rmax_left, num_div_Num by lra.
  rewrite <- of_nat_10.
  rewrite (@for_loop_seq _ _ _ 11 0 fuel);
    [ | intros j Hj; rewrite of_nat_le; apply Nat.leb_le; lia
      | rewrite of_nat_le; apply Nat.leb_gt; lia
      | assumption ].
  pose proof (@lut_fold_point (of_nat 10) (1 / 10) (seq 0 11) ([], Num 0) eq_refl)
    as Hfold.
  destruct (fold_left _ (seq 0 11) _) as [entries total]; simpl in Hfold.
  subst total; now exists entries.
Qed.

(** C3, as stated, fails on the table of a zero-length curve: its total
    length is 0, the first test of [lengthToParameter] wins, and
    [lengthToParameter(lut, lut.totalLength)] is 0, not 1. *)
Lemma lengthToParameter_point_lut :
  exists lut : PathLUT,
    createBezierLUT 12 (Cubic point_curve) (Num 1) = Some lut
    /\ lut_totalLength lut = Num 0
    /\ (lut_totalLength lut >=? lut_totalLength lut) = true
    /\ lengthToParameter lut (lut_totalLength lut) = Some (Num 0)
    /\ lengthToParameter lut (lut_totalLength lut) <> Some (Num 1).
Proof.
  destruct (@createBezierLUT_point 12) as [entries Hlut]; [lia|].
  eexists; split; [exact Hlut|]; cbn [lut_totalLength].
  assert (Hzero : lengthToParameter (mkLUT entries (Num 0) (Num 1)) (Num 0)
                  = Some (Num 0)).
  { unfold lengthToParameter; cbn [num_le]; now rewrite Rleb_true by lra. }
  split; [reflexivity|]. split; [unfold num_ge; simpl; apply Rleb_true; lra|].
  split; [exact Hzero|].
  rewrite Hzero; intros [= H]; lra.
Qed.

(** C3, amended.  For every table produced by [createBezierLUT],
    [lengthToParameter] returns 0 when [targetLength <= 0], and returns 1
    when [targetLength > 0] and [targetLength >= lut.totalLength]; so
    [lengthToParameter(lut, 0)] is 0 for every table, and
    [lengthToParameter(lut, lut.totalLength)] is 1 for every table of
    positive total length and 0 for the table of a zero-length curve. *)
Theorem lengthToParameter_ends
    (fuel : nat) (curve : BezierCurve) (resolution : num) (lut : PathLUT)
    (targetLength : num) :
  createBezierLUT fuel curve resolution = Some lut ->
  ((targetLength <=? Num 0) = true ->
   lengthToParameter lut targetLength = Some (Num 0))
  /\ ((Num 0 <? targetLength) = true ->
      (targetLength >=? lut_totalLength lut) = true ->
      lengthToParameter lut targetLength = Some (Num 1))
  /\ lengthToParameter lut (Num 0) = Some (Num 0)
  /\ ((Num 0 <? lut_totalLength lut) = true ->
      lengthToParameter lut (lut_totalLength lut) = Some (Num 1))
  /\ (lut_totalLength lut = Num 0 ->
      lengthToParameter lut (lut_totalLength lut) = Some (Num 0)).
Proof.
  intros _.
  assert (Hpos : forall a : num, (Num 0 <? a) = true -> (a <=? Num 0) = false).
  { intros [r| | |]; simpl; try discriminate; try reflexivity.
    unfold Rltb, Rleb; destruct (Rlt_dec 0 r), (Rle_dec r 0);
      try discriminate; try reflexivity; lra. }
  assert (Hself : forall a : num, (Num 0 <? a) = true -> (a >=? a) = true).
  { intros [r| | |]; unfold num_ge; simpl; try discriminate; try reflexivity.
    intros _; apply Rleb_true; lra. }
  assert (Hzero : lengthToParameter lut (Num 0) = Some (Num 0)).
  { unfold lengthToParameter; cbn [num_le]; now rewrite Rleb_true by lra. }
  split; [|split; [|split; [|split]]].
  - intros H; unfold lengthToParameter; now rewrite H.
  - intros H1 H2; unfold lengthToParameter; now rewrite (Hpos _ H1), H2.
  - exact Hzero.
  - intros H; unfold lengthToParameter; now rewrite (Hpos _ H), (Hself _ H).
  - intros ->; exact Hzero.
Qed.

Lemma lengthToParameter_ends_witness :
  exists lut : PathLUT,
    createBezierLUT 12 (Cubic point_curve) (Num 1) = Some lut
    /\ lengthToParameter lut (Num (-3)) = Some (Num 0)
    /\ lengthToParameter lut (Num 5) = Some (Num 1)
    /\ lengthToParameter lut (Num 0) = Some (Num 0).
Proof.
  destruct (@createBezierLUT_point 12) as [entries Hlut]; [lia|].
  exists (mkLUT entries (Num 0) (Num 1)); split; [exact Hlut|].
  split; [|split].
  - apply (proj1 (@lengthToParameter_ends 12 _ _ _ (Num (-3)) Hlut)).
    simpl; apply Rleb_true; lra.
  - apply (proj1 (proj2 (@lengthToParameter_ends 12 _ _ _ (Num 5) Hlut))).
    + simpl; apply Rltb_true; lra.
    + unfold num_ge; simpl; apply Rleb_true; lra.
  - apply (proj1 (proj2 (proj2 (@lengthToParameter_ends 12 _ _ _ (Num 0) Hlut)))).
Defined.

(** ** The path parser *)

Ltac decide_order :=
  repeat first
    [ rewrite Rleb_true by lra
    | rewrite Rleb_false by lra
    | rewrite Rltb_true by lra
    | rewrite Rltb_false by lra
    | progress simpl ].

Lemma sqrt_of_square (a b r : R) :
  (0 <= r)%R -> (a * a + b * b = r * r)%R -> sqrt (a * a + b * b) = r.
Proof.
  intros Hr H; apply sqrt_lem_1; [|assumption|lra].
  pose proof (Rle_0_sqr a); pose proof (Rle_0_sqr b); unfold Rsqr in *; lra.
Qed.

(** C4.  Parsing "M 0 0 L 10 0 L 10 10 Z" gives the four segments M, L,
    L, Z in that order, the bounding box (0, 0, 10, 10) and total length
    exactly 20: the close-path segment adds no length. *)
Theorem createPathData_open_square :
  createPathData (str "M 0 0 L 10 0 L 10 10 Z")
  = Some {| segments :=
              [ mkSegment SegM [pt 0 0] None;
                mkSegment SegL [pt 10 0] None;
                mkSegment SegL [pt 10 10] None;
                mkSegment SegZ [] None ];
            totalLength := Num 20;
            bounds := mkBounds (Num 0) (Num 0) (Num 10) (Num 10) |}.
Proof.
  assert (Hparse :
            parsePathData (str "M 0 0 L 10 0 L 10 10 Z")
            = [ mkSegment SegM [pt 0 0] None;
                mkSegment SegL [pt 10 0] None;
                mkSegment SegL [pt 10 10] None;
                mkSegment SegZ [] None ]) by reflexivity.
  unfold createPathData; rewrite Hparse; clear Hparse.
  cbn [normalizeToCubicBeziers type curve].
  do 2 f_equal.
  - cbn [fold_left lengthStep points fst]; rewrite !chord_pt.
    rewrite (@sqrt_of_square (10 - 0) (0 - 0) 10) by lra.
    rewrite (@sqrt_of_square (10 - 10) (10 - 0) 10) by lra.
    cbn [num_add]; apply Num_eq; lra.
  - unfold calculatePathBounds, boundsStep, pt; decide_order; reflexivity.
Qed.

Lemma push_good (st : ParseState) (seg : PathSegment) (p : Point)
    (l : option Point) :
  goodState st -> goodSegment seg -> goodState (push st seg p l).
Proof.
  intros Hst Hseg; unfold goodState, push; simpl.
  apply Forall_app; split; [assumption | now constructor].
Qed.

Lemma parseCommand_good (st : ParseState) (command : Command) :
  goodState st -> goodState (parseCommand st command).
Proof.
  intros Hst; unfold parseCommand.
  repeat
    match goal with
    | |- goodState (if ?b then _ else _) => destruct b
    end;
    try assumption;
    try (apply for_index_invariant; [|assumption];
         intros i s Hs; apply push_good; [assumption|];
         unfold goodSegment; simpl; try destruct (i =? 0)%nat; exact I).
  apply push_good; [assumption | exact I].
Qed.

Lemma parsePathData_good (pathString : list N) :
  Forall goodSegment (parsePathData pathString).
Proof.
  unfold parsePathData.
  assert (H : forall cmds st, goodState st -> goodState (fold_left parseCommand cmds st)).
  { induction cmds as [|c cmds IH]; intros st Hst; simpl; [assumption|].
    apply IH, parseCommand_good, Hst. }
  apply H; constructor.
Qed.

Lemma normalizeToCubicBeziers_good (segs : list PathSegment) :
  Forall goodSegment segs -> exists r, normalizeToCubicBeziers segs = Some r.
Proof.
  induction 1 as [|seg segs Hseg _ [r IH]]; simpl; [eauto|].
  rewrite IH; unfold goodSegment in Hseg.
  destruct (type seg), (curve seg) as [[c|q]|]; try contradiction; eauto.
Qed.

Lemma createPathData_total (pathString : list N) :
  exists pd, createPathData pathString = Some pd.
Proof.
  unfold createPathData.
  destruct (normalizeToCubicBeziers_good (parsePathData_good pathString))
    as [r ->]; eauto.
Qed.

Lemma parseArg_not_NaN (tok : list N) : parseArg tok <> NaN.
Proof.
  unfold parseArg; destruct (parseFloat tok); simpl; discriminate.
Qed.

Lemma tokenizePath_args (pathString : list N) (cmd : Command) :
  In cmd (tokenizePath pathString) ->
  exists toks : list (list N), args cmd = List.map parseArg toks.
Proof.
  unfold tokenizePath; intros H.
  apply in_flat_map in H as ([c rest] & _ & H).
  destruct (trim rest) as [|d argsString].
  - destruct (_ =? _)%N; [|contradiction].
    destruct H as [<-|[]]; now exists [].
  - destruct H as [<-|[]]; simpl; eauto.
Qed.

Lemma whitespace_not_command (c : N) :
  isWhiteSpace c = true -> isCommandLetter c = false.
Proof.
  intros Hws; destruct (isCommandLetter c) eqn:E; [|reflexivity].
  unfold isCommandLetter in E; apply existsb_exists in E as (d & Hd & Hcd).
  apply N.eqb_eq in Hcd; subst d.
  vm_compute in Hd.
  repeat (destruct Hd as [<-|Hd]; [vm_compute in Hws; discriminate Hws|]).
  contradiction.
Qed.

Lemma regexMatches_whitespace (s : list N) :
  forallb isWhiteSpace s = true -> regexMatches s = (s, []).
Proof.
  induction s as [|c s IH]; simpl; [reflexivity|].
  intros H; apply andb_true_iff in H as [Hc Hs].
  now rewrite IH, whitespace_not_command.
Qed.

(** C8.  [createPathData] returns a PathData for every input string;
    the tokenizer turns an argument token that [parseFloat] rejects into
    0, so no argument is NaN; and an empty or whitespace-only string
    gives no segments, total length exactly 0 and the bounding box
    (0, 0, 0, 0). *)
Theorem createPathData_lenient :
  (forall pathString, exists pd, createPathData pathString = Some pd)
  /\ (forall tok, parseFloat tok = NaN -> parseArg tok = Num 0)
  /\ (forall pathString cmd,
        In cmd (tokenizePath pathString) ->
        (exists toks, args cmd = List.map parseArg toks)
        /\ forall a, In a (args cmd) -> a <> NaN)
  /\ (forall pathString,
        forallb isWhiteSpace pathString = true ->
        createPathData pathString = Some emptyPath).
Proof.
  split; [exact createPathData_total|].
  split; [intros tok H; unfold parseArg; now rewrite H|].
  split.
  - intros pathString cmd Hcmd.
    destruct (tokenizePath_args _ _ Hcmd) as [toks Htoks].
    split; [eauto|].
    intros a Ha; rewrite Htoks in Ha.
    apply in_map_iff in Ha as (tok & <- & _); apply parseArg_not_NaN.
  - intros pathString Hws.
    unfold createPathData, parsePathData, tokenizePath.
    now rewrite regexMatches_whitespace.
Qed.

Lemma createPathData_lenient_witness :
  (exists pd, createPathData (str "M 1 x Q 3") = Some pd)
  /\ parseArg (str "x") = Num 0
  /\ tokenizePath (str "M 1 x") = [mkCommand (chr "M") [Num 1; Num 0]]
  /\ createPathData [] = Some emptyPath
  /\ createPathData [32; 9; 10; 32]%N = Some emptyPath.
Proof.
  destruct createPathData_lenient as (Htotal & Hzero & Hargs & Hblank).
  split; [apply Htotal|].
  split; [apply Hzero; reflexivity|].
  split; [reflexivity|].
  split; apply Hblank; reflexivity.
Defined.

(* ================================================================= *)
(** * Further properties *)

(** ** Timeline, continued *)

Lemma Rfloor_bounds (r : R) : (IZR (Rfloor r) <= r < IZR (Rfloor r) + 1)%R.
Proof. unfold Rfloor; pose proof (base_Int_part r); lra. Qed.

Lemma Rfloor_unique (r : R) (k : Z) :
  (IZR k <= r < IZR k + 1)%R -> Rfloor r = k.
Proof. intros H; unfold Rfloor; symmetry; apply Int_part_spec; lra. Qed.

Lemma Rtrunc_nonneg (r : R) : (0 <= r)%R -> Rtrunc r = Rfloor r.
Proof. intros H; unfold Rtrunc; now rewrite Rltb_false. Qed.

(** [updateTimeline] keeps nothing of the time it was last given: updating
    twice is updating once with the later time. *)
Theorem updateTimeline_last_wins (tl : TimelineState) (t1 t2 : num) :
  updateTimeline (updateTimeline tl t1) t2 = updateTimeline tl t2.
Proof.
  destruct tl as [s c d lp dir pl comp lc]; unfold updateTimeline; simpl.
  destruct pl, lp; simpl; try reflexivity.
  destruct (t1 - s >=? d); simpl; destruct (t2 - s >=? d); reflexivity.
Qed.

(** After an update of a playing timeline, [isComplete] and [isAtEnd]
    agree; on finite times a timeline that does not loop is at its end
    exactly when no time remains, and it is at its end once the elapsed
    time has reached the duration; one that loops is never at its end
    and always has infinite time left. *)
Theorem complete_iff_at_end (tl : TimelineState) (now s c d : R) :
  isPlaying tl = true ->
  startTime tl = Num s -> currentTime tl = Num c -> duration tl = Num d ->
  isComplete (updateTimeline tl (Num now)) = isAtEnd (updateTimeline tl (Num now))
  /\ (loop tl = false ->
      (isAtEnd tl = true <-> getRemainingTime tl = Num 0)
      /\ ((d <= c - s)%R -> isAtEnd tl = true))
  /\ (loop tl = true -> isAtEnd tl = false /\ getRemainingTime tl = PInf).
Proof.
  intros Hplay Hs Hc Hd; split; [|split].
  - clear Hs Hc Hd; destruct tl as [s0 c0 d0 lp dir pl comp lc]; simpl in Hplay.
    subst pl; unfold updateTimeline, isAtEnd, num_ge.
    cbn [negb isPlaying loop startTime duration].
    destruct lp; [reflexivity|].
    destruct (d0 <=? Num now - s0) eqn:E; cbn [loop currentTime startTime duration isComplete];
      now rewrite E.
  - intros Hloop; unfold isAtEnd, getRemainingTime.
    rewrite Hloop, Hs, Hc, Hd; unfold num_ge; cbn [num_sub num_le].
    rewrite Math_max_Num.
    assert (Hend : Rleb d (c - s) = true <-> (d <= c - s)%R).
    { unfold Rleb; destruct (Rle_dec d (c - s)); split; intros; try discriminate;
        try reflexivity; try assumption; contradiction. }
    split; [|apply Hend].
    rewrite Hend; split.
    + intros H; apply Num_eq, Rmax_left; lra.
    + intros [= H]; revert H; unfold Rmax; destruct (Rle_dec _ _); lra.
  - intros Hloop; unfold isAtEnd, getRemainingTime; now rewrite Hloop.
Qed.

Lemma complete_iff_at_end_witness :
  let tl := updateTimeline
              (startTimeline (createTimeline (mkOptions (Num 1000) None None)) (Num 250))
              (Num 1300) in
  isComplete (updateTimeline tl (Num 1300)) = isAtEnd (updateTimeline tl (Num 1300))
  /\ (isAtEnd tl = true <-> getRemainingTime tl = Num 0)
  /\ isAtEnd tl = true.
Proof.
  intros tl.
  assert (Hplay : isPlaying tl = true).
  { unfold tl, updateTimeline; simpl; now destruct (Rleb 1000 (1300 - 250)). }
  assert (Hs : startTime tl = Num 250).
  { unfold tl, updateTimeline; simpl; now destruct (Rleb 1000 (1300 - 250)). }
  assert (Hc : currentTime tl = Num 1300).
  { unfold tl, updateTimeline; simpl; now destruct (Rleb 1000 (1300 - 250)). }
  assert (Hd : duration tl = Num 1000).
  { unfold tl, updateTimeline; simpl; now destruct (Rleb 1000 (1300 - 250)). }
  assert (Hloop : loop tl = false).
  { unfold tl, updateTimeline; simpl; now destruct (Rleb 1000 (1300 - 250)). }
  destruct (@complete_iff_at_end tl 1300 250 1300 1000 Hplay Hs Hc Hd)
    as (H1 & H2 & _).
  split; [exact H1 | split; [exact (proj1 (H2 Hloop)) | apply (proj2 (H2 Hloop)); lra]].
Defined.

(** The parity test of the yoyo direction, [Math.floor(progress * 2) % 2
    === 0], on the three ranges a progress in [0,1] can fall in. *)
Lemma yoyo_test (u : R) :
  let test := num_rem (Math_floor (Num u * Num 2)) (Num 2) === Num 0 in
  ((0 <= u * 2 < 1)%R -> test = true)
  /\ ((1 <= u * 2 < 2)%R -> test = false)
  /\ ((u * 2 = 2)%R -> test = true).
Proof.
  assert (Hrem : forall k q : Z,
             Rtrunc (IZR k / 2) = q ->
             num_rem (Num (IZR k)) (Num 2) = Num (IZR k - 2 * IZR q)).
  { intros k q Hq; simpl; rewrite Reqb_false by lra; now rewrite Hq. }
  cbn [num_mul Math_floor]; split; [|split]; intros H.
  - rewrite (@Rfloor_unique (u * 2) 0) by (simpl; lra).
    rewrite (Hrem 0%Z 0%Z); [simpl; apply Reqb_true; lra|].
    replace (0 / 2)%R with (IZR 0) by (simpl; lra); apply Rtrunc_IZR.
  - rewrite (@Rfloor_unique (u * 2) 1) by (simpl; lra).
    rewrite (Hrem 1%Z 0%Z); [simpl; apply Reqb_false; lra|].
    rewrite Rtrunc_nonneg by lra; apply Rfloor_unique; simpl; lra.
  - rewrite (@Rfloor_unique (u * 2) 2) by (simpl; lra).
    rewrite (Hrem 2%Z 1%Z); [simpl; apply Reqb_true; lra|].
    replace (2 / 2)%R with (IZR 1) by (simpl; lra); apply Rtrunc_IZR.
Qed.

(** The progress of a playing timeline that does not loop, without
    easing, as a function of the elapsed time [e = currentTime -
    startTime] and the duration [d > 0].  Forward: 0 up to [e = 0], [e/d]
    on [0, d], 1 from [d] on.  Reverse: 1 minus that.  Yoyo: up to 1 on
    the first half, [2 - 2e/d] on the second half, and 1 again (not 0)
    from [e = d] on.  The falling branch is stated up to a relative
    [2^-40] short of the end: the progress jumps there, and an elapsed
    time that is within a rounding error of [d] may already count as
    [d]. *)
Theorem progress_by_direction (fuel : nat) (tl : TimelineState) (s c d : R) :
  isPlaying tl = true -> loop tl = false ->
  startTime tl = Num s -> currentTime tl = Num c -> duration tl = Num d ->
  (0 < d)%R ->
  exists p : R,
    getTimelineProgress fuel tl None = Some (Num p)
    /\ (0 <= p <= 1)%R
    /\ match direction tl with
       | forward =>
           ((c - s <= 0)%R -> p = 0%R)
           /\ ((0 <= c - s <= d)%R -> p = ((c - s) / d)%R)
           /\ ((d <= c - s)%R -> p = 1%R)
       | reverse =>
           ((c - s <= 0)%R -> p = 1%R)
           /\ ((0 <= c - s <= d)%R -> p = (1 - (c - s) / d)%R)
           /\ ((d <= c - s)%R -> p = 0%R)
       | yoyo =>
           ((0 <= c - s < d / 2)%R -> p = (2 * (c - s) / d)%R)
           /\ ((d / 2 <= c - s <= d * (1 - / 2 ^ 40))%R ->
               p = (2 - 2 * (c - s) / d)%R)
           /\ ((d <= c - s)%R -> p = 1%R)
       end.
Proof.
  intros Hplay Hloop Hs Hc Hd Hpos.
  assert (Hd0 : d <> 0%R) by lra.
  unfold getTimelineProgress.
  rewrite Hplay, Hloop, Hs, Hc, Hd; cbn [negb num_sub truthy].
  rewrite num_div_Num, Math_min_Num by assumption.
  set (e := (c - s)%R).
  assert (Hdiv : forall a, (a / d * d = a)%R) by (intros; field; assumption).
  assert (Hsign : (e <= 0 -> e / d <= 0)%R).
  { intros H; pose proof (Hdiv e).
    destruct (Rle_dec (e / d) 0); [assumption|nra]. }
  assert (Hsign' : (0 <= e -> 0 <= e / d)%R).
  { intros H; pose proof (Hdiv e).
    destruct (Rle_dec 0 (e / d)); [assumption|nra]. }
  assert (Hone : (e <= d <-> e / d <= 1)%R).
  { pose proof (Hdiv e); split; intros H0.
    - destruct (Rle_dec (e / d) 1); [assumption|nra].
    - nra. }
  assert (Hone' : (d <= e <-> 1 <= e / d)%R).
  { pose proof (Hdiv e); split; intros H0.
    - destruct (Rle_dec 1 (e / d)); [assumption|nra].
    - nra. }
  assert (Hmargin : (e <= d * (1 - / 2 ^ 40) -> e < d)%R).
  { intros H; pose proof (Rinv_0_lt_compat _ (pow_lt 2 40 ltac:(lra))); nra. }
  destruct (direction tl); cbn [applyDirection].
  - rewrite Math_min_Num, Math_max_Num.
    eexists; split; [reflexivity|].
    unfold Rmin, Rmax; repeat destruct (Rle_dec _ _);
      repeat split; intros; try lra;
      try (apply Hsign in H; lra); try (apply Hone' in H; lra).
  - cbn [num_sub]; rewrite Math_min_Num, Math_max_Num.
    eexists; split; [reflexivity|].
    unfold Rmin, Rmax; repeat destruct (Rle_dec _ _);
      repeat split; intros; try lra;
      try (apply Hsign in H; lra); try (apply Hone' in H; lra);
      try (destruct H as [H1 H2]; apply Hone in H2; lra).
  - destruct (yoyo_test (Rmin (e / d) 1)) as (Hlow & Hhigh & Htop).
    cbv zeta in Hlow, Hhigh, Htop.
    assert (Hhalf : forall a, (a / d * 2 = 2 * a / d)%R) by (intros; field; assumption).
    destruct (num_rem _ _ === Num 0) eqn:E; cbn [num_mul num_sub];
      rewrite Math_min_Num, Math_max_Num; (eexists; split; [reflexivity|]).
    + split; [unfold Rmin, Rmax; repeat destruct (Rle_dec _ _); lra|].
      split; [|split]; intros H.
      * assert (e / d < 1 / 2)%R
          by (pose proof (Hdiv e); destruct (Rlt_dec (e / d) (1 / 2)); [assumption|nra]).
        pose proof (Hsign' (proj1 H)). pose proof (Hhalf e).
        unfold Rmin, Rmax; repeat destruct (Rle_dec _ _); lra.
      * assert (1 / 2 <= e / d < 1)%R.
        { pose proof (Hdiv e); pose proof (Hmargin (proj2 H)); split.
          - destruct (Rle_dec (1 / 2) (e / d)); [assumption|nra].
          - destruct (Rlt_dec (e / d) 1); [assumption|nra]. }
        enough (Habs : true = false) by discriminate Habs.
        apply Hhigh; unfold Rmin; destruct (Rle_dec _ _); lra.
      * apply Hone' in H.
        unfold Rmin, Rmax; repeat destruct (Rle_dec _ _); lra.
    + split; [unfold Rmin, Rmax; repeat destruct (Rle_dec _ _); lra|].
      split; [|split]; intros H.
      * assert (e / d < 1 / 2)%R
          by (pose proof (Hdiv e); destruct (Rlt_dec (e / d) (1 / 2)); [assumption|nra]).
        pose proof (Hsign' (proj1 H)).
        enough (Habs : false = true) by discriminate Habs.
        apply Hlow; unfold Rmin; destruct (Rle_dec _ _); lra.
      * assert (1 / 2 <= e / d < 1)%R.
        { pose proof (Hdiv e); pose proof (Hmargin (proj2 H)); split.
          - destruct (Rle_dec (1 / 2) (e / d)); [assumption|nra].
          - destruct (Rlt_dec (e / d) 1); [assumption|nra]. }
        pose proof (Hhalf e).
        unfold Rmin, Rmax; repeat destruct (Rle_dec _ _); lra.
      * apply Hone' in H.
        enough (Habs : false = true) by discriminate Habs.
        apply Htop; unfold Rmin; destruct (Rle_dec _ _); lra.
Qed.

Lemma progress_by_direction_witness :
  let tl := mkTimeline (Num 0) (Num 1000) (Num 1000) false yoyo true false (Num 0) in
  exists p : R,
    getTimelineProgress 0 tl None = Some (Num p)
    /\ (0 <= p <= 1)%R
    /\ ((1000 <= 1000 - 0)%R -> p = 1%R).
Proof.
  intros tl.
  assert (Hpos : (0 < 1000)%R) by lra.
  destruct (@progress_by_direction 0 tl 0 1000 1000
              eq_refl eq_refl eq_refl eq_refl eq_refl Hpos)
    as (p & Hp & Hrange & _ & _ & Htop).
  exists p; split; [exact Hp | split; [exact Hrange | exact Htop]].
Defined.

(** A playing, forward, looping timeline never reports progress 1:
    for non-negative clock readings and a positive duration the
    progress without easing lies in [0, 1), and it is 0 as long as the
    current time has not passed the start time. *)
Theorem looping_progress (fuel : nat) (tl : TimelineState) (s c d : R) :
  isPlaying tl = true -> loop tl = true -> direction tl = forward ->
  startTime tl = Num s -> currentTime tl = Num c -> duration tl = Num d ->
  (0 < d)%R -> (0 <= s)%R -> (0 <= c)%R ->
  exists p : R,
    getTimelineProgress fuel tl None = Some (Num p)
    /\ (0 <= p < 1)%R
    /\ ((c <= s)%R -> p = 0%R).
Proof.
  intros Hplay Hloop Hdir Hs Hc Hd Hpos _ _.
  assert (Hd0 : d <> 0%R) by lra.
  unfold getTimelineProgress.
  rewrite Hplay, Hloop, Hdir, Hs, Hc, Hd; cbn [negb num_sub applyDirection truthy num_rem].
  rewrite Reqb_false by assumption.
  rewrite num_div_Num, Math_min_Num, Math_max_Num by assumption.
  eexists; split; [reflexivity|].
  set (e := (c - s)%R).
  assert (Hq : ((e - d * IZR (Rtrunc (e / d))) / d = e / d - IZR (Rtrunc (e / d)))%R)
    by (field; assumption).
  rewrite Hq.
  assert (Hsign : (e <= 0 -> e / d <= 0)%R).
  { intros H; assert (e / d * d = e)%R by (field; assumption).
    destruct (Rle_dec (e / d) 0); [assumption|nra]. }
  assert (Hsign' : (0 <= e -> 0 <= e / d)%R).
  { intros H; assert (e / d * d = e)%R by (field; assumption).
    destruct (Rle_dec 0 (e / d)); [assumption|nra]. }
  unfold Rtrunc, Rltb; destruct (Rlt_dec (e / d) 0) as [Hneg|Hnn].
  - assert (Hceil : (e / d <= IZR (Rceil (e / d)))%R).
    { unfold Rceil; rewrite opp_IZR.
      pose proof (Rfloor_bounds (- (e / d))) as Hb; unfold Rfloor in Hb; lra. }
    unfold Rmin, Rmax; repeat destruct (Rle_dec _ _); repeat split; intros; lra.
  - pose proof (Rfloor_bounds (e / d)) as Hb.
    unfold Rmin, Rmax; repeat destruct (Rle_dec _ _); repeat split; intros; try lra.
    assert (He : (e <= 0)%R) by (unfold e; lra); apply Hsign in He.
    rewrite (@Rfloor_unique (e / d) 0) by (simpl; lra); lra.
Qed.

Lemma looping_progress_witness :
  let tl := mkTimeline (Num 100) (Num 2600) (Num 1000) true forward true false (Num 0) in
  exists p : R,
    getTimelineProgress 0 tl None = Some (Num p) /\ (0 <= p < 1)%R.
Proof.
  intros tl.
  destruct (@looping_progress 0 tl 100 2600 1000) as (p & Hp & Hrange & _);
    try reflexivity; try lra.
  exists p; split; assumption.
Defined.

(** ** Easing, continued *)

(** The bisection of [cubicBezier] on the grid of step [1 / 2^20]: from
    an interval [k / 2^20, (k + 2^n) / 2^20] it leaves, after [n]
    halvings, with a left end on the grid inside that interval and short
    of its right end; when the test [x < t] never succeeds the left end
    does not move. *)
Lemma bisect_grid (t p1x p2x : num) (n : nat) :
  let X := fun a : R => easing_cubicBezierPoint (Num a) (Num 0) p1x p2x (Num 1) in
  forall (fuel : nat) (k : Z),
    (n < fuel)%nat -> (0 <= k)%Z -> (k + 2 ^ Z.of_nat n <= 2 ^ 20)%Z ->
    exists k' : Z,
      bisect fuel t p1x p2x (Num (IZR k / 2 ^ 20))
        (Num (IZR (k + 2 ^ Z.of_nat n) / 2 ^ 20))
      = Some (Num (IZR k' / 2 ^ 20))
      /\ (k <= k' < k + 2 ^ Z.of_nat n)%Z
      /\ ((forall a : R, (0 <= a <= 1)%R -> (X a <? t) = false) -> k' = k).
Proof.
  intros X.
  assert (H20 : (2 ^ 20 = 1048576)%R) by (simpl; lra).
  induction n as [|n IH]; intros fuel k Hfuel Hk Hr;
    (destruct fuel as [|fuel]; [lia|]); cbn [bisect].
  - unfold num_gt, epsilon; cbn [num_sub num_lt].
    rewrite Rltb_false
      by (change (2 ^ Z.of_nat 0)%Z with 1%Z; rewrite plus_IZR, H20; lra).
    exists k; split; [reflexivity|]. split; [|reflexivity].
    change (2 ^ Z.of_nat 0)%Z with 1%Z; lia.
  - assert (Hpow : (2 ^ Z.of_nat (S n) = 2 * 2 ^ Z.of_nat n)%Z)
      by (rewrite Nat2Z.inj_succ; apply Z.pow_succ_r; lia).
    assert (Hpos : (0 < 2 ^ Z.of_nat n)%Z) by (apply Z.pow_pos_nonneg; lia).
    assert (HposR : (1 <= IZR (2 ^ Z.of_nat n))%R) by (apply IZR_le; lia).
    unfold num_gt, epsilon; cbn [num_sub num_lt].
    rewrite Rltb_true
      by (rewrite Hpow, plus_IZR, mult_IZR, H20; lra).
    cbn [num_add]. rewrite num_div_Num by lra.
    replace ((IZR k / 2 ^ 20 + IZR (k + 2 ^ Z.of_nat (S n)) / 2 ^ 20) / 2)%R
      with (IZR (k + 2 ^ Z.of_nat n) / 2 ^ 20)%R
      by (rewrite Hpow, !plus_IZR, mult_IZR, H20; field).
    assert (Hmid : (0 <= IZR (k + 2 ^ Z.of_nat n) / 2 ^ 20 <= 1)%R).
    { assert (0 <= IZR (k + 2 ^ Z.of_nat n) <= IZR (2 ^ 20))%R
        by (split; apply IZR_le; lia).
      change (IZR (2 ^ 20)) with 1048576%R in H; rewrite H20; lra. }
    fold (X (IZR (k + 2 ^ Z.of_nat n) / 2 ^ 20)%R).
    destruct (X (IZR (k + 2 ^ Z.of_nat n) / 2 ^ 20)%R <? t) eqn:E.
    + replace (k + 2 ^ Z.of_nat (S n))%Z
        with (k + 2 ^ Z.of_nat n + 2 ^ Z.of_nat n)%Z by lia.
      destruct (IH fuel (k + 2 ^ Z.of_nat n)%Z) as (k' & Hk' & Hin & _); try lia.
      exists k'; split; [exact Hk'|]. split; [lia|].
      intros Hnever; rewrite (Hnever _ Hmid) in E; discriminate E.
    + destruct (IH fuel k) as (k' & Hk' & Hin & Hstay); try lia.
      exists k'; split; [exact Hk'|]. split; [lia|exact Hstay].
Qed.

(** [cubicBezier] searches the curve parameter on a grid: for finite
    control parameters and any input it returns y at a parameter
    [k / 2^20] with [0 <= k < 2^20], never at the end parameter 1; and an
    input that is not positive, with x-controls that are not negative,
    gives exactly 0. *)
Theorem cubicBezier_grid (fuel : nat) (t : num) (p1x p1y p2x p2y : R) :
  (21 <= fuel)%nat ->
  exists k : Z,
    cubicBezier fuel t (Num p1x) (Num p1y) (Num p2x) (Num p2y)
    = Some (Num (cubicPoly 0 p1y p2y 1 (IZR k / 2 ^ 20)))
    /\ (0 <= k < 2 ^ 20)%Z
    /\ ((t <=? Num 0) = true -> (0 <= p1x)%R -> (0 <= p2x)%R ->
        cubicBezier fuel t (Num p1x) (Num p1y) (Num p2x) (Num p2y) = Some (Num 0)).
Proof.
  intros Hfuel; unfold cubicBezier.
  destruct (@bisect_grid t (Num p1x) (Num p2x) 20 fuel 0) as (k & Hk & Hin & Hstay);
    try lia.
  replace (IZR 0 / 2 ^ 20)%R with 0%R in Hk by (simpl; lra).
  replace (IZR (0 + 2 ^ Z.of_nat 20) / 2 ^ 20)%R with 1%R in Hk
    by (change (IZR (0 + 2 ^ Z.of_nat 20)) with 1048576%R; simpl; lra).
  rewrite Hk; exists k; split; [reflexivity|].
  split; [change (2 ^ Z.of_nat 20)%Z with (2 ^ 20)%Z in Hin; lia|].
  intros Ht Hp1 Hp2.
  rewrite Hstay.
  - apply f_equal, Num_eq; unfold cubicPoly; simpl; lra.
  - intros a Ha.
    change (easing_cubicBezierPoint (Num a) (Num 0) (Num p1x) (Num p2x) (Num 1))
      with (Num (cubicPoly 0 p1x p2x 1 a)).
    assert (Hx : (0 <= cubicPoly 0 p1x p2x 1 a)%R).
    { unfold cubicPoly.
      assert (0 <= (1 - a) * (1 - a) * a * p1x)%R
        by (repeat apply Rmult_le_pos; lra).
      assert (0 <= (1 - a) * a * a * p2x)%R
        by (repeat apply Rmult_le_pos; lra).
      assert (0 <= a * a * a)%R by (repeat apply Rmult_le_pos; lra).
      lra. }
    destruct t as [r| | |]; cbn [num_le num_lt] in Ht |- *; try discriminate Ht;
      try reflexivity.
    apply Rltb_false.
    unfold Rleb in Ht; destruct (Rle_dec r 0); [lra|discriminate Ht].
Qed.

Lemma cubicBezier_grid_witness :
  exists k : Z,
    cubicBezier 21 (Num 1) (Num (1 / 4)) (Num (1 / 10)) (Num (1 / 4)) (Num 1)
    = Some (Num (cubicPoly 0 (1 / 10) 1 1 (IZR k / 2 ^ 20)))
    /\ (0 <= k < 2 ^ 20)%Z.
Proof.
  destruct (@cubicBezier_grid 21 (Num 1) (1 / 4) (1 / 10) (1 / 4) 1) as (k & Hk & Hin & _);
    [lia|].
  exists k; split; assumption.
Defined.

Lemma finite_Num (a : num) : finite a -> exists r, a = Num r.
Proof. destruct a; simpl; intros H; try contradiction; eauto. Qed.

Lemma easeInOutCubic_finite (a : R) : exists v, easeInOutCubic (Num a) = Num v.
Proof.
  unfold easeInOutCubic; cbn [num_lt Math_pow num_neg num_mul num_add].
  destruct (Rltb a (1 / 2)); [eauto|].
  rewrite num_div_Num by lra; cbn [num_sub]; eauto.
Qed.

Lemma applyEasing_finite (fuel : nat) (p : R) (easing : EasingFunction) :
  (21 <= fuel)%nat -> finiteEasing (Some easing) ->
  exists q, applyEasing fuel (Num p) easing = Some (Num q).
Proof.
  intros Hfuel Hfin; destruct easing as [name|a|]; unfold applyEasing, linear;
    [| |eauto].
  - destruct (str_eqb name (str "linear")); [eauto|].
    destruct (str_eqb name (str "easeInOutCubic")); [|eauto].
    destruct (easeInOutCubic_finite p) as [v ->]; eauto.
  - destruct a as [|e0 [|e1 [|e2 [|e3 [|e4 a]]]]]; eauto.
    simpl in Hfin.
    inversion_clear Hfin as [|? ? H0 Hfin'].
    inversion_clear Hfin' as [|? ? H1 Hfin].
    inversion_clear Hfin as [|? ? H2 Hfin'].
    inversion_clear Hfin' as [|? ? H3 _].
    apply finite_Num in H0 as [p1x ->]; apply finite_Num in H1 as [p1y ->].
    apply finite_Num in H2 as [p2x ->]; apply finite_Num in H3 as [p2y ->].
    destruct (@bisect_grid (Num p) (Num p1x) (Num p2x) 20 fuel 0) as (k & Hk & _);
      try lia.
    replace (IZR 0 / 2 ^ 20)%R with 0%R in Hk by (simpl; lra).
    replace (IZR (0 + 2 ^ Z.of_nat 20) / 2 ^ 20)%R with 1%R in Hk
      by (change (IZR (0 + 2 ^ Z.of_nat 20)) with 1048576%R; simpl; lra).
    unfold cubicBezier; rewrite Hk.
    exists (cubicPoly 0 p1y p2y 1 (IZR k / 2 ^ 20)); reflexivity.
Qed.

Lemma applyDirection_finite (dir : Direction) (u : R) :
  exists q, applyDirection dir (Num u) = Num q.
Proof.
  destruct dir; cbn [applyDirection num_sub num_mul]; eauto.
  destruct (_ === _); eauto.
Qed.

(** On non-negative clock readings and a non-zero duration, with no
    easing or any easing whose parameters are finite,
    [getTimelineProgress] returns a number in [0,1], whatever the
    direction, the loop flag, the sign of the duration and the sign of
    the elapsed time.  (Readings of opposite sign could make the elapsed
    time overflow, which the remainder of a looping timeline turns into
    NaN.) *)
Theorem progress_in_unit_interval
    (fuel : nat) (tl : TimelineState) (easing : option EasingFunction) (s c d : R) :
  (21 <= fuel)%nat -> finiteEasing easing ->
  startTime tl = Num s -> currentTime tl = Num c -> duration tl = Num d ->
  (0 <= s)%R -> (0 <= c)%R -> d <> 0%R ->
  exists p : R,
    getTimelineProgress fuel tl easing = Some (Num p) /\ (0 <= p <= 1)%R.
Proof.
  intros Hfuel Hfin Hs Hc Hd _ _ Hd0; unfold getTimelineProgress.
  destruct (isPlaying tl); cbn [negb]; [|exists 0%R; split; [reflexivity|lra]].
  rewrite Hs, Hc, Hd; cbn [num_sub].
  assert (Hraw : exists u,
             (if loop tl
              then num_rem (Num (c - s)) (Num d) / Num d
              else Math_min (Num (c - s) / Num d) (Num 1)) = Num u).
  { destruct (loop tl).
    - cbn [num_rem]; rewrite Reqb_false, num_div_Num by assumption; eauto.
    - rewrite num_div_Num, Math_min_Num by assumption; eauto. }
  destruct Hraw as [u ->].
  destruct (applyDirection_finite (direction tl) u) as [v ->].
  assert (Heased : exists w,
             match truthy easing with
             | Some e => applyEasing fuel (Num v) e
             | None => Some (Num v)
             end = Some (Num w)).
  { destruct easing as [[[|ch name]|a|]|]; cbn [truthy]; eauto;
      now apply applyEasing_finite. }
  destruct Heased as [w ->].
  rewrite Math_min_Num, Math_max_Num; eexists; split; [reflexivity|].
  unfold Rmin, Rmax; repeat destruct (Rle_dec _ _); lra.
Qed.

Lemma progress_in_unit_interval_witness :
  let tl := mkTimeline (Num 10) (Num 7) (Num (-3)) true yoyo true false (Num 0) in
  exists p : R,
    getTimelineProgress 21 tl
      (Some (EasingArray [Num (1 / 4); Num (-2); Num (3 / 4); Num 5]))
    = Some (Num p)
    /\ (0 <= p <= 1)%R.
Proof.
  intros tl.
  apply (@progress_in_unit_interval 21 tl _ 10 7 (-3));
    try reflexivity; try lia; try lra.
  simpl; repeat constructor.
Defined.

(** ** Curves in coordinates *)

Lemma bezierPoint_coords (curve : BezierCurve) (t : R) :
  finiteCurve curve ->
  bezierPoint curve (Num t) = pt (curveX curve t) (curveY curve t).
Proof.
  intros Hfin; destruct curve as [c|q]; simpl in Hfin.
  - apply finiteCubic_pts in Hfin
      as (a0 & b0 & a1 & b1 & a2 & b2 & a3 & b3 & ->); reflexivity.
  - apply finiteQuadratic_pts in Hfin as (a0 & b0 & a1 & b1 & a2 & b2 & ->);
      reflexivity.
Qed.

Lemma bezierArcLength_coords (fuel : nat) (curve : BezierCurve) (n : nat) :
  finiteCurve curve -> (0 < n)%nat -> (n < fuel)%nat ->
  bezierArcLength fuel curve (of_nat n)
  = Some (Num (polyline (curveX curve) (curveY curve) n)).
Proof.
  intros Hfin Hn Hfuel; destruct curve as [c|q]; simpl in Hfin.
  - apply finiteCubic_pts in Hfin
      as (a0 & b0 & a1 & b1 & a2 & b2 & a3 & b3 & ->).
    now apply cubicBezierArcLength_finite.
  - apply finiteQuadratic_pts in Hfin as (a0 & b0 & a1 & b1 & a2 & b2 & ->).
    now apply quadraticBezierArcLength_finite.
Qed.

Lemma curve_ends (curve : BezierCurve) :
  finiteCurve curve ->
  curveStart curve = pt (curveX curve 0) (curveY curve 0)
  /\ curveEnd curve = pt (curveX curve 1) (curveY curve 1).
Proof.
  intros Hfin; destruct curve as [c|q]; simpl in Hfin.
  - apply finiteCubic_pts in Hfin
      as (a0 & b0 & a1 & b1 & a2 & b2 & a3 & b3 & ->).
    split; apply pt_eq; simpl; unfold cubicPoly; ring.
  - apply finiteQuadratic_pts in Hfin as (a0 & b0 & a1 & b1 & a2 & b2 & ->).
    split; apply pt_eq; simpl; unfold quadraticPoly; ring.
Qed.

Lemma polyline_ge_chord (X Y : R -> R) (n : nat) :
  (0 < n)%nat -> (seglen X Y 0 1 <= polyline X Y n)%R.
Proof.
  intros Hn.
  assert (Hn0 : INR n <> 0%R) by (apply not_0_INR; lia).
  pose proof (seglen_steps X Y (1 / INR n) 0 n) as H.
  replace (INR 0 * (1 / INR n))%R with 0%R in H by (simpl; ring).
  replace (INR (0 + n) * (1 / INR n))%R with 1%R in H by (simpl; field; assumption).
  exact H.
Qed.

(** ** Look-up tables, continued *)

Lemma Rmax_IZR (a b : Z) : Rmax (IZR a) (IZR b) = IZR (Z.max a b).
Proof.
  destruct (Z.max_spec a b) as [[H ->]|[H ->]].
  - apply Rmax_right, IZR_le; lia.
  - apply Rmax_left, IZR_le; lia.
Qed.

Lemma lutSamples_ge (curve : BezierCurve) (resolution : R) :
  (10 <= lutSamples curve resolution)%nat.
Proof. unfold lutSamples; lia. Qed.

Lemma lutLength_step (curve : BezierCurve) (n i : nat) :
  (lutLength curve n i <= lutLength curve n (S i))%R.
Proof. unfold lutLength; simpl; pose proof (sqrt_pos); unfold seglen; specialize (H
  ((curveX curve ((INR i + 1) * (1 / INR n)) - curveX curve (INR i * (1 / INR n))) *
   (curveX curve ((INR i + 1) * (1 / INR n)) - curveX curve (INR i * (1 / INR n))) +
   (curveY curve ((INR i + 1) * (1 / INR n)) - curveY curve (INR i * (1 / INR n))) *
   (curveY curve ((INR i + 1) * (1 / INR n)) - curveY curve (INR i * (1 / INR n))))%R);
  lra.
Qed.

Lemma lutLength_mono (curve : BezierCurve) (n i j : nat) :
  (i <= j)%nat -> (lutLength curve n i <= lutLength curve n j)%R.
Proof.
  induction 1 as [|j _ IH]; [lra|].
  pose proof (lutLength_step curve n j); lra.
Qed.

(** The state of the sampling loop after its first [k] iterations. *)
Lemma lut_fold (curve : BezierCurve) (n : nat) :
  finiteCurve curve ->
  forall k : nat,
    (k <= S n)%nat ->
    fold_left
      (fun st j => lutStep curve (of_nat n) (Num (1 / INR n)) (of_nat j) st)
      (seq 0 k) ([], Num 0)
    = (List.map (lutEntry curve n) (seq 0 k), Num (lutLength curve n (Nat.min k n))).
Proof.
  intros Hfin; induction k as [|k IH]; intros Hk; [reflexivity|].
  rewrite seq_S, fold_left_app, IH by lia; cbn [fold_left Nat.add].
  rewrite map_app; cbn [List.map].
  unfold lutStep; rewrite of_nat_lt.
  replace (Nat.min k n) with k by lia.
  destruct (Nat.ltb_spec k n) as [Hlt|Hge]; unfold of_nat; cbn [num_mul num_add];
    rewrite !bezierPoint_coords by assumption.
  - rewrite chord_pt; cbn [num_add].
    replace (Nat.min (S k) n) with (S k) by lia; reflexivity.
  - replace (Nat.min (S k) n) with k by lia; reflexivity.
Qed.

(** [createBezierLUT] on a well-formed curve at a finite resolution, in
    closed form. *)
Lemma createBezierLUT_spec (fuel : nat) (curve : BezierCurve) (resolution : R) :
  finiteCurve curve ->
  (S (lutSamples curve resolution) < fuel)%nat ->
  createBezierLUT fuel curve (Num resolution)
  = Some {| lut_entries :=
              List.map (lutEntry curve (lutSamples curve resolution))
                (seq 0 (S (lutSamples curve resolution)));
            lut_totalLength :=
              Num (lutLength curve (lutSamples curve resolution)
                     (lutSamples curve resolution));
            lut_resolution := Num resolution |}.
Proof.
  intros Hfin Hfuel.
  pose proof (lutSamples_ge curve resolution) as Hge.
  set (n := lutSamples curve resolution) in *.
  unfold createBezierLUT, default_samples.
  rewrite <- of_nat_10, bezierArcLength_coords by (assumption || lia).
  rewrite of_nat_10; cbn [num_mul Math_ceil].
  rewrite Math_max_Num, Rmax_IZR.
  replace (IZR (Z.max 10 (Rceil (polyline (curveX curve) (curveY curve) 10 * resolution))))
    with (INR n)
    by (unfold n, lutSamples; rewrite INR_IZR_INZ, Z2Nat.id by lia; reflexivity).
  rewrite num_div_Num by (apply not_0_INR; lia).
  change (Num (INR n)) with (of_nat n).
  rewrite (@for_loop_seq _ _ _ (S n) 0 fuel);
    [ | intros j Hj; rewrite of_nat_le; apply Nat.leb_le; lia
      | rewrite of_nat_le; apply Nat.leb_gt; lia
      | assumption ].
  rewrite lut_fold by (assumption || lia).
  now replace (Nat.min (S n) n) with n by lia.
Qed.

Lemma Num_injective (r s : R) : Num r = Num s -> r = s.
Proof. now intros [=]. Qed.

Lemma Some_eq {A : Type} (a b : A) : Some a = Some b -> a = b.
Proof. now intros [=]. Qed.

Lemma nth_error_lut (f : nat -> LUTEntry) (n i : nat) :
  nth_error (List.map f (seq 0 (S n))) i
  = if (i <=? n)%nat then Some (f i) else None.
Proof.
  rewrite nth_error_map, nth_error_seq.
  destruct (Nat.leb_spec i n) as [H|H].
  - replace (i <? S n)%nat with true by (symmetry; apply Nat.ltb_lt; lia).
    reflexivity.
  - replace (i <? S n)%nat with false by (symmetry; apply Nat.ltb_ge; lia).
    reflexivity.
Qed.

Lemma lookupZ_lut (f : nat -> LUTEntry) (n : nat) (i : Z) :
  lookupZ (List.map f (seq 0 (S n))) i
  = if ((0 <=? i) && (i <=? Z.of_nat n))%Z then Some (f (Z.to_nat i)) else None.
Proof.
  unfold lookupZ; destruct (Z.ltb_spec i 0) as [H|H].
  - replace (0 <=? i)%Z with false by (symmetry; apply Z.leb_gt; lia); reflexivity.
  - replace (0 <=? i)%Z with true by (symmetry; apply Z.leb_le; lia).
    rewrite nth_error_lut; cbn [andb].
    destruct (Z.leb_spec i (Z.of_nat n)) as [H'|H'].
    + now replace (Z.to_nat i <=? n)%nat with true by (symmetry; apply Nat.leb_le; lia).
    + now replace (Z.to_nat i <=? n)%nat with false by (symmetry; apply Nat.leb_gt; lia).
Qed.

(** What the binary search returns on a table whose entry [i] has the
    finite cumulative length [L i]: an index in range, with a shorter
    entry just before it unless it is the left bound, and itself no
    shorter than the target unless it is the right bound. *)
Lemma bsearch_bracket (entries : list LUTEntry) (target : num)
    (left_ right_ : Z) (L : Z -> R) (tau : R) :
  target = Num tau ->
  (forall i e, lookupZ entries i = Some e -> entry_length e = Num (L i)) ->
  (0 <= left_)%Z -> (right_ < Z.of_nat (List.length entries))%Z ->
  (left_ <= right_)%Z ->
  exists m : Z,
    bsearch entries target left_ right_ = Some m
    /\ (left_ <= m <= right_)%Z
    /\ (m = left_ \/ (L (m - 1)%Z < tau)%R)
    /\ (m = right_ \/ (tau <= L m)%R).
Proof.
  funelim (bsearch entries target left_ right_); intros Htarget HL Hl Hr Hlr.
  - assert (Hmid : (left_ <= (left_ + right_) / 2 < right_)%Z)
      by (Z.div_mod_to_equations; lia).
    cbv zeta.
    destruct (lookupZ entries ((left_ + right_) / 2)) as [entry|] eqn:E.
    + rewrite (HL _ _ E), Htarget; cbn [num_lt].
      unfold Rltb; destruct (Rlt_dec (L ((left_ + right_) / 2)%Z) tau) as [Hlt|Hge].
      * destruct (H entry L tau Htarget HL) as (m & Hm & Hrange & Hleft & Hright);
          try lia.
        rewrite Htarget in Hm.
        exists m; split; [exact Hm|]. split; [lia|]. split; [|exact Hright].
        destruct Hleft as [->|Hleft]; [|now right].
        right; now replace ((left_ + right_) / 2 + 1 - 1)%Z
                 with ((left_ + right_) / 2)%Z by lia.
      * destruct (H0 entry L tau Htarget HL) as (m & Hm & Hrange & Hleft & Hright);
          try lia.
        rewrite Htarget in Hm.
        exists m; split; [exact Hm|]. split; [lia|]. split; [exact Hleft|].
        destruct Hright as [->|Hright]; [|now right].
        right; lra.
    + unfold lookupZ in E.
      replace ((left_ + right_) / 2 <? 0)%Z with false in E
        by (symmetry; apply Z.ltb_ge; lia).
      apply nth_error_None in E; lia.
  - exists left_; split; [reflexivity|]. split; [lia|]. split; [now left|].
    left; lia.
Qed.

(** [lengthToParameter] on the closed form of a table, for a target
    strictly between 0 and the total length: the search stops at an
    index [m >= 1] whose cumulative length is the first to reach the
    target, and the result is the linear interpolation between samples
    [m - 1] and [m]. *)
Lemma lengthToParameter_interp (curve : BezierCurve) (n : nat) (rho tau : R) :
  (0 < n)%nat -> (0 < tau < lutLength curve n n)%R ->
  exists m : nat,
    (m < n)%nat
    /\ (lutLength curve n m < tau <= lutLength curve n (S m))%R
    /\ lengthToParameter
         {| lut_entries := List.map (lutEntry curve n) (seq 0 (S n));
            lut_totalLength := Num (lutLength curve n n);
            lut_resolution := Num rho |} (Num tau)
       = Some (Num (INR m * (1 / INR n)
                    + (tau - lutLength curve n m)
                      / (lutLength curve n (S m) - lutLength curve n m)
                      * (INR (S m) * (1 / INR n) - INR m * (1 / INR n)))).
Proof.
  intros Hn Htau.
  set (entries := List.map (lutEntry curve n) (seq 0 (S n))).
  assert (Hlen : List.length entries = S n)
    by (unfold entries; now rewrite length_map, length_seq).
  assert (HL : forall i e, lookupZ entries i = Some e ->
                           entry_length e = Num (lutLength curve n (Z.to_nat i))).
  { intros i e; unfold entries; rewrite lookupZ_lut.
    destruct (_ && _)%bool; [|discriminate]. now intros [= <-]. }
  destruct (@bsearch_bracket entries (Num tau) 0 (Z.of_nat n)
              (fun i => lutLength curve n (Z.to_nat i)) tau eq_refl HL)
    as (m & Hm & Hrange & Hleft & Hright); try lia.
  assert (Hm1 : (1 <= m)%Z).
  { destruct (Z.eq_dec m 0) as [->|]; [|lia].
    destruct Hright as [H|H]; [lia|].
    change (lutLength curve n (Z.to_nat 0)) with 0%R in H; lra. }
  assert (Hlow : (lutLength curve n (Z.to_nat (m - 1)) < tau)%R)
    by (destruct Hleft as [->|H]; [lia|exact H]).
  assert (Hhigh : (tau <= lutLength curve n (Z.to_nat m))%R).
  { destruct Hright as [->|H]; [|exact H]. rewrite Nat2Z.id; lra. }
  exists (Z.to_nat (m - 1)).
  replace (S (Z.to_nat (m - 1))) with (Z.to_nat m) by lia.
  split; [lia|]. split; [lra|].
  unfold lengthToParameter; cbn [lut_entries lut_totalLength num_le].
  rewrite Rleb_false by lra.
  unfold num_ge; cbn [num_le]; rewrite Rleb_false by lra.
  fold entries; rewrite Hlen.
  replace (Z.of_nat (S n) - 1)%Z with (Z.of_nat n) by lia.
  rewrite Hm; unfold entries; rewrite !lookupZ_lut.
  replace ((0 <=? m - 1) && (m - 1 <=? Z.of_nat n))%Z with true
    by (symmetry; apply andb_true_iff; split; apply Z.leb_le; lia).
  replace ((0 <=? m) && (m <=? Z.of_nat n))%Z with true
    by (symmetry; apply andb_true_iff; split; apply Z.leb_le; lia).
  cbn [lutEntry entry_length entry_t num_sub num_eq].
  rewrite Reqb_false by lra.
  rewrite num_div_Num by lra.
  reflexivity.
Qed.

Lemma frac_bounds (a b tau : R) :
  (a < tau <= b)%R -> (0 < (tau - a) / (b - a) <= 1)%R.
Proof.
  intros H.
  assert (Hx : ((tau - a) / (b - a) * (b - a) = tau - a)%R) by (field; lra).
  split.
  - destruct (Rlt_dec 0 ((tau - a) / (b - a))); [assumption|nra].
  - destruct (Rle_dec ((tau - a) / (b - a)) 1); [assumption|nra].
Qed.

Lemma frac_mono (a b tau1 tau2 : R) :
  (a < b)%R -> (tau1 <= tau2)%R ->
  ((tau1 - a) / (b - a) <= (tau2 - a) / (b - a))%R.
Proof.
  intros Hab H.
  assert (H1 : ((tau1 - a) / (b - a) * (b - a) = tau1 - a)%R) by (field; lra).
  assert (H2 : ((tau2 - a) / (b - a) * (b - a) = tau2 - a)%R) by (field; lra).
  destruct (Rle_dec ((tau1 - a) / (b - a)) ((tau2 - a) / (b - a)));
    [assumption|nra].
Qed.

Lemma sample_step (n m : nat) :
  (0 < n)%nat ->
  (INR (S m) * (1 / INR n) - INR m * (1 / INR n) = 1 / INR n)%R
  /\ (0 < 1 / INR n)%R.
Proof.
  intros Hn.
  assert (0 < INR n)%R by (apply lt_0_INR; lia).
  split; [rewrite S_INR; field; lra|].
  apply Rdiv_lt_0_compat; lra.
Qed.

Lemma sample_unit (n m : nat) :
  (0 < n)%nat -> (m <= n)%nat -> (0 <= INR m * (1 / INR n) <= 1)%R.
Proof.
  intros Hn Hm.
  assert (Hpos : (0 < INR n)%R) by (apply lt_0_INR; lia).
  assert (Hle : (INR m <= INR n)%R) by (apply le_INR; lia).
  assert (H0 : (0 <= INR m)%R) by apply pos_INR.
  assert (Hx : (INR m * (1 / INR n) * INR n = INR m)%R) by (field; lra).
  split.
  - destruct (Rle_dec 0 (INR m * (1 / INR n))); [assumption|nra].
  - destruct (Rle_dec (INR m * (1 / INR n)) 1); [assumption|nra].
Qed.

(** [lengthToParameter] on the closed form of a table, for every finite
    target. *)
Lemma lengthToParameter_cases (curve : BezierCurve) (n : nat) (rho tau : R) :
  (0 < n)%nat ->
  exists v : R,
    lengthToParameter
      {| lut_entries := List.map (lutEntry curve n) (seq 0 (S n));
         lut_totalLength := Num (lutLength curve n n);
         lut_resolution := Num rho |} (Num tau)
    = Some (Num v)
    /\ (0 <= v <= 1)%R
    /\ ((tau <= 0)%R -> v = 0%R)
    /\ ((0 < tau)%R -> (lutLength curve n n <= tau)%R -> v = 1%R)
    /\ ((0 < tau < lutLength curve n n)%R ->
        exists m : nat,
          (m < n)%nat
          /\ (lutLength curve n m < tau <= lutLength curve n (S m))%R
          /\ v = (INR m * (1 / INR n)
                  + (tau - lutLength curve n m)
                    / (lutLength curve n (S m) - lutLength curve n m)
                    * (1 / INR n))%R
          /\ (INR m * (1 / INR n) <= v <= INR (S m) * (1 / INR n))%R).
Proof.
  intros Hn.
  destruct (Rle_dec tau 0) as [H0|H0].
  { exists 0%R; unfold lengthToParameter; cbn [num_le].
    rewrite Rleb_true by assumption.
    repeat split; intros; try lra; reflexivity. }
  destruct (Rle_dec (lutLength curve n n) tau) as [H1|H1].
  { exists 1%R; unfold lengthToParameter, num_ge; cbn [lut_totalLength num_le].
    rewrite Rleb_false, Rleb_true by lra.
    repeat split; intros; try lra; reflexivity. }
  destruct (@lengthToParameter_interp curve n rho tau Hn) as (m & Hm & Hb & Hv);
    [lra|].
  destruct (sample_step m Hn) as [Hstep Hdt].
  pose proof (frac_bounds Hb) as Hfrac.
  pose proof (@sample_unit n m Hn) as Hm0.
  pose proof (@sample_unit n (S m) Hn) as Hm1.
  set (f := ((tau - lutLength curve n m)
             / (lutLength curve n (S m) - lutLength curve n m))%R) in *.
  assert (Hbetween :
            (INR m * (1 / INR n) <= INR m * (1 / INR n) + f * (1 / INR n)
             <= INR (S m) * (1 / INR n))%R) by nra.
  eexists; split; [exact Hv|].
  rewrite Hstep.
  split; [specialize (Hm0 ltac:(lia)); specialize (Hm1 ltac:(lia)); lra|].
  split; [intros; lra|]. split; [intros; lra|].
  intros _; exists m; repeat split; try assumption; lra.
Qed.

Lemma inBox_finiteCurve (curve : BezierCurve) (xlo xhi ylo yhi : R) :
  Forall (inBox xlo xhi ylo yhi) (controlPoints curve) -> finiteCurve curve.
Proof.
  assert (Hpt : forall p, inBox xlo xhi ylo yhi p -> finitePoint p)
    by (intros p (a & b & -> & _); split; exact I).
  intros Hbox; destruct curve as [c|q]; cbn [controlPoints] in Hbox;
    repeat match goal with
           | H : Forall _ (_ :: _) |- _ => inversion_clear H
           end;
    cbn [finiteCurve]; unfold finiteCubic, finiteQuadratic; auto.
Qed.

(** The table [createBezierLUT] returns for a curve whose coordinates
    are at most [2^500] in magnitude (no square of a difference
    overflows), at a finite resolution: [n + 1] entries for some
    [n >= 10]; the first entry is the start point at [t = 0] with length
    0; the last entry carries the total length, which is the chord sum
    [bezierArcLength(curve, n)] over the same [n] steps; parameters
    increase and cumulative lengths never decrease from one entry to the
    next. *)
Theorem createBezierLUT_shape
    (fuel : nat) (curve : BezierCurve) (resolution : R) (lut : PathLUT) :
  Forall (inBox (- 2 ^ 500) (2 ^ 500) (- 2 ^ 500) (2 ^ 500)) (controlPoints curve) ->
  (S (lutSamples curve resolution) < fuel)%nat ->
  createBezierLUT fuel curve (Num resolution) = Some lut ->
  exists (n : nat) (e0 en : LUTEntry),
    List.length (lut_entries lut) = S n /\ (10 <= n)%nat
    /\ bezierArcLength fuel curve (of_nat n) = Some (lut_totalLength lut)
    /\ nth_error (lut_entries lut) 0 = Some e0
    /\ entry_t e0 = Num 0 /\ entry_point e0 = curveStart curve
    /\ entry_length e0 = Num 0
    /\ nth_error (lut_entries lut) n = Some en
    /\ entry_length en = lut_totalLength lut
    /\ (forall i e1 e2,
          nth_error (lut_entries lut) i = Some e1 ->
          nth_error (lut_entries lut) (S i) = Some e2 ->
          (entry_t e1 <? entry_t e2) = true
          /\ (entry_length e1 <=? entry_length e2) = true).
Proof.
  intros Hbox Hfuel Hlut.
  pose proof (@inBox_finiteCurve _ _ _ _ _ Hbox) as Hfin.
  pose proof (lutSamples_ge curve resolution) as Hge.
  rewrite (@createBezierLUT_spec fuel curve resolution Hfin Hfuel) in Hlut.
  apply Some_eq in Hlut; subst lut.
  set (n := lutSamples curve resolution) in *.
  assert (Hn0 : INR n <> 0%R) by (apply not_0_INR; lia).
  destruct (curve_ends curve Hfin) as [Hstart Hend].
  exists n, (lutEntry curve n 0), (lutEntry curve n n).
  cbn [lut_entries lut_totalLength].
  rewrite length_map, length_seq, !nth_error_lut.
  split; [reflexivity|]. split; [lia|].
  split; [rewrite bezierArcLength_coords by (assumption || lia); reflexivity|].
  split; [reflexivity|].
  split; [cbn [lutEntry entry_t]; apply Num_eq; simpl; ring|].
  split; [cbn [lutEntry entry_point]; rewrite Hstart; apply pt_eq; f_equal; simpl; ring|].
  split; [reflexivity|].
  split; [now rewrite Nat.leb_refl|].
  split; [reflexivity|].
  intros i e1 e2; rewrite !nth_error_lut.
  destruct (i <=? n)%nat; [|discriminate]; intros [= <-].
  destruct (S i <=? n)%nat eqn:E; [|discriminate]; intros [= <-].
  apply Nat.leb_le in E.
  destruct (@sample_step n i) as [Hstep Hdt]; [lia|].
  cbn [lutEntry entry_t entry_length num_lt num_le]; split.
  - apply Rltb_true; lra.
  - apply Rleb_true, lutLength_step.
Qed.

Lemma createBezierLUT_shape_witness :
  exists (lut : PathLUT) (n : nat) (e0 en : LUTEntry),
    createBezierLUT (S (S (lutSamples (Cubic cube_curve) 1)))
      (Cubic cube_curve) (Num 1) = Some lut
    /\ List.length (lut_entries lut) = S n /\ (10 <= n)%nat
    /\ nth_error (lut_entries lut) 0 = Some e0
    /\ entry_point e0 = pt 0 0
    /\ nth_error (lut_entries lut) n = Some en
    /\ entry_length en = lut_totalLength lut.
Proof.
  assert (Hpow : (0 < 2 ^ 500)%R) by (apply pow_lt; lra).
  assert (Hone : (1 <= 2 ^ 500)%R) by (apply pow_R1_Rle; lra).
  assert (Hbox : Forall (inBox (- 2 ^ 500) (2 ^ 500) (- 2 ^ 500) (2 ^ 500))
                   (controlPoints (Cubic cube_curve))).
  { repeat constructor; do 2 eexists; (split; [reflexivity|]); lra. }
  pose proof (@createBezierLUT_spec (S (S (lutSamples (Cubic cube_curve) 1)))
                (Cubic cube_curve) 1 (@inBox_finiteCurve _ _ _ _ _ Hbox) (Nat.lt_succ_diag_r _))
    as Hlut.
  destruct (@createBezierLUT_shape (S (S (lutSamples (Cubic cube_curve) 1)))
              (Cubic cube_curve) 1 _ Hbox (Nat.lt_succ_diag_r _) Hlut)
    as (n & e0 & en & H).
  eexists; exists n, e0, en; split; [exact Hlut|]; tauto.
Defined.

Lemma cube_curve_length (n : nat) :
  (0 < n)%nat -> (1 <= lutLength (Cubic cube_curve) n n)%R.
Proof.
  intros Hn.
  pose proof (@polyline_ge_chord (curveX (Cubic cube_curve))
                (curveY (Cubic cube_curve)) n Hn) as H.
  assert (Hc : seglen (curveX (Cubic cube_curve)) (curveY (Cubic cube_curve)) 0 1
               = 1%R).
  { unfold seglen; apply sqrt_lem_1; simpl; unfold cubicPoly; lra. }
  rewrite Hc in H; exact H.
Qed.

(** [lengthToParameter] on a table built by [createBezierLUT] from a
    well-formed curve returns a parameter in [0,1] for every finite
    target length, and is monotone: a longer target never gives a
    smaller parameter. *)
Theorem lengthToParameter_monotone
    (fuel : nat) (curve : BezierCurve) (resolution : R) (lut : PathLUT)
    (tau1 tau2 : R) :
  finiteCurve curve ->
  (S (lutSamples curve resolution) < fuel)%nat ->
  createBezierLUT fuel curve (Num resolution) = Some lut ->
  (tau1 <= tau2)%R ->
  exists v1 v2 : R,
    lengthToParameter lut (Num tau1) = Some (Num v1)
    /\ lengthToParameter lut (Num tau2) = Some (Num v2)
    /\ (0 <= v1 <= v2)%R /\ (v2 <= 1)%R.
Proof.
  intros Hfin Hfuel Hlut Htau.
  rewrite createBezierLUT_spec in Hlut by assumption.
  apply Some_eq in Hlut; subst lut.
  pose proof (lutSamples_ge curve resolution) as Hge.
  set (n := lutSamples curve resolution) in *.
  assert (Hn : (0 < n)%nat) by lia.
  destruct (@lengthToParameter_cases curve n resolution tau1 Hn)
    as (v1 & Hv1 & Hr1 & Hz1 & Ho1 & Hi1).
  destruct (@lengthToParameter_cases curve n resolution tau2 Hn)
    as (v2 & Hv2 & Hr2 & Hz2 & Ho2 & Hi2).
  exists v1, v2; split; [exact Hv1|]. split; [exact Hv2|].
  split; [|lra]. split; [lra|].
  destruct (Rle_dec tau1 0) as [H1|H1]; [rewrite Hz1 by assumption; lra|].
  destruct (Rle_dec (lutLength curve n n) tau2) as [H2|H2];
    [rewrite Ho2 by lra; lra|].
  destruct Hi1 as (m1 & Hm1 & Hb1 & Hv1' & Hbt1); [lra|].
  destruct Hi2 as (m2 & Hm2 & Hb2 & Hv2' & Hbt2); [lra|].
  destruct (Nat.lt_trichotomy m1 m2) as [Hlt|[Heq|Hgt]].
  - assert (INR (S m1) <= INR m2)%R by (apply le_INR; lia).
    destruct (@sample_step n 0 Hn) as [_ Hdt].
    assert (INR (S m1) * (1 / INR n) <= INR m2 * (1 / INR n))%R
      by (apply Rmult_le_compat_r; lra).
    lra.
  - subst m2; rewrite Hv1', Hv2'.
    destruct (@sample_step n 0 Hn) as [_ Hdt].
    assert (Hf : ((tau1 - lutLength curve n m1)
                  / (lutLength curve n (S m1) - lutLength curve n m1)
                  <= (tau2 - lutLength curve n m1)
                     / (lutLength curve n (S m1) - lutLength curve n m1))%R)
      by (apply frac_mono; lra).
    apply Rplus_le_compat_l, Rmult_le_compat_r; lra.
  - pose proof (@lutLength_mono curve n (S m2) m1 ltac:(lia)); lra.
Qed.

Lemma lengthToParameter_monotone_witness :
  exists (lut : PathLUT) (v1 v2 : R),
    createBezierLUT (S (S (lutSamples (Cubic cube_curve) 1)))
      (Cubic cube_curve) (Num 1) = Some lut
    /\ lengthToParameter lut (Num (1 / 4)) = Some (Num v1)
    /\ lengthToParameter lut (Num (3 / 4)) = Some (Num v2)
    /\ (0 <= v1 <= v2)%R /\ (v2 <= 1)%R.
Proof.
  assert (Hfin : finiteCurve (Cubic cube_curve))
    by (simpl; unfold finiteCubic, finitePoint; simpl; tauto).
  pose proof (@createBezierLUT_spec _ (Cubic cube_curve) 1 Hfin
                (Nat.lt_succ_diag_r (S (lutSamples (Cubic cube_curve) 1)))) as Hlut.
  assert (Htau : (1 / 4 <= 3 / 4)%R) by lra.
  destruct (@lengthToParameter_monotone _ _ _ _ _ _ Hfin (Nat.lt_succ_diag_r _) Hlut Htau)
    as (v1 & v2 & H).
  eexists; exists v1, v2; split; [exact Hlut | exact H].
Defined.

(** For a target strictly between 0 and the total length,
    [lengthToParameter] finds the two consecutive entries whose
    cumulative lengths bracket the target, [l1 < target <= l2], and
    returns the linear interpolation of their parameters, which lies
    between them. *)
Theorem lengthToParameter_between_samples
    (fuel : nat) (curve : BezierCurve) (resolution : R) (lut : PathLUT)
    (total tau : R) :
  finiteCurve curve ->
  (S (lutSamples curve resolution) < fuel)%nat ->
  createBezierLUT fuel curve (Num resolution) = Some lut ->
  lut_totalLength lut = Num total ->
  (0 < tau < total)%R ->
  exists (i : nat) (e1 e2 : LUTEntry) (t1 t2 l1 l2 : R),
    nth_error (lut_entries lut) i = Some e1
    /\ nth_error (lut_entries lut) (S i) = Some e2
    /\ entry_t e1 = Num t1 /\ entry_t e2 = Num t2
    /\ entry_length e1 = Num l1 /\ entry_length e2 = Num l2
    /\ (l1 < tau <= l2)%R
    /\ lengthToParameter lut (Num tau)
       = Some (Num (t1 + (tau - l1) / (l2 - l1) * (t2 - t1)))
    /\ (t1 <= t1 + (tau - l1) / (l2 - l1) * (t2 - t1) <= t2)%R.
Proof.
  intros Hfin Hfuel Hlut Htotal Htau.
  rewrite createBezierLUT_spec in Hlut by assumption.
  apply Some_eq in Hlut; subst lut.
  pose proof (lutSamples_ge curve resolution) as Hge.
  set (n := lutSamples curve resolution) in *.
  assert (Hn : (0 < n)%nat) by lia.
  cbn [lut_totalLength] in Htotal; apply Num_injective in Htotal; subst total.
  destruct (@lengthToParameter_interp curve n resolution tau Hn Htau)
    as (m & Hm & Hb & Hv).
  destruct (sample_step m Hn) as [Hstep Hdt].
  pose proof (frac_bounds Hb) as Hfrac.
  exists m, (lutEntry curve n m), (lutEntry curve n (S m)).
  do 4 eexists; cbn [lut_entries]; rewrite !nth_error_lut.
  replace (m <=? n)%nat with true by (symmetry; apply Nat.leb_le; lia).
  replace (S m <=? n)%nat with true by (symmetry; apply Nat.leb_le; lia).
  do 6 (split; [reflexivity|]).
  split; [exact Hb|]. split; [exact Hv|].
  rewrite Hstep; nra.
Qed.

Lemma lengthToParameter_between_samples_witness :
  exists (lut : PathLUT) (total : R) (i : nat) (e1 e2 : LUTEntry) (t1 t2 l1 l2 : R),
    createBezierLUT (S (S (lutSamples (Cubic cube_curve) 1)))
      (Cubic cube_curve) (Num 1) = Some lut
    /\ lut_totalLength lut = Num total
    /\ (0 < 1 / 2 < total)%R
    /\ nth_error (lut_entries lut) i = Some e1
    /\ nth_error (lut_entries lut) (S i) = Some e2
    /\ entry_t e1 = Num t1 /\ entry_t e2 = Num t2
    /\ entry_length e1 = Num l1 /\ entry_length e2 = Num l2
    /\ (l1 < 1 / 2 <= l2)%R
    /\ lengthToParameter lut (Num (1 / 2))
       = Some (Num (t1 + (1 / 2 - l1) / (l2 - l1) * (t2 - t1))).
Proof.
  assert (Hfin : finiteCurve (Cubic cube_curve))
    by (simpl; unfold finiteCubic, finitePoint; simpl; tauto).
  pose proof (@createBezierLUT_spec _ (Cubic cube_curve) 1 Hfin
                (Nat.lt_succ_diag_r (S (lutSamples (Cubic cube_curve) 1)))) as Hlut.
  pose proof (lutSamples_ge (Cubic cube_curve) 1) as Hge.
  pose proof (@cube_curve_length (lutSamples (Cubic cube_curve) 1) ltac:(lia)) as Hlong.
  assert (Htau : (0 < 1 / 2
                  < lutLength (Cubic cube_curve) (lutSamples (Cubic cube_curve) 1)
                      (lutSamples (Cubic cube_curve) 1))%R) by lra.
  destruct (@lengthToParameter_between_samples _ _ _ _ _ _ Hfin
              (Nat.lt_succ_diag_r _) Hlut eq_refl Htau)
    as (i & e1 & e2 & t1 & t2 & l1 & l2 & H).
  eexists; eexists; exists i, e1, e2, t1, t2, l1, l2.
  split; [exact Hlut|]. split; [reflexivity|]. split; [exact Htau|]. tauto.
Defined.

(** Round trip at a sample: when an entry's cumulative length is
    strictly greater than the one before it and less than the total
    length, [lengthToParameter] at that length returns the entry's own
    parameter. *)
Theorem lengthToParameter_at_sample
    (fuel : nat) (curve : BezierCurve) (resolution : R) (lut : PathLUT)
    (i : nat) (e1 e2 : LUTEntry) :
  finiteCurve curve ->
  (S (lutSamples curve resolution) < fuel)%nat ->
  createBezierLUT fuel curve (Num resolution) = Some lut ->
  nth_error (lut_entries lut) i = Some e1 ->
  nth_error (lut_entries lut) (S i) = Some e2 ->
  (entry_length e1 <? entry_length e2) = true ->
  (entry_length e2 <? lut_totalLength lut) = true ->
  lengthToParameter lut (entry_length e2) = Some (entry_t e2).
Proof.
  intros Hfin Hfuel Hlut He1 He2 Hstrict Hbelow.
  rewrite createBezierLUT_spec in Hlut by assumption.
  apply Some_eq in Hlut; subst lut.
  pose proof (lutSamples_ge curve resolution) as Hge.
  set (n := lutSamples curve resolution) in *.
  assert (Hn : (0 < n)%nat) by lia.
  cbn [lut_entries] in He1, He2; rewrite nth_error_lut in He1, He2.
  destruct (i <=? n)%nat; [|discriminate]; injection He1 as <-.
  destruct (S i <=? n)%nat eqn:E; [|discriminate]; injection He2 as <-.
  apply Nat.leb_le in E.
  cbn [lutEntry entry_length entry_t lut_totalLength num_lt] in *.
  assert (Hs : (lutLength curve n i < lutLength curve n (S i))%R)
    by (unfold Rltb in Hstrict; destruct (Rlt_dec _ _); [assumption|discriminate]).
  assert (Hb : (lutLength curve n (S i) < lutLength curve n n)%R)
    by (unfold Rltb in Hbelow; destruct (Rlt_dec _ _); [assumption|discriminate]).
  pose proof (@lutLength_mono curve n 0 i ltac:(lia)) as H0.
  change (lutLength curve n 0) with 0%R in H0.
  destruct (@lengthToParameter_interp curve n resolution (lutLength curve n (S i)) Hn)
    as (m & Hm & Hbr & Hv); [lra|].
  assert (m = i).
  { destruct (Nat.lt_trichotomy m i) as [Hlt|[Heq|Hgt]]; [|assumption|].
    - pose proof (@lutLength_mono curve n (S m) i ltac:(lia)); lra.
    - pose proof (@lutLength_mono curve n (S i) m ltac:(lia)); lra. }
  subst m; rewrite Hv; do 2 f_equal.
  destruct (sample_step i Hn) as [Hstep Hdt].
  rewrite Hstep, S_INR; field.
  split; [apply not_0_INR; lia | lra].
Qed.

Lemma cube_curve_first_step (n : nat) :
  (10 <= n)%nat -> (0 < lutLength (Cubic cube_curve) n 1 < 1)%R.
Proof.
  intros Hn.
  assert (Hpos : (10 <= INR n)%R).
  { replace 10%R with (INR 10) by (simpl; lra). apply le_INR; lia. }
  assert (Hdt : (0 < 1 / INR n <= 1 / 10)%R).
  { assert (1 / INR n * INR n = 1)%R by (field; lra).
    split.
    - apply Rdiv_lt_0_compat; lra.
    - destruct (Rle_dec (1 / INR n) (1 / 10)); [assumption|nra]. }
  set (d := (1 / INR n)%R) in *.
  assert (Hd3 : (0 < d * d * d < 1)%R).
  { assert (0 < d * d <= 1 / 100)%R by nra. nra. }
  unfold lutLength, sumR, seglen; simpl INR; fold d.
  rewrite (@sqrt_of_square _ _ (d * d * d));
    [lra | lra | simpl; unfold cubicPoly; ring].
Qed.

Lemma lengthToParameter_at_sample_witness :
  let n := lutSamples (Cubic cube_curve) 1 in
  exists lut : PathLUT,
    createBezierLUT (S (S n)) (Cubic cube_curve) (Num 1) = Some lut
    /\ nth_error (lut_entries lut) 1 = Some (lutEntry (Cubic cube_curve) n 1)
    /\ lengthToParameter lut (entry_length (lutEntry (Cubic cube_curve) n 1))
       = Some (entry_t (lutEntry (Cubic cube_curve) n 1)).
Proof.
  intros n.
  assert (Hfin : finiteCurve (Cubic cube_curve))
    by (simpl; unfold finiteCubic, finitePoint; simpl; tauto).
  pose proof (@createBezierLUT_spec _ (Cubic cube_curve) 1 Hfin
                (Nat.lt_succ_diag_r (S n))) as Hlut.
  pose proof (lutSamples_ge (Cubic cube_curve) 1) as Hge; fold n in Hge, Hlut.
  pose proof (@cube_curve_first_step n Hge) as Hfirst.
  pose proof (@cube_curve_length n ltac:(lia)) as Hlong.
  assert (H0 : nth_error (List.map (lutEntry (Cubic cube_curve) n) (seq 0 (S n))) 0
               = Some (lutEntry (Cubic cube_curve) n 0))
    by (rewrite nth_error_lut; reflexivity).
  assert (H1 : nth_error (List.map (lutEntry (Cubic cube_curve) n) (seq 0 (S n))) 1
               = Some (lutEntry (Cubic cube_curve) n 1)).
  { rewrite nth_error_lut.
    now replace (1 <=? n)%nat with true by (symmetry; apply Nat.leb_le; lia). }
  eexists; split; [exact Hlut|]. split; [exact H1|].
  apply (@lengthToParameter_at_sample (S (S n)) (Cubic cube_curve) 1 _ 0
           (lutEntry (Cubic cube_curve) n 0) (lutEntry (Cubic cube_curve) n 1)
           Hfin (Nat.lt_succ_diag_r _) Hlut H0 H1).
  - cbn [lutEntry entry_length num_lt]; apply Rltb_true.
    change (lutLength (Cubic cube_curve) n 0) with 0%R; lra.
  - cbn [lutEntry entry_length lut_totalLength num_lt]; apply Rltb_true; lra.
Defined.

(** ** The path parser, continued *)


Lemma continuous_app (cur : Point) (a b : list PathSegment) :
  continuous cur (a ++ b) <-> continuous cur a /\ continuous (anchorAfter cur a) b.
Proof.
  revert cur; induction a as [|seg a IH]; intros cur; simpl; [tauto|].
  rewrite IH; unfold anchorAfter; simpl; tauto.
Qed.

Lemma anchorAfter_app (cur : Point) (a b : list PathSegment) :
  anchorAfter cur (a ++ b) = anchorAfter (anchorAfter cur a) b.
Proof. unfold anchorAfter; apply fold_left_app. Qed.

(** Pushing a segment that has the parser's shape, starts (if it is a
    curve) at the current point, and whose anchor is the new current
    point. *)
Lemma push_parsed (st : ParseState) (seg : PathSegment) (p : Point)
    (l : option Point) :
  parsedState st ->
  parsedShape seg ->
  match curve seg with
  | Some c => curveStart c = st_currentPoint st
  | None => True
  end ->
  anchorOf (st_currentPoint st) seg = p ->
  parsedState (push st seg p l).
Proof.
  intros (Hshape & Hcont & Hcur) Hseg Hstart Hanchor.
  unfold parsedState, push; cbn [st_segments st_currentPoint].
  split; [apply Forall_app; split; [assumption | now constructor]|].
  split.
  - apply continuous_app; split; [assumption|].
    rewrite <- Hcur; simpl; split; [|exact I].
    destruct (curve seg); assumption.
  - rewrite anchorAfter_app, <- Hcur; simpl; now symmetry.
Qed.

Lemma parseCommand_parsed (st : ParseState) (command : Command) :
  parsedState st -> parsedState (parseCommand st command).
Proof.
  intros Hst; unfold parseCommand.
  repeat
    match goal with
    | |- parsedState (if ?b then _ else _) => destruct b
    end;
    try assumption;
    try (apply for_index_invariant; [|assumption];
         intros i s Hs; apply push_parsed; [assumption | | |];
         [ unfold parsedShape; cbn [type points curve];
           try destruct (i =? 0)%nat; eauto
         | cbn [curve curveStart start qstart]; auto
         | reflexivity ]).
  apply push_parsed; [assumption | | exact I | reflexivity].
  unfold parsedShape; simpl; auto.
Qed.

Lemma parsePathData_parsed (pathString : list N) :
  Forall parsedShape (parsePathData pathString)
  /\ continuous (pt 0 0) (parsePathData pathString).
Proof.
  unfold parsePathData.
  assert (H : forall cmds st, parsedState st ->
                              parsedState (fold_left parseCommand cmds st)).
  { induction cmds as [|c cmds IH]; intros st Hst; simpl; [assumption|].
    apply IH, parseCommand_parsed, Hst. }
  destruct (H (tokenizePath pathString)
              {| st_segments := [];
                 st_currentPoint := {| x := Num 0; y := Num 0 |};
                 st_lastControlPoint := None |}) as (H1 & H2 & _);
    [|split; assumption].
  split; [constructor | split; [exact I | reflexivity]].
Qed.

(** Normalization of a parsed sequence: it succeeds, leaves no
    quadratic, and keeps every anchor and every curve start. *)
Lemma normalize_parsed (segs : list PathSegment) :
  Forall parsedShape segs ->
  exists r,
    normalizeToCubicBeziers segs = Some r
    /\ Forall normalizedShape r
    /\ (forall cur, continuous cur segs -> continuous cur r)
    /\ anchors r = anchors segs.
Proof.
  induction 1 as [|seg segs Hseg _ (r & Hr & Hshape & Hcont & Hanch)].
  - exists []; repeat split; auto.
  - destruct seg as [ty pts cv]; unfold parsedShape in Hseg; cbn in Hseg.
    cbn [normalizeToCubicBeziers type curve]; rewrite Hr.
    destruct ty.
    + destruct Hseg as [[p ->] ->].
      eexists; split; [reflexivity|].
      split; [constructor; [unfold normalizedShape; simpl; eauto | assumption]|].
      split; [intros cur [H1 H2]; split; [exact H1 | apply Hcont, H2]|].
      unfold anchors in *; simpl; now rewrite Hanch.
    + destruct Hseg as [[p ->] ->].
      eexists; split; [reflexivity|].
      split; [constructor; [unfold normalizedShape; simpl; eauto | assumption]|].
      split; [intros cur [H1 H2]; split; [exact H1 | apply Hcont, H2]|].
      unfold anchors in *; simpl; now rewrite Hanch.
    + destruct Hseg as (c & -> & ->).
      eexists; split; [reflexivity|].
      split; [constructor; [unfold normalizedShape; simpl; eauto | assumption]|].
      split; [intros cur [H1 H2]; split; [exact H1 | apply Hcont, H2]|].
      unfold anchors in *; simpl; now rewrite Hanch.
    + destruct Hseg as (q & -> & ->).
      eexists; split; [reflexivity|].
      split; [constructor; [unfold normalizedShape; simpl; eauto | assumption]|].
      split; [intros cur [H1 H2]; split; [exact H1 | apply Hcont, H2]|].
      unfold anchors in *; simpl; now rewrite Hanch.
    + destruct Hseg as [-> ->].
      eexists; split; [reflexivity|].
      split; [constructor; [unfold normalizedShape; simpl; eauto | assumption]|].
      split; [intros cur [H1 H2]; split; [exact H1 | apply Hcont, H2]|].
      unfold anchors in *; simpl; now rewrite Hanch.
Qed.

(** Whatever the input string, the segments of [createPathData] are
    well formed: a move or a line carries exactly one point and no
    curve, a curve segment carries a cubic and exactly one point, the
    cubic's end, a close carries nothing, and no quadratic segment is
    left. *)
Theorem createPathData_segment_shapes (pathString : list N) :
  exists pd : PathData,
    createPathData pathString = Some pd
    /\ Forall normalizedShape (segments pd).
Proof.
  destruct (parsePathData_parsed pathString) as [Hshape _].
  destruct (normalize_parsed Hshape) as (r & Hr & Hnorm & _).
  unfold createPathData; rewrite Hr; eexists; split; [reflexivity | exact Hnorm].
Qed.

(** Whatever the input string, every curve of [createPathData] starts
    where the path stood before it: at the end point of the nearest
    earlier segment that has one, or at the origin when there is none.
    A close-path segment does not move that point. *)
Theorem createPathData_continuous (pathString : list N) :
  exists pd : PathData,
    createPathData pathString = Some pd
    /\ continuous (pt 0 0) (segments pd).
Proof.
  destruct (parsePathData_parsed pathString) as [Hshape Hcont].
  destruct (normalize_parsed Hshape) as (r & Hr & _ & Hkeep & _).
  unfold createPathData; rewrite Hr; eexists; split; [reflexivity|].
  apply Hkeep, Hcont.
Qed.

Lemma boundsStep_extend (b : Bounds) (seg : PathSegment) :
  boundsStep b seg = fold_left extendBounds (boundedPoints seg) b.
Proof.
  unfold boundsStep, boundedPoints; rewrite fold_left_app.
  destruct (curve seg) as [[c|q]|]; reflexivity.
Qed.

Lemma fold_boundsStep (segs : list PathSegment) (b : Bounds) :
  fold_left boundsStep segs b
  = fold_left extendBounds (flat_map boundedPoints segs) b.
Proof.
  revert b; induction segs as [|seg segs IH]; intros b; simpl; [reflexivity|].
  now rewrite fold_left_app, IH, boundsStep_extend.
Qed.

(** Taking finite points into a finite box: the box only grows, holds
    every point taken in, and each side rests on the old box or on one
    of the points. *)
Lemma extendBounds_finite (l : list Point) :
  Forall finitePoint l ->
  forall x0 y0 x1 y1 : R,
  exists x0' y0' x1' y1' : R,
    fold_left extendBounds l (mkBounds (Num x0) (Num y0) (Num x1) (Num y1))
    = mkBounds (Num x0') (Num y0') (Num x1') (Num y1')
    /\ (x0' <= x0)%R /\ (y0' <= y0)%R /\ (x1 <= x1')%R /\ (y1 <= y1')%R
    /\ Forall (inBox x0' x1' y0' y1') l
    /\ (x0' = x0 \/ Exists (fun p => x p = Num x0') l)
    /\ (y0' = y0 \/ Exists (fun p => y p = Num y0') l)
    /\ (x1' = x1 \/ Exists (fun p => x p = Num x1') l)
    /\ (y1' = y1 \/ Exists (fun p => y p = Num y1') l).
Proof.
  induction 1 as [|p l Hp _ IH]; intros x0 y0 x1 y1.
  - exists x0, y0, x1, y1; simpl.
    split; [reflexivity|]. repeat split; try lra; auto.
  - apply finitePoint_pt in Hp as (a & b & ->).
    cbn [fold_left]; unfold extendBounds at 2; cbn [minX minY maxX maxY x y pt].
    rewrite !Math_min_Num, !Math_max_Num.
    destruct (IH (Rmin x0 a) (Rmin y0 b) (Rmax x1 a) (Rmax y1 b))
      as (x0' & y0' & x1' & y1' & Hfold & Hx0 & Hy0 & Hx1 & Hy1 & Hbox
          & Tx0 & Ty0 & Tx1 & Ty1).
    pose proof (Rmin_l x0 a); pose proof (Rmin_r x0 a).
    pose proof (Rmin_l y0 b); pose proof (Rmin_r y0 b).
    pose proof (Rmax_l x1 a); pose proof (Rmax_r x1 a).
    pose proof (Rmax_l y1 b); pose proof (Rmax_r y1 b).
    exists x0', y0', x1', y1'; split; [exact Hfold|].
    split; [lra|]. split; [lra|]. split; [lra|]. split; [lra|].
    split.
    { constructor; [|assumption].
      exists a, b; split; [reflexivity|]; split; lra. }
    split; [|split; [|split]].
    + destruct Tx0 as [->|T]; [|right; now constructor 2].
      unfold Rmin; destruct (Rle_dec x0 a); [now left|right; now constructor].
    + destruct Ty0 as [->|T]; [|right; now constructor 2].
      unfold Rmin; destruct (Rle_dec y0 b); [now left|right; now constructor].
    + destruct Tx1 as [->|T]; [|right; now constructor 2].
      unfold Rmax; destruct (Rle_dec x1 a); [right; now constructor|now left].
    + destruct Ty1 as [->|T]; [|right; now constructor 2].
      unfold Rmax; destruct (Rle_dec y1 b); [right; now constructor|now left].
Qed.

(** On segments whose points and control points are finite,
    [calculatePathBounds] returns a finite box that holds every point
    and every inner control point of every segment; it is (0,0,0,0) when
    there is none, and otherwise the smallest such box: each side passes
    through one of the points. *)
Theorem calculatePathBounds_contains (segs : list PathSegment) :
  Forall finitePoint (flat_map boundedPoints segs) ->
  exists x0 y0 x1 y1 : R,
    calculatePathBounds segs = mkBounds (Num x0) (Num y0) (Num x1) (Num y1)
    /\ (x0 <= x1)%R /\ (y0 <= y1)%R
    /\ Forall (inBox x0 x1 y0 y1) (flat_map boundedPoints segs)
    /\ (flat_map boundedPoints segs = [] ->
        x0 = 0%R /\ y0 = 0%R /\ x1 = 0%R /\ y1 = 0%R)
    /\ (flat_map boundedPoints segs <> [] ->
        Exists (fun p => x p = Num x0) (flat_map boundedPoints segs)
        /\ Exists (fun p => y p = Num y0) (flat_map boundedPoints segs)
        /\ Exists (fun p => x p = Num x1) (flat_map boundedPoints segs)
        /\ Exists (fun p => y p = Num y1) (flat_map boundedPoints segs)).
Proof.
  intros Hfin; unfold calculatePathBounds; rewrite fold_boundsStep.
  destruct (flat_map boundedPoints segs) as [|p l].
  - exists 0%R, 0%R, 0%R, 0%R; simpl.
    split; [reflexivity|]. repeat split; try lra; auto; congruence.
  - inversion_clear Hfin as [|? ? Hp Hl].
    apply finitePoint_pt in Hp as (a & b & ->).
    destruct (extendBounds_finite Hl a b a b)
      as (x0 & y0 & x1 & y1 & Hfold & Hx0 & Hy0 & Hx1 & Hy1 & Hbox
          & Tx0 & Ty0 & Tx1 & Ty1).
    cbn [fold_left].
    change (extendBounds {| minX := PInf; minY := PInf; maxX := NInf; maxY := NInf |}
              (pt a b))
      with (mkBounds (Num a) (Num b) (Num a) (Num b)).
    rewrite Hfold; cbn [minX minY maxX maxY num_eq].
    exists x0, y0, x1, y1; split; [reflexivity|].
    split; [lra|]. split; [lra|].
    split.
    { constructor; [|assumption].
      exists a, b; split; [reflexivity|]; split; lra. }
    split; [discriminate|]. intros _.
    split; [|split; [|split]].
    + destruct Tx0 as [->|T]; [now constructor | now constructor 2].
    + destruct Ty0 as [->|T]; [now constructor | now constructor 2].
    + destruct Tx1 as [->|T]; [now constructor | now constructor 2].
    + destruct Ty1 as [->|T]; [now constructor | now constructor 2].
Qed.

Lemma calculatePathBounds_contains_witness :
  exists x0 y0 x1 y1 : R,
    calculatePathBounds
      [ mkSegment SegM [pt 1 2] None;
        mkSegment SegQ [pt 7 2]
          (Some (Quadratic (mkQuadratic (pt 1 2) (pt 4 (-3)) (pt 7 2)))) ]
    = mkBounds (Num x0) (Num y0) (Num x1) (Num y1)
    /\ (x0 <= x1)%R /\ (y0 <= y1)%R
    /\ Forall (inBox x0 x1 y0 y1) [pt 1 2; pt 7 2; pt 4 (-3)].
Proof.
  destruct (@calculatePathBounds_contains
              [ mkSegment SegM [pt 1 2] None;
                mkSegment SegQ [pt 7 2]
                  (Some (Quadratic (mkQuadratic (pt 1 2) (pt 4 (-3)) (pt 7 2)))) ])
    as (x0 & y0 & x1 & y1 & H).
  - simpl; repeat constructor.
  - exists x0, y0, x1, y1; simpl in H; tauto.
Defined.

Lemma regexMatches_letters (s : list N) (c : N) (rest : list N) :
  In (c, rest) (snd (regexMatches s)) -> isCommandLetter c = true.
Proof.
  induction s as [|d s IH]; simpl; [contradiction|].
  destruct (regexMatches s) as [pre ms]; simpl in IH.
  destruct (isCommandLetter d) eqn:E; simpl; [|exact IH].
  intros [[= <- _]|H]; [exact E | now apply IH].
Qed.

Lemma regexMatches_count (s : list N) :
  List.length (snd (regexMatches s)) = List.length (filter isCommandLetter s).
Proof.
  induction s as [|d s IH]; simpl; [reflexivity|].
  destruct (regexMatches s) as [pre ms]; simpl in IH.
  destruct (isCommandLetter d); simpl; now rewrite IH.
Qed.

Lemma splitSeparators_nonempty (s : list N) : splitSeparators s <> [].
Proof.
  induction s as [|c s IH]; simpl; [discriminate|].
  destruct (isSeparator c).
  - destruct s as [|d s]; [discriminate|].
    destruct (isSeparator d); [exact IH | discriminate].
  - destruct (splitSeparators s); discriminate.
Qed.

Lemma flat_map_length_le {A B : Type} (f : A -> list B) (l : list A) :
  (forall a, (List.length (f a) <= 1)%nat) ->
  (List.length (flat_map f l) <= List.length l)%nat.
Proof.
  intros Hf; induction l as [|a l IH]; simpl; [lia|].
  rewrite length_app; specialize (Hf a); lia.
Qed.

(** Every command the tokenizer returns is named by one of the twenty
    command letters and has at least one argument unless it is a close
    path: a letter other than Z or z that is followed by no argument is
    dropped.  There are at most as many commands as command letters in
    the string. *)
Theorem tokenizePath_commands (pathString : list N) (cmd : Command) :
  In cmd (tokenizePath pathString) ->
  isCommandLetter (cmd_type cmd) = true
  /\ (args cmd = [] -> toUpperCase (cmd_type cmd) = chr "Z")
  /\ (List.length (tokenizePath pathString)
      <= List.length (filter isCommandLetter pathString))%nat.
Proof.
  unfold tokenizePath; intros H.
  apply in_flat_map in H as ([c rest] & Hin & H).
  apply regexMatches_letters in Hin.
  split; [|split].
  - destruct (trim rest) as [|d argsString].
    + destruct (_ =? _)%N; [|contradiction]. destruct H as [<-|[]]; exact Hin.
    + destruct H as [<-|[]]; exact Hin.
  - destruct (trim rest) as [|d argsString].
    + destruct (toUpperCase c =? chr "Z")%N eqn:E; [|contradiction].
      destruct H as [<-|[]]; intros _; now apply N.eqb_eq.
    + destruct H as [<-|[]]; cbn [args]; intros Hnil.
      apply map_eq_nil in Hnil; now apply splitSeparators_nonempty in Hnil.
  - rewrite <- regexMatches_count; apply flat_map_length_le.
    intros [c' rest']; destruct (trim rest');
      [destruct (toUpperCase c' =? chr "Z")%N|]; cbn [List.length]; lia.
Qed.

Lemma tokenizePath_commands_witness :
  tokenizePath (str "M 1 2 L Z H") = [mkCommand (chr "M") [Num 1; Num 2];
                                      mkCommand (chr "Z") []]
  /\ isCommandLetter (chr "Z") = true
  /\ (List.length (tokenizePath (str "M 1 2 L Z H")) <= 4)%nat.
Proof.
  assert (Hin : In (mkCommand (chr "Z") []) (tokenizePath (str "M 1 2 L Z H")))
    by (right; left; reflexivity).
  destruct (@tokenizePath_commands _ _ Hin) as (H1 & _ & H3).
  split; [reflexivity|]. split; [exact H1 | exact H3].
Defined.

(** ** Missing coordinates *)

Lemma for_index_done {St : Type} (step len : nat) (body : nat -> St -> St) :
  forall (fuel i : nat) (s : St),
    (len <= i)%nat -> for_index fuel step len body i s = s.
Proof.
  intros [|fuel] i s H; simpl; [reflexivity|].
  now replace (i <? len)%nat with false by (symmetry; apply Nat.ltb_ge; lia).
Qed.

(** A loop over a non-empty range ends with the body run on the last
    index of the stride. *)
Lemma for_index_last {St : Type} (step len : nat) (body : nat -> St -> St) :
  (0 < step)%nat ->
  forall (fuel i : nat) (s : St),
    (i < len)%nat -> (len <= i + fuel)%nat ->
    exists (q : nat) (s' : St),
      for_index fuel step len body i s = body (i + q * step)%nat s'
      /\ (i + q * step < len)%nat /\ (len <= i + q * step + step)%nat.
Proof.
  intros Hstep; induction fuel as [|fuel IH]; intros i s Hi Hfuel; [lia|].
  simpl; replace (i <? len)%nat with true by (symmetry; apply Nat.ltb_lt; lia).
  destruct (Nat.lt_ge_cases (i + step) len) as [Hmore|Hlast].
  - destruct (IH (i + step)%nat (body i s) Hmore ltac:(lia)) as (q & s' & Heq & H1 & H2).
    exists (S q), s'; rewrite Heq.
    replace (i + S q * step)%nat with (i + step + q * step)%nat by lia.
    repeat split; lia.
  - rewrite for_index_done by assumption.
    exists 0%nat, s; rewrite Nat.add_0_r; simpl; repeat split; lia.
Qed.

(** A move or line command with an odd number of arguments still
    pushes a segment for the dangling argument: the y of its point is
    the missing argument ([undefined] when the command is absolute, NaN
    when it is relative; NaN here, see [arg]), not 0, and that point
    becomes the current point. *)
Theorem dangling_coordinate (st : ParseState) (command : Command) :
  (toUpperCase (cmd_type command) = chr "M"
   \/ toUpperCase (cmd_type command) = chr "L") ->
  Nat.odd (List.length (args command)) = true ->
  let st' := parseCommand st command in
  y (st_currentPoint st') = NaN
  /\ exists (segs : list PathSegment) (ty : SegmentType),
       st_segments st' = segs ++ [mkSegment ty [st_currentPoint st'] None].
Proof.
  intros Hty Hodd st'; unfold st', parseCommand.
  set (n := List.length (args command)) in *.
  assert (Hn : (0 < n)%nat) by (destruct n; [discriminate|lia]).
  assert (Hnan : forall q, (0 + q * 2 < n)%nat -> (n <= 0 + q * 2 + 2)%nat ->
                           arg (args command) (0 + q * 2 + 1) = NaN).
  { intros q H1 H2; unfold arg; apply nth_overflow; fold n.
    assert (n <> 0 + q * 2 + 2)%nat; [|lia].
    intros Heq; rewrite Heq in Hodd.
    replace (0 + q * 2 + 2)%nat with (2 * (S q))%nat in Hodd by lia.
    rewrite Nat.odd_even in Hodd; discriminate. }
  assert (Hoff : forall rel cur a, y (offset rel cur a NaN) = NaN).
  { intros [|] cur a; simpl; [destruct (y cur)|]; reflexivity. }
  destruct Hty as [Hty|Hty]; rewrite Hty.
  - rewrite N.eqb_refl.
    match goal with
    | |- context [for_index n 2 n ?body 0%nat st] =>
        destruct (@for_index_last _ 2 n body ltac:(lia) n 0%nat st Hn ltac:(lia))
          as (q & s' & -> & H1 & H2)
    end.
    cbn [push st_currentPoint st_segments]; rewrite (Hnan q H1 H2).
    split; [apply Hoff|]. eauto.
  - replace (chr "L" =? chr "M")%N with false by reflexivity.
    rewrite N.eqb_refl.
    match goal with
    | |- context [for_index n 2 n ?body 0%nat st] =>
        destruct (@for_index_last _ 2 n body ltac:(lia) n 0%nat st Hn ltac:(lia))
          as (q & s' & -> & H1 & H2)
    end.
    cbn [push st_currentPoint st_segments]; rewrite (Hnan q H1 H2).
    split; [apply Hoff|]. eauto.
Qed.

Lemma dangling_coordinate_witness :
  let st := {| st_segments := []; st_currentPoint := pt 0 0;
               st_lastControlPoint := None |} in
  let st' := parseCommand st (mkCommand (chr "l") [Num 1; Num 2; Num 3]) in
  y (st_currentPoint st') = NaN
  /\ exists (segs : list PathSegment) (ty : SegmentType),
       st_segments st' = segs ++ [mkSegment ty [st_currentPoint st'] None].
Proof.
  intros st.
  apply (@dangling_coordinate st (mkCommand (chr "l") [Num 1; Num 2; Num 3]));
    [right; reflexivity | reflexivity].
Defined.

(** ** The table of easing functions *)

Lemma cube_mono (a b : R) : (0 <= a <= b)%R -> (a * a * a <= b * b * b)%R.
Proof.
  intros H.
  assert (a * a <= b * b)%R by nra.
  assert (0 <= a * a)%R by nra.
  nra.
Qed.

Lemma easeInOutCubic_value (a : R) :
  easeInOutCubic (Num a)
  = Num (if Rlt_dec a (1 / 2) then 4 * a * a * a
         else 1 - 4 * (1 - a) * (1 - a) * (1 - a))%R.
Proof.
  unfold easeInOutCubic; cbn [num_lt Math_pow num_neg num_mul num_add].
  unfold Rltb; destruct (Rlt_dec a (1 / 2)); [reflexivity|].
  rewrite num_div_Num by lra; cbn [num_sub].
  apply Num_eq; field.
Qed.

Lemma easeInOutCubic_mono (t u : R) :
  (0 <= t <= u)%R -> (u <= 1)%R ->
  exists a b : R,
    easeInOutCubic (Num t) = Num a /\ easeInOutCubic (Num u) = Num b
    /\ (0 <= a <= b)%R /\ (b <= 1)%R
    /\ (t = 0%R -> a = 0%R) /\ (u = 1%R -> b = 1%R).
Proof.
  intros Ht Hu; do 2 eexists; rewrite !easeInOutCubic_value.
  split; [reflexivity|]. split; [reflexivity|].
  pose proof (@cube_mono 0 t) as C0; pose proof (@cube_mono t u) as C1.
  pose proof (@cube_mono u (1 / 2)) as C2; pose proof (@cube_mono t (1 / 2)) as C3.
  pose proof (@cube_mono (1 - u) (1 - t)) as D1.
  pose proof (@cube_mono 0 (1 - u)) as D0.
  pose proof (@cube_mono (1 - u) (1 / 2)) as D2.
  pose proof (@cube_mono (1 - t) 1) as D3.
  destruct (Rlt_dec t (1 / 2)), (Rlt_dec u (1 / 2)); try lra;
    repeat split; intros; subst; try lra; try nra.
Qed.

Lemma easeInOutQuad_mono (t u : R) :
  (0 <= t <= u)%R -> (u <= 1)%R ->
  exists a b : R,
    (if Num t <? Num (1 / 2) then Num 2 * Num t * Num t
     else Num 1 - Math_pow (- Num 2 * Num t + Num 2) 2 / Num 2) = Num a
    /\ (if Num u <? Num (1 / 2) then Num 2 * Num u * Num u
        else Num 1 - Math_pow (- Num 2 * Num u + Num 2) 2 / Num 2) = Num b
    /\ (0 <= a <= b)%R /\ (b <= 1)%R
    /\ (t = 0%R -> a = 0%R) /\ (u = 1%R -> b = 1%R).
Proof.
  intros Ht Hu.
  assert (Hval : forall c : R,
             (if Num c <? Num (1 / 2) then Num 2 * Num c * Num c
              else Num 1 - Math_pow (- Num 2 * Num c + Num 2) 2 / Num 2)
             = Num (if Rlt_dec c (1 / 2) then 2 * c * c
                    else 1 - 2 * (1 - c) * (1 - c))%R).
  { intros c; cbn [num_lt Math_pow num_neg num_mul num_add].
    unfold Rltb; destruct (Rlt_dec c (1 / 2)); [reflexivity|].
    rewrite num_div_Num by lra; cbn [num_sub]; apply Num_eq; field. }
  do 2 eexists; rewrite !Hval.
  split; [reflexivity|]. split; [reflexivity|].
  destruct (Rlt_dec t (1 / 2)), (Rlt_dec u (1 / 2)); try lra;
    repeat split; intros; subst; try lra; try nra.
Qed.

(** Each of the eight predefined easing functions maps [0,1] into
    [0,1], never decreases on it, and fixes 0 and 1. *)
Theorem easings_unit_interval (name : list N) (f : num -> num) (t u : R) :
  In (name, f) easings ->
  (0 <= t <= u)%R -> (u <= 1)%R ->
  exists a b : R,
    f (Num t) = Num a /\ f (Num u) = Num b
    /\ (0 <= a <= b)%R /\ (b <= 1)%R
    /\ (t = 0%R -> a = 0%R) /\ (u = 1%R -> b = 1%R).
Proof.
  intros Hin Ht Hu.
  pose proof (@cube_mono 0 t) as C0; pose proof (@cube_mono t u) as C1.
  pose proof (@cube_mono u 1) as C2.
  pose proof (@cube_mono (1 - u) (1 - t)) as D1.
  pose proof (@cube_mono 0 (1 - u)) as D0.
  pose proof (@cube_mono (1 - t) 1) as D2.
  unfold easings in Hin; simpl in Hin.
  destruct Hin as [H|[H|[H|[H|[H|[H|[H|[H|[]]]]]]]]];
    injection H as _ <-.
  - exists t, u; unfold linear; repeat split; intros; lra.
  - now apply easeInOutCubic_mono.
  - do 2 eexists; cbn [num_mul].
    split; [reflexivity|]. split; [reflexivity|].
    repeat split; intros; subst; try lra; try nra.
  - do 2 eexists; cbn [Math_pow num_sub num_mul].
    split; [reflexivity|]. split; [reflexivity|].
    repeat split; intros; subst; try lra; try nra.
  - now apply easeInOutCubic_mono.
  - do 2 eexists; cbn [num_mul].
    split; [reflexivity|]. split; [reflexivity|].
    repeat split; intros; subst; try lra; try nra.
  - do 2 eexists; cbn [num_sub num_mul].
    split; [reflexivity|]. split; [reflexivity|].
    repeat split; intros; subst; try lra; try nra.
  - now apply easeInOutQuad_mono.
Qed.

Lemma easings_unit_interval_witness :
  exists a b : R,
    (Num 1 - Math_pow (Num 1 - Num (1 / 4)) 3) = Num a
    /\ (Num 1 - Math_pow (Num 1 - Num (3 / 4)) 3) = Num b
    /\ (0 <= a <= b)%R /\ (b <= 1)%R.
Proof.
  destruct (@easings_unit_interval (str "easeOut")
              (fun t => Num 1 - Math_pow (Num 1 - t) 3) (1 / 4) (3 / 4))
    as (a & b & Ha & Hb & H1 & H2 & _).
  - do 3 right; left; reflexivity.
  - lra.
  - lra.
  - exists a, b; repeat split; try assumption; lra.
Defined.

(** ** Timeline life cycle *)

(** Progress, without easing, of a playing timeline whose current time
    is its start time: 0 forward and yoyo, 1 in reverse, looping or not. *)
Lemma progress_at_start (fuel : nat) (tl : TimelineState) (s d : R) :
  isPlaying tl = true ->
  startTime tl = Num s -> currentTime tl = Num s -> duration tl = Num d ->
  d <> 0%R ->
  getTimelineProgress fuel tl None
  = Some (Num (match direction tl with reverse => 1 | _ => 0 end)).
Proof.
  intros Hplay Hs Hc Hd Hd0; unfold getTimelineProgress.
  rewrite Hplay, Hs, Hc, Hd; cbn [negb num_sub truthy].
  assert (Hraw : (if loop tl
                  then num_rem (Num (s - s)) (Num d) / Num d
                  else Math_min (Num (s - s) / Num d) (Num 1)) = Num 0).
  { replace (s - s)%R with (IZR 0 * d)%R by (simpl; ring).
    destruct (loop tl).
    - rewrite num_rem_multiple, num_div_Num by assumption.
      apply Num_eq; field; assumption.
    - rewrite num_div_Num, Math_min_Num by assumption; apply Num_eq.
      replace (IZR 0 * d / d)%R with 0%R by (simpl; field; assumption).
      apply Rmin_left; lra. }
  rewrite Hraw.
  destruct (yoyo_test 0) as (Hlow & _ & _); cbv zeta in Hlow.
  destruct (direction tl); cbn [applyDirection num_sub].
  - rewrite Math_min_Num, Math_max_Num; do 2 f_equal.
    unfold Rmin, Rmax; repeat destruct (Rle_dec _ _); lra.
  - rewrite Math_min_Num, Math_max_Num; do 2 f_equal.
    unfold Rmin, Rmax; repeat destruct (Rle_dec _ _); lra.
  - rewrite Hlow by lra; cbn [num_mul].
    rewrite Math_min_Num, Math_max_Num; do 2 f_equal.
    unfold Rmin, Rmax; repeat destruct (Rle_dec _ _); lra.
Qed.

(** [startTimeline] and [resetTimeline] both put a timeline at its
    start: [isAtStart] holds, [isComplete] is cleared, and a playing
    timeline reports progress 0 (1 in reverse).  [resetTimeline] clears
    [loopCount] and leaves [isPlaying] alone; [startTimeline] sets
    [isPlaying] and keeps [loopCount]. *)
Theorem timeline_rewind (fuel : nat) (tl : TimelineState) (s s' d : R) :
  startTime tl = Num s -> duration tl = Num d -> d <> 0%R ->
  let started := startTimeline tl (Num s') in
  let rewound := resetTimeline tl in
  isAtStart started = true /\ isComplete started = false
  /\ isPlaying started = true /\ loopCount started = loopCount tl
  /\ getTimelineProgress fuel started None
     = Some (Num (match direction tl with reverse => 1 | _ => 0 end))
  /\ isAtStart rewound = true /\ isComplete rewound = false
  /\ isPlaying rewound = isPlaying tl /\ loopCount rewound = Num 0
  /\ (isPlaying tl = true ->
      getTimelineProgress fuel rewound None
      = Some (Num (match direction tl with reverse => 1 | _ => 0 end))).
Proof.
  intros Hs Hd Hd0 started rewound.
  assert (Hzero : forall a : R, (Num a - Num a <=? Num 0) = true)
    by (intros a; simpl; apply Rleb_true; lra).
  split; [unfold started, isAtStart; simpl currentTime; simpl startTime; apply Hzero|].
  split; [reflexivity|]. split; [reflexivity|]. split; [reflexivity|].
  split; [apply (@progress_at_start fuel started s' d); auto|].
  split; [unfold rewound, isAtStart; simpl currentTime; simpl startTime;
          rewrite Hs; apply Hzero|].
  split; [reflexivity|]. split; [reflexivity|]. split; [reflexivity|].
  intros Hplay; apply (@progress_at_start fuel rewound s d); auto.
Qed.

Lemma timeline_rewind_witness :
  let tl := updateTimeline
              (startTimeline (createTimeline (mkOptions (Num 1000) (Some true) (Some reverse)))
                 (Num 50))
              (Num 2750) in
  loopCount tl = Num 2
  /\ isAtStart (resetTimeline tl) = true
  /\ loopCount (resetTimeline tl) = Num 0
  /\ getTimelineProgress 0 (resetTimeline tl) None = Some (Num 1).
Proof.
  intros tl.
  assert (Hd0 : 1000%R <> 0%R) by lra.
  destruct (@timeline_rewind 0 tl 50 0 1000 eq_refl eq_refl Hd0)
    as (_ & _ & _ & _ & _ & H1 & _ & _ & H2 & H3).
  split.
  - unfold tl, updateTimeline; cbn [negb isPlaying loop startTimeline createTimeline
      opt_loop startTime duration durationMs num_sub loopCount].
    rewrite num_div_Num by lra; cbn [Math_floor]; apply Num_eq; f_equal.
    apply Rfloor_unique; simpl; lra.
  - split; [exact H1|]. split; [exact H2|]. exact (H3 eq_refl).
Defined.

(** ** Degenerate sample counts *)

Lemma for_loop_forever {St : Type} (cond : num -> bool) (body : num -> St -> St) :
  (forall i, cond (of_nat i) = true) ->
  forall (fuel i : nat) (s : St), for_loop fuel cond body i s = None.
Proof.
  intros Hcond; induction fuel as [|fuel IH]; intros i s; simpl; [reflexivity|].
  rewrite Hcond; apply IH.
Qed.

(** [bezierArcLength] with a sample count that is zero, negative or NaN
    runs no iteration and returns 0, whatever the curve; with the sample
    count [+Infinity] its loop never ends. *)
Theorem arcLength_degenerate_samples
    (fuel : nat) (curve : BezierCurve) (samples : num) :
  ((Num 0 <? samples) = false ->
   bezierArcLength (S fuel) curve samples = Some (Num 0))
  /\ bezierArcLength fuel curve PInf = None.
Proof.
  split.
  - intros H.
    assert (H' : (of_nat 0 <? samples) = false) by exact H.
    destruct curve;
      unfold bezierArcLength, cubicBezierArcLength, quadraticBezierArcLength;
      cbn [for_loop]; now rewrite H'.
  - destruct curve; simpl; apply for_loop_forever; reflexivity.
Qed.

Lemma arcLength_degenerate_samples_witness :
  bezierArcLength 1 (Cubic cube_curve) NaN = Some (Num 0)
  /\ bezierArcLength 1 (Cubic cube_curve) (Num (-3)) = Some (Num 0)
  /\ bezierArcLength 1000 (Cubic cube_curve) PInf = None.
Proof.
  split; [|split].
  - apply (proj1 (@arcLength_degenerate_samples 0 (Cubic cube_curve) NaN)).
    reflexivity.
  - apply (proj1 (@arcLength_degenerate_samples 0 (Cubic cube_curve) (Num (-3)))).
    simpl; apply Rltb_false; lra.
  - apply (proj2 (@arcLength_degenerate_samples 1000 (Cubic cube_curve) NaN)).
Defined.

(** ** Terminal colours and Braille cells *)

Lemma Rfloor_range (r : R) (a b : Z) :
  (IZR a <= r < IZR b + 1)%R -> (a <= Rfloor r <= b)%Z.
Proof.
  intros H; pose proof (Rfloor_bounds r) as Hf.
  split.
  - assert (IZR a < IZR (Rfloor r + 1))%R by (rewrite plus_IZR; lra).
    apply lt_IZR in H0; lia.
  - assert (IZR (Rfloor r) < IZR (b + 1))%R by (rewrite plus_IZR; lra).
    apply lt_IZR in H0; lia.
Qed.

Lemma Reqb_IZR (a b : Z) : Reqb (IZR a) (IZR b) = (a =? b)%Z.
Proof.
  destruct (Z.eqb_spec a b) as [->|H]; [now apply Reqb_true|].
  apply Reqb_false; intros E; now apply eq_IZR in E.
Qed.

Lemma Rltb_IZR (a b : Z) : Rltb (IZR a) (IZR b) = (a <? b)%Z.
Proof.
  destruct (Z.ltb_spec a b) as [H|H].
  - apply Rltb_true, IZR_lt, H.
  - apply Rltb_false, IZR_le, H.
Qed.

(** A colour channel scaled to the 6-level cube: a level from 0 to 5. *)
Lemma cube_level (c : Z) :
  (0 <= c <= 255)%Z ->
  exists l : Z,
    Math_round (of_Z c / Num 255 * Num 5) = of_Z l /\ (0 <= l <= 5)%Z.
Proof.
  intros [H0 H1]; apply IZR_le in H0, H1.
  unfold of_Z; rewrite num_div_Num by lra; cbn [num_mul Math_round].
  eexists; split; [reflexivity|].
  apply Rfloor_range; simpl; lra.
Qed.

(** For channels that are integers from 0 to 255, [rgbToAnsi256]
    returns an integer code from 16 to 255, never one of the 16 basic
    colours: a grey (three equal channels) gives 16, 231 or a step of the
    grey ramp 232..255, any other colour a cell of the cube 16..231. *)
Theorem rgbToAnsi256_range (r g b : Z) :
  (0 <= r <= 255)%Z -> (0 <= g <= 255)%Z -> (0 <= b <= 255)%Z ->
  exists k : Z,
    rgbToAnsi256 (of_Z r) (of_Z g) (of_Z b) = of_Z k
    /\ (16 <= k <= 255)%Z
    /\ (r = g /\ g = b -> k = 16 \/ k = 231 \/ 232 <= k)%Z
    /\ (~ (r = g /\ g = b) -> k <= 231)%Z.
Proof.
  intros Hr Hg Hb; unfold rgbToAnsi256.
  unfold of_Z at 1 2 3 4; cbn [num_eq]; rewrite !Reqb_IZR.
  destruct (Z.eqb_spec r g) as [Erg|Erg], (Z.eqb_spec g b) as [Egb|Egb];
    cbn [andb].
  - unfold of_Z at 1; cbn [num_lt]; rewrite (Rltb_IZR r 8).
    destruct (Z.ltb_spec r 8) as [H8|H8].
    { exists 16%Z; split; [reflexivity|]. repeat split; try lia; try tauto. }
    unfold num_gt, of_Z at 1; cbn [num_lt]; rewrite (Rltb_IZR 248 r).
    destruct (Z.ltb_spec 248 r) as [H248|H248].
    { exists 231%Z; split; [reflexivity|]. repeat split; try lia; try tauto. }
    unfold of_Z at 1; cbn [num_sub]; rewrite num_div_Num by lra.
    cbn [num_mul Math_round num_add].
    exists (Rfloor ((IZR r - 8) / 247 * 24 + 1 / 2) + 232)%Z.
    split; [unfold of_Z; now rewrite plus_IZR|].
    assert (H : (0 <= Rfloor ((IZR r - 8) / 247 * 24 + 1 / 2) <= 23)%Z).
    { apply IZR_le in H8, H248; apply Rfloor_range; simpl; lra. }
    repeat split; try lia; try tauto.
  - destruct (cube_level Hr) as (r6 & -> & Hr6), (cube_level Hg) as (g6 & -> & Hg6).
    destruct (cube_level Hb) as (b6 & -> & Hb6).
    exists (16 + 36 * r6 + 6 * g6 + b6)%Z.
    split; [unfold of_Z; cbn [num_mul num_add];
            now rewrite !plus_IZR, !mult_IZR|].
    repeat split; try lia; try tauto.
  - destruct (cube_level Hr) as (r6 & -> & Hr6), (cube_level Hg) as (g6 & -> & Hg6).
    destruct (cube_level Hb) as (b6 & -> & Hb6).
    exists (16 + 36 * r6 + 6 * g6 + b6)%Z.
    split; [unfold of_Z; cbn [num_mul num_add];
            now rewrite !plus_IZR, !mult_IZR|].
    repeat split; try lia; try tauto.
  - destruct (cube_level Hr) as (r6 & -> & Hr6), (cube_level Hg) as (g6 & -> & Hg6).
    destruct (cube_level Hb) as (b6 & -> & Hb6).
    exists (16 + 36 * r6 + 6 * g6 + b6)%Z.
    split; [unfold of_Z; cbn [num_mul num_add];
            now rewrite !plus_IZR, !mult_IZR|].
    repeat split; try lia; try tauto.
Qed.

Lemma rgbToAnsi256_range_witness :
  exists k : Z,
    rgbToAnsi256 (Num 255) (Num 128) (Num 0) = of_Z k /\ (16 <= k <= 231)%Z.
Proof.
  destruct (@rgbToAnsi256_range 255 128 0) as (k & Hk & H1 & _ & H2); try lia.
  exists k; split; [exact Hk|]. split; [lia|]. apply H2; lia.
Defined.

(** [pixelsToBraille] throws exactly on grids that do not have two
    columns with four cells in the first.  On a 2 by 4 grid it returns a
    pattern below 256 whose bit [d] is the pixel at [dotMapping[d]]: bits
    0, 2, 3, 5 are the first column's cells 0, 1, 2, 3 and bits 1, 6, 4, 7
    the second column's.  So distinct grids give distinct patterns, and
    [brailleChar] of the pattern is the code unit [0x2800 + pattern], in
    the Braille block. *)
Theorem pixelsToBraille_bits (a0 a1 a2 a3 b0 b1 b2 b3 : bool) :
  exists p : Z,
    pixelsToBraille [[a0; a1; a2; a3]; [b0; b1; b2; b3]] = Some p
    /\ (0 <= p < 256)%Z
    /\ Z.testbit p 0 = a0 /\ Z.testbit p 2 = a1
    /\ Z.testbit p 3 = a2 /\ Z.testbit p 5 = a3
    /\ Z.testbit p 1 = b0 /\ Z.testbit p 6 = b1
    /\ Z.testbit p 4 = b2 /\ Z.testbit p 7 = b3
    /\ brailleChar p = [Z.to_N (10240 + p)]
    /\ forall pixels : list (list bool),
         pixelsToBraille pixels = None
         <-> (List.length pixels <> 2%nat
              \/ List.length (nth 0 pixels []) <> 4%nat).
Proof.
  eexists; split; [reflexivity|].
  split; [destruct a0, a1, a2, a3, b0, b1, b2, b3; vm_compute; split; congruence|].
  do 9 (split; [destruct a0, a1, a2, a3, b0, b1, b2, b3; reflexivity|]).
  intros pixels; unfold pixelsToBraille.
  destruct (Nat.eqb_spec (List.length pixels) 2) as [H2|H2];
    destruct (Nat.eqb_spec (List.length (nth 0 pixels [])) 4) as [H4|H4];
    cbn [negb orb]; split; intros H; try reflexivity; try discriminate;
    try tauto; destruct H; contradiction.
Qed.

(** ** Tables at the edges *)

(** [lengthToParameter] returns a number for every table and every
    target, whether the table is empty, unsorted or holds NaN: the
    binary search never reads an entry outside the table.  On a table
    with no entry it returns 0 for every target that passes the two
    guards. *)
Theorem lengthToParameter_never_throws (lut : PathLUT) (targetLength : num) :
  (exists v : num, lengthToParameter lut targetLength = Some v)
  /\ (lut_entries lut = [] ->
      (targetLength <=? Num 0) = false ->
      (targetLength >=? lut_totalLength lut) = false ->
      lengthToParameter lut targetLength = Some (Num 0)).
Proof.
  split; [apply lengthToParameter_total|].
  intros Hnil H0 H1; unfold lengthToParameter; rewrite H0, H1, Hnil.
  reflexivity.
Qed.

Lemma lengthToParameter_never_throws_witness :
  lengthToParameter (mkLUT [] (Num 10) (Num 1)) (Num 5) = Some (Num 0)
  /\ exists v : num,
       lengthToParameter
         (mkLUT [mkEntry (Num 0) (pt 0 0) NaN; mkEntry (Num 1) (pt 1 0) (Num 3)]
            (Num 7) (Num 1)) (Num 2) = Some v.
Proof.
  split.
  - apply (proj2 (@lengthToParameter_never_throws (mkLUT [] (Num 10) (Num 1)) (Num 5)));
      [reflexivity | simpl; apply Rleb_false; lra
       | unfold num_ge; simpl; apply Rleb_false; lra].
  - apply (proj1 (@lengthToParameter_never_throws _ (Num 2))).
Defined.

(** With a NaN resolution [createBezierLUT] samples nothing: for every
    well-formed curve it returns a table with no entry and total length
    0, not the eleven entries it builds at any finite resolution. *)
Theorem createBezierLUT_nan_resolution (fuel : nat) (curve : BezierCurve) :
  finiteCurve curve -> (10 < fuel)%nat ->
  createBezierLUT fuel curve NaN
  = Some {| lut_entries := []; lut_totalLength := Num 0; lut_resolution := NaN |}.
Proof.
  intros Hfin Hfuel; unfold createBezierLUT, default_samples.
  rewrite <- of_nat_10, bezierArcLength_coords by (assumption || lia).
  cbn [num_mul Math_ceil Math_max].
  destruct fuel as [|fuel]; [lia|]; reflexivity.
Qed.

Lemma createBezierLUT_nan_resolution_witness :
  createBezierLUT 11 (Quadratic spike) NaN
  = Some {| lut_entries := []; lut_totalLength := Num 0; lut_resolution := NaN |}.
Proof.
  apply createBezierLUT_nan_resolution; [|lia].
  simpl; unfold finiteQuadratic, finitePoint; simpl; tauto.
Defined.
